(** * hls.js core runtime: a shallow embedding and its checked properties

  The development follows the source files one module at a time:

  - [BufferOperationQueue]   (buffer-operation-queue.ts)
  - [PlaybackRateController] (playback-rate-controller.ts)
  - [LevelDetails]           (loader/level-details.ts)
  - [LevelController]        (controller/level-controller.ts)
  - [TimelineController]     (controller/timeline-controller.ts)

  JavaScript numbers that the code only uses as integers (sequence
  numbers, indices, millisecond delays, bytes) are [Z]; media times are
  rationals [Q]; the playback-rate sigmoid lives in the reals [R].
  Objects used as dictionaries are [gmap]s, arrays are lists read with
  [!!]. *)

From Stdlib Require Import ZArith Lia List Bool.
From Stdlib Require Import String Ascii.
From Stdlib Require Import QArith Qminmax Reals Psatz.
From stdpp Require Import base option list gmap strings pretty sorting.

Import ListNotations.

(* ====================================================================== *)
(** * BufferOperationQueue (per-track FIFO over the source buffers)        *)
(* ====================================================================== *)

Module BufferOperationQueue.

Inductive SourceBufferName := audio | video.

(** The only part of a [SourceBuffer] the queue looks at. *)
Record SourceBuffer := { updating : bool }.

(** [SourceBuffers]: an object with an optional buffer per track type. *)
Record SourceBuffers := {
  sb_audio : option SourceBuffer;
  sb_video : option SourceBuffer
}.

Definition get_buffer (buffers : SourceBuffers) (type : SourceBufferName)
  : option SourceBuffer :=
  match type with audio => sb_audio buffers | video => sb_video buffers end.

(** A thrown JavaScript value. *)
Definition Exception := string.

(** [execute] acts on the media sink (it may start an update) and either
  returns ([None]) or throws ([Some e]).  [onComplete] and [onError] are
  callbacks of the caller; the queue's calls to them are recorded in the
  trace under the operation's [op_id]. *)
Record BufferOperation := {
  op_id : nat;
  execute : SourceBuffers -> SourceBuffers * option Exception
}.

Inductive Call :=
  | CallExecute (id : nat)
  | CallOnError (id : nat) (e : Exception)
  | CallOnComplete (id : nat).

Record Queues := {
  q_audio : list BufferOperation;
  q_video : list BufferOperation
}.

Definition get_queue (queues : Queues) (type : SourceBufferName)
  : list BufferOperation :=
  match type with audio => q_audio queues | video => q_video queues end.

Definition set_queue (queues : Queues) (type : SourceBufferName)
    (q : list BufferOperation) : Queues :=
  match type with
  | audio => {| q_audio := q; q_video := q_video queues |}
  | video => {| q_audio := q_audio queues; q_video := q |}
  end.

(** The queue object together with the sink it refers to and the calls it
  has made so far (oldest first). *)
Record t := {
  buffers : SourceBuffers;
  queues : Queues;
  calls : list Call
}.

Definition constructor (sourceBufferReference : SourceBuffers) : t :=
  {| buffers := sourceBufferReference;
     queues := {| q_audio := []; q_video := [] |};
     calls := [] |}.

(** [queue.shift()] *)
Definition shift (q : list BufferOperation) : list BufferOperation := tail q.

(** [!sb || !sb.updating], where [sb] was read before [execute] ran and
  its flag is read afterwards. *)
Definition not_updating (sb : option SourceBuffer) (after : SourceBuffers)
    (type : SourceBufferName) : bool :=
  match sb with
  | None => true
  | Some before =>
      match get_buffer after type with
      | Some sb' => negb (updating sb')
      | None => negb (updating before)
      end
  end.

Definition executeNext (type : SourceBufferName) (this : t) : t :=
  let sb := get_buffer (buffers this) type in
  let queue := get_queue (queues this) type in
  match queue with
  | [] => this
  | operation :: _ =>
      match execute operation (buffers this) with
      | (buffers', None) =>
          {| buffers := buffers';
             queues := queues this;
             calls := calls this ++ [CallExecute (op_id operation)] |}
      | (buffers', Some e) =>
          {| buffers := buffers';
             queues :=
               if not_updating sb buffers' type
               then set_queue (queues this) type (shift queue)
               else queues this;
             calls := calls this ++ [CallExecute (op_id operation);
                                     CallOnError (op_id operation) e] |}
      end
  end.

Definition append (operation : BufferOperation) (type : SourceBufferName)
    (this : t) : t :=
  let queue := get_queue (queues this) type ++ [operation] in
  let this' := {| buffers := buffers this;
                  queues := set_queue (queues this) type queue;
                  calls := calls this |} in
  if (length queue =? 1)%nat && bool_decide (is_Some (get_buffer (buffers this) type))
  then executeNext type this'
  else this'.

(** The synthetic operation of [appendBlocker]: its [execute] resolves the
  promise handed to the caller and touches no buffer. *)
Definition blocker (id : nat) : BufferOperation :=
  {| op_id := id; execute := fun bufs => (bufs, None) |}.

Definition appendBlocker (id : nat) (type : SourceBufferName) (this : t) : t :=
  append (blocker id) type this.

Definition shiftAndExecuteNext (type : SourceBufferName) (this : t) : t :=
  executeNext type
    {| buffers := buffers this;
       queues := set_queue (queues this) type (shift (get_queue (queues this) type));
       calls := calls this |}.

(** The source-buffer behaviour the examples use: [appendBuffer] marks the
  buffer of [type] updating, the [updateend] event clears the mark. *)
Definition set_updating (type : SourceBufferName) (b : bool)
    (bufs : SourceBuffers) : SourceBuffers :=
  match type with
  | audio => {| sb_audio := (fun _ => {| updating := b |}) <$> sb_audio bufs;
                sb_video := sb_video bufs |}
  | video => {| sb_audio := sb_audio bufs;
                sb_video := (fun _ => {| updating := b |}) <$> sb_video bufs |}
  end.

(** An append that starts an update of the buffer. *)
Definition appendOp (id : nat) (type : SourceBufferName) : BufferOperation :=
  {| op_id := id; execute := fun bufs => (set_updating type true bufs, None) |}.

(** An operation whose [execute] throws before it touches the buffer. *)
Definition throwingOp (id : nat) (e : Exception) : BufferOperation :=
  {| op_id := id; execute := fun bufs => (bufs, Some e) |}.

(** The external [updateend] observer: the buffer is idle again and the
  queue is told to move on. *)
Definition onSBUpdateEnd (type : SourceBufferName) (this : t) : t :=
  shiftAndExecuteNext type
    {| buffers := set_updating type false (buffers this);
       queues := queues this;
       calls := calls this |}.

(** The scenario: Z is in flight on an existing video buffer, A and B are
  enqueued behind it, [updateend] for Z arrives and A throws. *)
Definition idle_sink : SourceBuffers :=
  {| sb_audio := None; sb_video := Some {| updating := false |} |}.

Definition opZ := appendOp 0 video.
Definition opA := throwingOp 1 "QuotaExceededError".
Definition opB := appendOp 2 video.

Definition scenario_before_updateend : t :=
  append opB video (append opA video (append opZ video (constructor idle_sink))).

Definition scenario_after_updateend : t :=
  onSBUpdateEnd video scenario_before_updateend.

(** ** Runs of several operations *)

(** [ops.forEach (op => queue.append (op, type))] *)
Definition append_all (ops : list BufferOperation) (type : SourceBufferName)
    (this : t) : t :=
  fold_left (fun this op => append op type this) ops this.

(** [k] calls of [shiftAndExecuteNext (type)], one per [updateend]. *)
Definition shift_times (k : nat) (type : SourceBufferName) (this : t) : t :=
  Nat.iter k (shiftAndExecuteNext type) this.

(** An operation whose [execute] returns normally whatever the sink's
    state. *)
Definition never_throws (op : BufferOperation) : Prop :=
  forall bufs, snd (execute op bufs) = None.

Definition other (type : SourceBufferName) : SourceBufferName :=
  match type with audio => video | video => audio end.

End BufferOperationQueue.

(* ====================================================================== *)
(** * PlaybackRateController (latency control loop)                        *)
(* ====================================================================== *)

Module PlaybackRateController.

Local Open Scope R_scope.

Definition sampleRate : Z := 250.

Definition L : R := 2.
Definition k : R := 1 / 2.
Definition sigmoid (x x0 : R) : R := L / (1 + exp (- k * (x - x0))).

(** The media element as far as the controller uses it. *)
Record Media := {
  currentTime : R;
  playbackRate : R;
  buffered : list (R * R)
}.

Definition set_playbackRate (media : Media) (rate : R) : Media :=
  {| currentTime := currentTime media;
     playbackRate := rate;
     buffered := buffered media |}.

(** The result of [BufferHelper.bufferInfo]. *)
Record BufferInfo := { len : R; start : R; end_ : R }.

Record t := {
  maxBufferHole : R;             (* config.maxBufferHole *)
  media : option Media;
  latencyTarget : R;
  refreshLatency : R;
  interval : option Z            (* the task loop's timer, if set *)
}.

Definition constructor (config_maxBufferHole : R) : t :=
  {| maxBufferHole := config_maxBufferHole;
     media := None;
     latencyTarget := 3;
     refreshLatency := 1;
     interval := None |}.

Definition onMediaAttached (data_media : Media) (this : t) : t :=
  {| maxBufferHole := maxBufferHole this;
     media := Some data_media;
     latencyTarget := latencyTarget this;
     refreshLatency := refreshLatency this;
     interval := Some sampleRate |}.

Definition onMediaDetaching (this : t) : t :=
  {| maxBufferHole := maxBufferHole this;
     media := None;
     latencyTarget := latencyTarget this;
     refreshLatency := refreshLatency this;
     interval := None |}.

Definition Rltb (x y : R) : bool := if Rlt_dec x y then true else false.

Section DoTick.

(** [BufferHelper.bufferInfo (media, pos, maxBufferHole)] is a helper of
    another file; the controller only reads its [len]. *)
Variable bufferInfo : Media -> R -> R -> BufferInfo.

Definition doTick (this : t) : t :=
  match media this with
  | None => this
  | Some media =>
      let pos := currentTime media in
      let bufferLength := len (bufferInfo media pos (maxBufferHole this)) in
      let distance := latencyTarget this - bufferLength in
      let rate :=
        if Rltb distance 0 || Rltb (refreshLatency this) distance
        then sigmoid bufferLength (latencyTarget this)
        else 1 in
      {| maxBufferHole := maxBufferHole this;
         media := Some (set_playbackRate media rate);
         latencyTarget := latencyTarget this;
         refreshLatency := refreshLatency this;
         interval := interval this |}
  end.

(** The states the controller goes through. *)
Inductive reachable : t -> Prop :=
  | reach_new c : reachable (constructor c)
  | reach_attached m this : reachable this -> reachable (onMediaAttached m this)
  | reach_detaching this : reachable this -> reachable (onMediaDetaching this)
  | reach_tick this : reachable this -> reachable (doTick this).

End DoTick.

(** Scenario S6: an empty forward buffer with the default target of 3 s. *)
Definition empty_bufferInfo (m : Media) (pos maxBufferHole : R) : BufferInfo :=
  {| len := 0; start := pos; end_ := pos |}.

Definition silent_media : Media :=
  {| currentTime := 0; playbackRate := 1; buffered := [] |}.

Definition just_attached : t :=
  onMediaAttached silent_media (constructor (1 / 2)).

End PlaybackRateController.

(* ====================================================================== *)
(** * JavaScript helpers: regular expressions, [parseInt], numbers          *)
(* ====================================================================== *)

Module JS.

Local Open Scope string_scope.

(** ** Results of code that may throw *)

Inductive Outcome (A : Type) :=
  | Returned (a : A)
  | Thrown (message : string).
Arguments Returned {A} a.
Arguments Thrown {A} message.

#[export] Instance Outcome_ret : MRet Outcome := fun A a => Returned a.
#[export] Instance Outcome_bind : MBind Outcome := fun A B f m =>
  match m with
  | Returned a => f a
  | Thrown e => Thrown e
  end.


(** A number that may be [NaN]. *)
Inductive Num := NaN | Int (z : Z).

(** ** The regular expressions the sources use

  Greedy quantifiers with backtracking and numbered capture groups, as
  [RegExp.prototype.exec] runs them.  [Plus] is [c+] over a character
  class, which is the only repetition these sources write. *)

Inductive CharClass :=
  | Digit        (* \d *)
  | Dot.         (* .  : anything but a line terminator *)

Inductive Regex :=
  | Lit (s : string)
  | Plus (c : CharClass)
  | Seq (r1 r2 : Regex)
  | Opt (r : Regex)
  | Group (i : nat) (r : Regex).   (* the i-th capture group, from 1 *)

Definition is_digit (a : ascii) : bool :=
  let n := nat_of_ascii a in (48 <=? n)%nat && (n <=? 57)%nat.

Definition is_line_terminator (a : ascii) : bool :=
  let n := nat_of_ascii a in (n =? 10)%nat || (n =? 13)%nat.

Definition in_class (c : CharClass) (a : ascii) : bool :=
  match c with
  | Digit => is_digit a
  | Dot => negb (is_line_terminator a)
  end.

Fixpoint ngroups (r : Regex) : nat :=
  match r with
  | Lit _ | Plus _ => 0
  | Seq r1 r2 => ngroups r1 + ngroups r2
  | Opt r => ngroups r
  | Group _ r => S (ngroups r)
  end.

(** [strip_prefix p s] is the rest of [s] after its prefix [p]. *)
Fixpoint strip_prefix (p s : string) : option string :=
  match p, s with
  | EmptyString, _ => Some s
  | String a p', String b s' =>
      if Ascii.eqb a b then strip_prefix p' s' else None
  | String _ _, EmptyString => None
  end.

(** The text between position [s] and the later position [s'] of the
  same input. *)
Definition consumed (s s' : string) : string :=
  substring 0 (String.length s - String.length s') s.

Abbreviation Captures := (list (option string)).

Section Matcher.

Context {A : Type}.

(** After one character of the class: take as many more as possible,
    giving them back one at a time while the continuation fails. *)
Fixpoint plus_loop (p : ascii -> bool) (s : string)
    (k : string -> option A) : option A :=
  match s with
  | String a s' =>
      if p a then
        match plus_loop p s' k with
        | Some res => Some res
        | None => k s
        end
      else k s
  | EmptyString => k s
  end.

Fixpoint rmatch (r : Regex) (s : string) (caps : Captures)
    (k : string -> Captures -> option A) : option A :=
  match r with
  | Lit l =>
      match strip_prefix l s with
      | Some s' => k s' caps
      | None => None
      end
  | Plus c =>
      match s with
      | String a s' =>
          if in_class c a
          then plus_loop (in_class c) s' (fun s'' => k s'' caps)
          else None
      | EmptyString => None
      end
  | Seq r1 r2 =>
      rmatch r1 s caps (fun s' caps' => rmatch r2 s' caps' k)
  | Opt r =>
      match rmatch r s caps k with
      | Some res => Some res
      | None => k s caps
      end
  | Group i r =>
      rmatch r s caps
        (fun s' caps' => k s' (<[pred i := Some (consumed s s')]> caps'))
  end.

End Matcher.

(** [str.match(r)] for a regular expression without the [g] flag: the
  leftmost match, as the array [[whole; group 1; ...; group n]] in
  which a group that took no part is [None] ([undefined]); [None] when
  there is no match ([null]). *)
Fixpoint match_from (r : Regex) (s : string) : option (list (option string)) :=
  let attempt :=
    rmatch r s (replicate (ngroups r) None)
      (fun s' caps => Some (Some (consumed s s') :: caps)) in
  match attempt with
  | Some m => Some m
  | None =>
      match s with
      | String _ s' => match_from r s'
      | EmptyString => None
      end
  end.

Definition String_match (s : string) (r : Regex) : option (list (option string)) :=
  match_from r s.

(** ** [parseInt] with no radix argument *)

Definition is_whitespace (a : ascii) : bool :=
  let n := nat_of_ascii a in
  (n =? 32)%nat || ((9 <=? n)%nat && (n <=? 13)%nat).

Fixpoint skip_whitespace (s : string) : string :=
  match s with
  | String a s' => if is_whitespace a then skip_whitespace s' else s
  | EmptyString => s
  end.

Definition digit_value (radix : Z) (a : ascii) : option Z :=
  let n := Z.of_nat (nat_of_ascii a) in
  let v :=
    if (48 <=? n)%Z && (n <=? 57)%Z then Some (n - 48)%Z
    else if (97 <=? n)%Z && (n <=? 122)%Z then Some (n - 87)%Z
    else if (65 <=? n)%Z && (n <=? 90)%Z then Some (n - 55)%Z
    else None in
  match v with
  | Some d => if (d <? radix)%Z then Some d else None
  | None => None
  end.

(** The longest prefix of digits, read in [radix]; [None] without one. *)
Fixpoint parse_digits (radix : Z) (s : string) (acc : option Z) : option Z :=
  match s with
  | String a s' =>
      match digit_value radix a with
      | Some d => parse_digits radix s' (Some (default 0%Z acc * radix + d)%Z)
      | None => acc
      end
  | EmptyString => acc
  end.

Definition parse_unsigned (s : string) : option Z :=
  match s with
  | String "0" (String "x" s') | String "0" (String "X" s') =>
      parse_digits 16 s' None
  | _ => parse_digits 10 s None
  end.

Definition parseInt_string (s : string) : Num :=
  let s := skip_whitespace s in
  let '(sign, s) :=
    match s with
    | String "-" s' => ((-1)%Z, s')
    | String "+" s' => (1%Z, s')
    | _ => (1%Z, s)
    end in
  match parse_unsigned s with
  | Some n => Int (sign * n)
  | None => NaN
  end.

(** [parseInt (x)] where [x] may be [undefined], which reads as the
  string "undefined". *)
Definition parseInt (x : option string) : Num :=
  match x with
  | Some s => parseInt_string s
  | None => NaN
  end.

(** [arr[i]] for a number [i]: [undefined] outside the array. *)
Definition array_get {A : Type} (arr : list A) (i : Z) : option A :=
  if (i <? 0)%Z then None else arr !! Z.to_nat i.

(** ** Division of two finite numbers

    The quotient of two finite numbers is finite unless the divisor is
    zero; then it is an infinity of the dividend's sign, or [NaN] for 0/0. *)

Inductive Quotient :=
| Fin (q : Q)
| PlusInfinity
| MinusInfinity
| NotANumber.

Definition div (a b : Q) : Quotient :=
  if Qeq_bool b 0 then
    match (a ?= 0)%Q with
    | Gt => PlusInfinity
    | Lt => MinusInfinity
    | Eq => NotANumber
    end
  else Fin (a / b)%Q.

Definition Qlt_bool (x y : Q) : bool := negb (Qle_bool y x).

(** [x > c] for a finite [c]: false when [x] is [NaN]. *)
Definition gt (x : Quotient) (c : Q) : bool :=
  match x with
  | Fin q => Qlt_bool c q
  | PlusInfinity => true
  | MinusInfinity | NotANumber => false
  end.

(** [url.split ('?')[0]] *)
Fixpoint before_question_mark (s : string) : string :=
  match s with
  | String a s' =>
      if Ascii.eqb a "?" then EmptyString
      else String a (before_question_mark s')
  | EmptyString => EmptyString
  end.

End JS.

(* ====================================================================== *)
(** * LevelDetails (parsed playlist state of one rendition)                *)
(* ====================================================================== *)

Module LevelDetails.

Local Open Scope string_scope.

(** A fragment as the controllers read it. *)
Inductive FragmentType := main | subtitle | audio_frag.

Record DecryptData := {
  key : option string;
  method : string
}.

Record Fragment := {
  sn : Z;
  cc : nat;
  level : Z;
  type : FragmentType;
  start : Q;
  decryptdata : option DecryptData
}.

Record ServerControl := {
  canBlock : bool;
  canSkipUntil : Z;
  holdBack : Z;
  partHoldBack : Z
}.

Record Push := { msn : JS.Num; part : JS.Num }.

Record t := {
  availabilityDelay : option Z;
  endCC : Z;
  endSN : Z;
  endPart : Z;
  fragments : list Fragment;
  live : bool;
  startCC : Z;
  startSN : Z;
  targetduration : Z;
  totalduration : Z;
  updated : option bool;
  url : string;
  serverControl : option ServerControl;
  partTarget : option Z;
  skipped : Z;
  push : option Push
}.

(** [/_HLS_msn=(\d+)(.+_HLS_part=(\d+))?.+_HLS_push=1/] *)
Definition push_params : JS.Regex :=
  JS.Seq (JS.Lit "_HLS_msn=")
    (JS.Seq (JS.Group 1 (JS.Plus JS.Digit))
       (JS.Seq
          (JS.Opt (JS.Group 2
                     (JS.Seq (JS.Plus JS.Dot)
                        (JS.Seq (JS.Lit "_HLS_part=")
                           (JS.Group 3 (JS.Plus JS.Digit))))))
          (JS.Seq (JS.Plus JS.Dot) (JS.Lit "_HLS_push=1")))).

Definition constructor (baseUrl : string) : t :=
  let params := JS.String_match baseUrl push_params in
  let push :=
    match params with
    | Some params =>
        if (length params =? 3)%nat
        then Some {| msn := JS.parseInt (mjoin (params !! 1%nat));
                     part := JS.parseInt (mjoin (params !! 2%nat)) |}
        else None
    | None => None
    end in
  {| availabilityDelay := None;
     endCC := 0;
     endSN := 0;
     endPart := -1;
     fragments := [];
     live := true;
     startCC := 0;
     startSN := 0;
     targetduration := 0;
     totalduration := 0;
     updated := None;
     url := baseUrl;
     serverControl := None;
     partTarget := None;
     skipped := 0;
     push := push |}.

(** A playlist URL of a low-latency push request. *)
Definition pushed_playlist_url : string :=
  "https://example.com/live.m3u8?_HLS_msn=42&_HLS_part=1&_HLS_push=1".

End LevelDetails.

(* ====================================================================== *)
(** * LevelController (renditions, reload timer, error recovery, LL-HLS)   *)
(* ====================================================================== *)

Module LevelController.

Export JS.
Local Open Scope Z_scope.

(** ** Data *)

(** [!!s] for an optional string: [undefined] and the empty string are
  falsy. *)
Definition truthy (s : option string) : bool :=
  match s with
  | Some EmptyString | None => false
  | Some _ => true
  end.

(** [s.indexOf (needle) !== -1] *)
Fixpoint includes (needle s : string) : bool :=
  if String.prefix needle s then true
  else match s with
       | String _ s' => includes needle s'
       | EmptyString => false
       end.

Record LevelAttributes := {
  AUDIO : option string;
  SUBTITLES : option string
}.

(** One variant of the manifest, as the playlist parser hands it over. *)
Record LevelParsed := {
  lp_attrs : option LevelAttributes;
  lp_audioCodec : option string;
  lp_videoCodec : option string;
  lp_bitrate : Z;
  lp_url : string
}.

Record Level := {
  attrs : option LevelAttributes;
  audioCodec : option string;
  videoCodec : option string;
  bitrate : Z;
  url : list string;
  urlId : Z;
  audioGroupIds : option (list string);
  textGroupIds : option (list string);
  details : option LevelDetails.t;
  loadError : Z;
  fragmentError : bool
}.

(** Modelled from the spec: the class [Level] of types/level is not among
  the sources.  Section 3 of the specification gives its fields; a level
  is created from the first manifest entry of its bitrate with that
  entry's URL as its only URL, which leaves 0 for [urlId], and with no
  failure counted yet. *)
Definition new_Level (data : LevelParsed) : Level :=
  {| attrs := lp_attrs data;
     audioCodec := lp_audioCodec data;
     videoCodec := lp_videoCodec data;
     bitrate := lp_bitrate data;
     url := [lp_url data];
     urlId := 0;
     audioGroupIds := None;
     textGroupIds := None;
     details := None;
     loadError := 0;
     fragmentError := false |}.

Inductive GroupType := audio_group | text_group.

(** Modelled from the spec: [addGroupId] of controller/level-helper is not
  among the sources.  Section 4.3.1: the group identifier of the HLS
  attribute is attached to the grouped level; the controller reads
  [audioGroupIds] back as an array, one entry per attachment. *)
Definition addGroupId (level : Level) (type : GroupType) (id : string) : Level :=
  {| attrs := attrs level;
     audioCodec := audioCodec level;
     videoCodec := videoCodec level;
     bitrate := bitrate level;
     url := url level;
     urlId := urlId level;
     audioGroupIds :=
       match type with
       | audio_group => Some (default [] (audioGroupIds level) ++ [id])
       | text_group => audioGroupIds level
       end;
     textGroupIds :=
       match type with
       | audio_group => textGroupIds level
       | text_group => Some (default [] (textGroupIds level) ++ [id])
       end;
     details := details level;
     loadError := loadError level;
     fragmentError := fragmentError level |}.

(** Field updates of a level object. *)
Definition set_url (v : list string) (l : Level) : Level :=
  {| attrs := attrs l; audioCodec := audioCodec l; videoCodec := videoCodec l;
     bitrate := bitrate l; url := v; urlId := urlId l;
     audioGroupIds := audioGroupIds l; textGroupIds := textGroupIds l;
     details := details l; loadError := loadError l;
     fragmentError := fragmentError l |}.

Definition set_urlId (v : Z) (l : Level) : Level :=
  {| attrs := attrs l; audioCodec := audioCodec l; videoCodec := videoCodec l;
     bitrate := bitrate l; url := url l; urlId := v;
     audioGroupIds := audioGroupIds l; textGroupIds := textGroupIds l;
     details := details l; loadError := loadError l;
     fragmentError := fragmentError l |}.

Definition set_details (v : option LevelDetails.t) (l : Level) : Level :=
  {| attrs := attrs l; audioCodec := audioCodec l; videoCodec := videoCodec l;
     bitrate := bitrate l; url := url l; urlId := urlId l;
     audioGroupIds := audioGroupIds l; textGroupIds := textGroupIds l;
     details := v; loadError := loadError l;
     fragmentError := fragmentError l |}.

Definition set_loadError (v : Z) (l : Level) : Level :=
  {| attrs := attrs l; audioCodec := audioCodec l; videoCodec := videoCodec l;
     bitrate := bitrate l; url := url l; urlId := urlId l;
     audioGroupIds := audioGroupIds l; textGroupIds := textGroupIds l;
     details := details l; loadError := v;
     fragmentError := fragmentError l |}.

Definition set_fragmentError (v : bool) (l : Level) : Level :=
  {| attrs := attrs l; audioCodec := audioCodec l; videoCodec := videoCodec l;
     bitrate := bitrate l; url := url l; urlId := urlId l;
     audioGroupIds := audioGroupIds l; textGroupIds := textGroupIds l;
     details := details l; loadError := loadError l;
     fragmentError := v |}.

(** An audio rendition of the manifest. *)
Record MediaPlaylist := {
  mp_id : Z;
  mp_groupId : option string;
  mp_audioCodec : option string;
  mp_url : option string
}.

Record LoaderStats := { trequest : Z; tfirst : Z; tload : Z }.

(** ** Events *)

Inductive ErrorType := NETWORK_ERROR | MEDIA_ERROR | OTHER_ERROR.

Inductive ErrorDetail :=
  | MANIFEST_INCOMPATIBLE_CODECS_ERROR
  | LEVEL_LOAD_ERROR | LEVEL_LOAD_TIMEOUT | LEVEL_SWITCH_ERROR
  | FRAG_LOAD_ERROR | FRAG_LOAD_TIMEOUT
  | KEY_LOAD_ERROR | KEY_LOAD_TIMEOUT
  | REMUX_ALLOC_ERROR
  | BUFFER_STALLED_ERROR.

Record ErrorData := {
  err_type : ErrorType;
  err_details : ErrorDetail;
  fatal : bool;
  err_frag : option LevelDetails.Fragment;
  err_context_level : option Z;      (* data.context.level *)
  err_level : option Z;
  levelRetry : option bool;
  err_url : option string;
  err_reason : option string
}.

Definition set_fatal (v : bool) (e : ErrorData) : ErrorData :=
  {| err_type := err_type e; err_details := err_details e; fatal := v;
     err_frag := err_frag e; err_context_level := err_context_level e;
     err_level := err_level e; levelRetry := levelRetry e;
     err_url := err_url e; err_reason := err_reason e |}.

Definition set_levelRetry (v : option bool) (e : ErrorData) : ErrorData :=
  {| err_type := err_type e; err_details := err_details e; fatal := fatal e;
     err_frag := err_frag e; err_context_level := err_context_level e;
     err_level := err_level e; levelRetry := v;
     err_url := err_url e; err_reason := err_reason e |}.

Record ManifestLoadedData := {
  ml_levels : list LevelParsed;
  ml_audioTracks : option (list MediaPlaylist);
  ml_url : string;
  ml_stats : LoaderStats
}.

Record ManifestParsedData := {
  mp_levels : list Level;
  mp_audioTracks : list MediaPlaylist;
  mp_firstLevel : Z;
  mp_stats : LoaderStats;
  mp_audio : bool;
  mp_video : bool;
  mp_altAudio : bool
}.

Record LevelLoadedData := {
  ll_level : Z;
  ll_details : LevelDetails.t;
  ll_id : Z;
  ll_stats : LoaderStats
}.

(** What the controller sends through [hls.trigger], and its call of the
  [onParsedComplete] hook. *)
Inductive Event :=
  | MANIFEST_PARSED (data : ManifestParsedData)
  | ERROR (data : ErrorData)
  | LEVEL_LOADING (url : option string) (level : Z) (id : Z)
  | LEVEL_SWITCHING (level : Z)
  | LEVELS_UPDATED (levels : list Level)
  | PARSED_COMPLETE.

(** ** The controller *)

Record Config := {
  levelLoadingMaxRetry : Z;
  levelLoadingRetryDelay : Z;
  levelLoadingMaxRetryTimeout : Z;
  startLevel : option Z
}.

(** What a pending [self.setTimeout] will call. *)
Inductive TimerTask :=
  | LoadLevel
  | LoadLowLatencyLevel (details : LevelDetails.t) (level : Z) (id : Z).

Record Timeout := {
  handle : nat;
  task : TimerTask;
  delay : Z
}.

(** The fields of the class, followed by what it reaches through [this.hls]
  and [self]: the configuration, [hls.nextAutoLevel], [hls.audioTracks],
  the timeouts pending in the host, and the events triggered so far
  (oldest first).  [hls.levels] is the controller's own [_levels]. *)
Record t := {
  _levels : option (list Level);
  _firstLevel : Z;
  canLoad : bool;
  currentLevelIndex : option Z;
  levelRetryCount : Z;
  manualLevelIndex : Z;
  timer : option nat;
  currentSn : Z;
  currentPart : Z;
  config : Config;
  nextAutoLevel : Z;
  audioTracks : list MediaPlaylist;
  timeouts : list Timeout;
  next_handle : nat;
  triggered : list Event
}.

Definition constructor (cfg : Config) : t :=
  {| _levels := None; _firstLevel := -1; canLoad := false;
     currentLevelIndex := None; levelRetryCount := 0; manualLevelIndex := -1;
     timer := None; currentSn := -1; currentPart := -1;
     config := cfg; nextAutoLevel := -1; audioTracks := [];
     timeouts := []; next_handle := 1; triggered := [] |}.

Definition set__levels (v : option (list Level)) (c : t) : t :=
  {| _levels := v; _firstLevel := _firstLevel c; canLoad := canLoad c;
     currentLevelIndex := currentLevelIndex c; levelRetryCount := levelRetryCount c;
     manualLevelIndex := manualLevelIndex c; timer := timer c;
     currentSn := currentSn c; currentPart := currentPart c; config := config c;
     nextAutoLevel := nextAutoLevel c; audioTracks := audioTracks c;
     timeouts := timeouts c; next_handle := next_handle c; triggered := triggered c |}.

Definition set__firstLevel (v : Z) (c : t) : t :=
  {| _levels := _levels c; _firstLevel := v; canLoad := canLoad c;
     currentLevelIndex := currentLevelIndex c; levelRetryCount := levelRetryCount c;
     manualLevelIndex := manualLevelIndex c; timer := timer c;
     currentSn := currentSn c; currentPart := currentPart c; config := config c;
     nextAutoLevel := nextAutoLevel c; audioTracks := audioTracks c;
     timeouts := timeouts c; next_handle := next_handle c; triggered := triggered c |}.

Definition set_canLoad (v : bool) (c : t) : t :=
  {| _levels := _levels c; _firstLevel := _firstLevel c; canLoad := v;
     currentLevelIndex := currentLevelIndex c; levelRetryCount := levelRetryCount c;
     manualLevelIndex := manualLevelIndex c; timer := timer c;
     currentSn := currentSn c; currentPart := currentPart c; config := config c;
     nextAutoLevel := nextAutoLevel c; audioTracks := audioTracks c;
     timeouts := timeouts c; next_handle := next_handle c; triggered := triggered c |}.

Definition set_currentLevelIndex (v : option Z) (c : t) : t :=
  {| _levels := _levels c; _firstLevel := _firstLevel c; canLoad := canLoad c;
     currentLevelIndex := v; levelRetryCount := levelRetryCount c;
     manualLevelIndex := manualLevelIndex c; timer := timer c;
     currentSn := currentSn c; currentPart := currentPart c; config := config c;
     nextAutoLevel := nextAutoLevel c; audioTracks := audioTracks c;
     timeouts := timeouts c; next_handle := next_handle c; triggered := triggered c |}.

Definition set_levelRetryCount (v : Z) (c : t) : t :=
  {| _levels := _levels c; _firstLevel := _firstLevel c; canLoad := canLoad c;
     currentLevelIndex := currentLevelIndex c; levelRetryCount := v;
     manualLevelIndex := manualLevelIndex c; timer := timer c;
     currentSn := currentSn c; currentPart := currentPart c; config := config c;
     nextAutoLevel := nextAutoLevel c; audioTracks := audioTracks c;
     timeouts := timeouts c; next_handle := next_handle c; triggered := triggered c |}.

Definition set_timer (v : option nat) (c : t) : t :=
  {| _levels := _levels c; _firstLevel := _firstLevel c; canLoad := canLoad c;
     currentLevelIndex := currentLevelIndex c; levelRetryCount := levelRetryCount c;
     manualLevelIndex := manualLevelIndex c; timer := v;
     currentSn := currentSn c; currentPart := currentPart c; config := config c;
     nextAutoLevel := nextAutoLevel c; audioTracks := audioTracks c;
     timeouts := timeouts c; next_handle := next_handle c; triggered := triggered c |}.

Definition set_currentSn (v : Z) (c : t) : t :=
  {| _levels := _levels c; _firstLevel := _firstLevel c; canLoad := canLoad c;
     currentLevelIndex := currentLevelIndex c; levelRetryCount := levelRetryCount c;
     manualLevelIndex := manualLevelIndex c; timer := timer c;
     currentSn := v; currentPart := currentPart c; config := config c;
     nextAutoLevel := nextAutoLevel c; audioTracks := audioTracks c;
     timeouts := timeouts c; next_handle := next_handle c; triggered := triggered c |}.

Definition set_currentPart (v : Z) (c : t) : t :=
  {| _levels := _levels c; _firstLevel := _firstLevel c; canLoad := canLoad c;
     currentLevelIndex := currentLevelIndex c; levelRetryCount := levelRetryCount c;
     manualLevelIndex := manualLevelIndex c; timer := timer c;
     currentSn := currentSn c; currentPart := v; config := config c;
     nextAutoLevel := nextAutoLevel c; audioTracks := audioTracks c;
     timeouts := timeouts c; next_handle := next_handle c; triggered := triggered c |}.

Definition set_nextAutoLevel (v : Z) (c : t) : t :=
  {| _levels := _levels c; _firstLevel := _firstLevel c; canLoad := canLoad c;
     currentLevelIndex := currentLevelIndex c; levelRetryCount := levelRetryCount c;
     manualLevelIndex := manualLevelIndex c; timer := timer c;
     currentSn := currentSn c; currentPart := currentPart c; config := config c;
     nextAutoLevel := v; audioTracks := audioTracks c;
     timeouts := timeouts c; next_handle := next_handle c; triggered := triggered c |}.

(** [this.hls.trigger (event, data)] *)
Definition trigger (e : Event) (c : t) : t :=
  {| _levels := _levels c; _firstLevel := _firstLevel c; canLoad := canLoad c;
     currentLevelIndex := currentLevelIndex c; levelRetryCount := levelRetryCount c;
     manualLevelIndex := manualLevelIndex c; timer := timer c;
     currentSn := currentSn c; currentPart := currentPart c; config := config c;
     nextAutoLevel := nextAutoLevel c; audioTracks := audioTracks c;
     timeouts := timeouts c; next_handle := next_handle c;
     triggered := triggered c ++ [e] |}.

(** [this.timer = self.setTimeout (task, delay)]: the host hands out a
  fresh handle; a timeout armed earlier stays pending in the host. *)
Definition arm_timer (tk : TimerTask) (ms : Z) (c : t) : t :=
  {| _levels := _levels c; _firstLevel := _firstLevel c; canLoad := canLoad c;
     currentLevelIndex := currentLevelIndex c; levelRetryCount := levelRetryCount c;
     manualLevelIndex := manualLevelIndex c; timer := Some (next_handle c);
     currentSn := currentSn c; currentPart := currentPart c; config := config c;
     nextAutoLevel := nextAutoLevel c; audioTracks := audioTracks c;
     timeouts := timeouts c ++ [{| handle := next_handle c; task := tk; delay := ms |}];
     next_handle := S (next_handle c); triggered := triggered c |}.

Definition clearTimer (c : t) : t :=
  match timer c with
  | Some h =>
      {| _levels := _levels c; _firstLevel := _firstLevel c; canLoad := canLoad c;
         currentLevelIndex := currentLevelIndex c;
         levelRetryCount := levelRetryCount c;
         manualLevelIndex := manualLevelIndex c; timer := None;
         currentSn := currentSn c; currentPart := currentPart c; config := config c;
         nextAutoLevel := nextAutoLevel c; audioTracks := audioTracks c;
         timeouts := filter (fun t => handle t <> h) (timeouts c);
         next_handle := next_handle c; triggered := triggered c |}
  | None => c
  end.

(** A level object is shared by reference; a write to it is a write at
  its index of the level array. *)
Definition update_level (levelIndex : Z) (f : Level -> Level) (c : t) : t :=
  set__levels (alter f (Z.to_nat levelIndex) <$> _levels c) c.

Definition loadLevel (this : t) : Outcome t :=
  match currentLevelIndex this with
  | Some level =>
      if canLoad this then
        match _levels this with
        | None => Thrown "Levels are not set"
        | Some levels =>
            match array_get levels level with
            | Some levelObject =>
                if (0 <? length (url levelObject))%nat then
                  let id := urlId levelObject in
                  let url := array_get (url levelObject) id in
                  Returned (trigger (LEVEL_LOADING url level id) this)
                else Returned this
            | None => Returned this
            end
        end
      else Returned this
  | None => Returned this
  end.

Definition startLoad (this : t) : Outcome t :=
  let this := set_levelRetryCount 0 (set_canLoad true this) in
  let reset (level : Level) : Level :=
    let level := set_loadError 0 level in
    match details level with
    | Some levelDetails =>
        if LevelDetails.live levelDetails then set_details None level else level
    | None => level
    end in
  let this := set__levels (List.map reset <$> _levels this) this in
  match timer this with
  | Some _ => loadLevel this
  | None => Returned this
  end.

Definition stopLoad (this : t) : t := clearTimer (set_canLoad false this).

(** ** Manifest admission *)

Record Grouping := {
  g_levels : list Level;
  g_levelSet : gmap Z nat;       (* bitrate -> the level object, by index *)
  g_videoCodecFound : bool;
  g_audioCodecFound : bool
}.

Inductive CodecType := audio_codec | video_codec.

Section Manifest.

(** [/chrome|firefox/.test (navigator.userAgent)] and the predicate of
    utils/codecs. *)
Variable chromeOrFirefox : bool.
Variable isCodecSupportedInMp4 : string -> CodecType -> bool.

(** The body of [data.levels.forEach]. *)
Definition regroup (g : Grouping) (levelParsed : LevelParsed) : Grouping :=
  let attributes := lp_attrs levelParsed in
  let videoCodecFound :=
    g_videoCodecFound g || truthy (lp_videoCodec levelParsed) in
  let audioCodecFound :=
    g_audioCodecFound g || truthy (lp_audioCodec levelParsed) in
  let levelParsed :=
    if chromeOrFirefox && truthy (lp_audioCodec levelParsed)
       && includes "mp4a.40.34" (default ""%string (lp_audioCodec levelParsed))
    then {| lp_attrs := lp_attrs levelParsed; lp_audioCodec := None;
            lp_videoCodec := lp_videoCodec levelParsed;
            lp_bitrate := lp_bitrate levelParsed;
            lp_url := lp_url levelParsed |}
    else levelParsed in
  let '(levelFromSet, levels, levelSet) :=
    match g_levelSet g !! lp_bitrate levelParsed with
    | None =>
        let i := length (g_levels g) in
        (i, g_levels g ++ [new_Level levelParsed],
         <[lp_bitrate levelParsed := i]> (g_levelSet g))
    | Some i =>
        (i, alter (fun l => set_url (url l ++ [lp_url levelParsed]) l) i (g_levels g),
         g_levelSet g)
    end in
  let '(audioCodecFound, levels) :=
    match attributes with
    | Some attributes =>
        let '(audioCodecFound, levels) :=
          match AUDIO attributes with
          | Some id =>
              if truthy (Some id)
              then (true, alter (fun l => addGroupId l audio_group id) levelFromSet levels)
              else (audioCodecFound, levels)
          | None => (audioCodecFound, levels)
          end in
        match SUBTITLES attributes with
        | Some id =>
            if truthy (Some id)
            then (audioCodecFound,
                  alter (fun l => addGroupId l text_group id) levelFromSet levels)
            else (audioCodecFound, levels)
        | None => (audioCodecFound, levels)
        end
    | None => (audioCodecFound, levels)
    end in
  {| g_levels := levels; g_levelSet := levelSet;
     g_videoCodecFound := videoCodecFound;
     g_audioCodecFound := audioCodecFound |}.

Definition regroup_all (parsed : list LevelParsed) : Grouping :=
  fold_left regroup parsed
    {| g_levels := []; g_levelSet := ∅;
       g_videoCodecFound := false; g_audioCodecFound := false |}.

(** [!codec || isCodecSupportedInMp4 (codec, type)] *)
Definition codec_supported (codec : option string) (type : CodecType) : bool :=
  match codec with
  | Some c => negb (truthy codec) || isCodecSupportedInMp4 c type
  | None => true
  end.

Definition level_supported (l : Level) : bool :=
  codec_supported (audioCodec l) audio_codec
  && codec_supported (videoCodec l) video_codec.

(** The levels that survive the two filters, in manifest order. *)
Definition surviving_levels (g : Grouping) : list Level :=
  let levels := g_levels g in
  let levels :=
    if g_videoCodecFound g && g_audioCodecFound g
    then List.filter (fun l => truthy (videoCodec l)) levels
    else levels in
  List.filter level_supported levels.

(** [levels.sort ((a, b) => a.bitrate - b.bitrate)] *)
Definition bitrate_le (a b : Level) : Prop := bitrate a <= bitrate b.

#[export] Instance bitrate_le_dec a b : Decision (bitrate_le a b) :=
  Z_le_dec (bitrate a) (bitrate b).

Definition sort_by_bitrate (levels : list Level) : list Level :=
  merge_sort bitrate_le levels.

(** The loop that looks for the start bitrate in the sorted levels. *)
Fixpoint find_bitrate (levels : list Level) (bitrateStart : Z) (i : Z)
  : option Z :=
  match levels with
  | [] => None
  | l :: rest =>
      if bitrate l =? bitrateStart then Some i
      else find_bitrate rest bitrateStart (i + 1)
  end.

Definition supported_audioTracks (tracks : list MediaPlaylist) : list MediaPlaylist :=
  imap (fun index track =>
          {| mp_id := Z.of_nat index; mp_groupId := mp_groupId track;
             mp_audioCodec := mp_audioCodec track; mp_url := mp_url track |})
       (List.filter (fun track => codec_supported (mp_audioCodec track) audio_codec)
          tracks).

Definition onManifestLoaded (data : ManifestLoadedData) (this : t) : t :=
  let g := regroup_all (ml_levels data) in
  let levels := surviving_levels g in
  let audioTracks :=
    match ml_audioTracks data with
    | Some tracks => supported_audioTracks tracks
    | None => []
    end in
  match levels with
  | first :: _ =>
      let bitrateStart := bitrate first in
      let levels := sort_by_bitrate levels in
      let this := set__levels (Some levels) this in
      let this :=
        match find_bitrate levels bitrateStart 0 with
        | Some i => set__firstLevel i this
        | None => this
        end in
      let this :=
        trigger (MANIFEST_PARSED
                   {| mp_levels := levels;
                      mp_audioTracks := audioTracks;
                      mp_firstLevel := _firstLevel this;
                      mp_stats := ml_stats data;
                      mp_audio := g_audioCodecFound g;
                      mp_video := g_videoCodecFound g;
                      mp_altAudio :=
                        existsb (fun t => truthy (mp_url t)) audioTracks |})
                this in
      trigger PARSED_COMPLETE this
  | [] =>
      trigger (ERROR
                 {| err_type := MEDIA_ERROR;
                    err_details := MANIFEST_INCOMPATIBLE_CODECS_ERROR;
                    fatal := true;
                    err_frag := None; err_context_level := None;
                    err_level := None; levelRetry := None;
                    err_url := Some (ml_url data);
                    err_reason :=
                      Some "no level with compatible codecs found in manifest"%string |})
              this
  end.

End Manifest.

(** ** Error recovery *)

(** The redundant-URL escalation and the rendition switch at the end of
  [recoverLevel]; [level] is the failing level as it stands now. *)
Definition escalate (levelIndex : Z) (levels : list Level) (level : Level)
    (fragmentError : bool) (this : t) : t :=
  let redundantLevels := Z.of_nat (length (url level)) in
  if (1 <? redundantLevels) && (loadError level <? redundantLevels) then
    update_level levelIndex
      (fun l => set_details None
                  (set_urlId (Z.rem (urlId l + 1) redundantLevels) l))
      this
  else if manualLevelIndex this =? -1 then
    let nextLevel :=
      if levelIndex =? 0 then Z.of_nat (length levels) - 1 else levelIndex - 1 in
    set_nextAutoLevel nextLevel (set_currentLevelIndex (Some nextLevel) this)
  else if fragmentError then
    set_currentLevelIndex None this
  else this.

Definition recoverLevel (errorEvent : ErrorData) (levelIndex : Z)
    (levelError fragmentError : bool) (this : t) : Outcome (t * ErrorData) :=
  match _levels this with
  | None => Thrown "Levels are not set"
  | Some levels =>
      match array_get levels levelIndex with
      | None => Thrown "TypeError: level is undefined"
      | Some level =>
          let level :=
            set_fragmentError fragmentError
              (set_loadError (loadError level + 1) level) in
          let this := update_level levelIndex (fun _ => level) this in
          let cfg := config this in
          let redundancy (this : t) (errorEvent : ErrorData) :=
            if levelError || fragmentError
            then Returned (escalate levelIndex levels level fragmentError this,
                           errorEvent)
            else Returned (this, errorEvent) in
          if levelError then
            if levelRetryCount this + 1 <=? levelLoadingMaxRetry cfg then
              let delay :=
                Z.min (2 ^ levelRetryCount this * levelLoadingRetryDelay cfg)
                      (levelLoadingMaxRetryTimeout cfg) in
              let this := arm_timer LoadLevel delay this in
              let errorEvent := set_levelRetry (Some true) errorEvent in
              let this := set_levelRetryCount (levelRetryCount this + 1) this in
              redundancy this errorEvent
            else
              let this := set_currentLevelIndex None this in
              let this := clearTimer this in
              Returned (this, set_fatal true errorEvent)
          else redundancy this errorEvent
      end
  end.

Definition onError (data : ErrorData) (this : t) : Outcome (t * ErrorData) :=
  if fatal data then
    match err_type data with
    | NETWORK_ERROR => Returned (clearTimer this, data)
    | _ => Returned (this, data)
    end
  else
    match err_details data with
    | FRAG_LOAD_ERROR | FRAG_LOAD_TIMEOUT | KEY_LOAD_ERROR | KEY_LOAD_TIMEOUT =>
        match err_frag data with
        | Some frag => recoverLevel data (LevelDetails.level frag) false true this
        | None => Thrown "TypeError: data.frag is undefined"
        end
    | LEVEL_LOAD_ERROR | LEVEL_LOAD_TIMEOUT =>
        match err_context_level data with
        | Some levelIndex => recoverLevel data levelIndex true false this
        | None => Returned (this, data)
        end
    | REMUX_ALLOC_ERROR =>
        match err_level data with
        | Some levelIndex => recoverLevel data levelIndex true false this
        | None => Returned (this, data)
        end
    | _ => Returned (this, data)
    end.

Definition onFragLoaded (frag : option LevelDetails.Fragment) (this : t)
  : Outcome t :=
  match frag with
  | Some frag =>
      match LevelDetails.type frag with
      | LevelDetails.main =>
          match _levels this with
          | None => Thrown "Levels are not set"
          | Some levels =>
              match array_get levels (LevelDetails.level frag) with
              | Some _ =>
                  let this :=
                    update_level (LevelDetails.level frag)
                      (fun l => set_loadError 0 (set_fragmentError false l)) this in
                  Returned (set_levelRetryCount 0 this)
              | None => Returned this
              end
          end
      | _ => Returned this
      end
  | None => Returned this
  end.

(** ** Live reload and low-latency reload *)

(** [partTarget] is a number or [undefined]; 0 is falsy. *)
Definition partTarget_truthy (p : option Z) : bool :=
  match p with
  | Some v => negb (v =? 0)
  | None => false
  end.

Definition set_updated (v : bool) (availability : option Z)
    (d : LevelDetails.t) : LevelDetails.t :=
  {| LevelDetails.availabilityDelay := availability;
     LevelDetails.endCC := LevelDetails.endCC d;
     LevelDetails.endSN := LevelDetails.endSN d;
     LevelDetails.endPart := LevelDetails.endPart d;
     LevelDetails.fragments := LevelDetails.fragments d;
     LevelDetails.live := LevelDetails.live d;
     LevelDetails.startCC := LevelDetails.startCC d;
     LevelDetails.startSN := LevelDetails.startSN d;
     LevelDetails.targetduration := LevelDetails.targetduration d;
     LevelDetails.totalduration := LevelDetails.totalduration d;
     LevelDetails.updated := Some v;
     LevelDetails.url := LevelDetails.url d;
     LevelDetails.serverControl := LevelDetails.serverControl d;
     LevelDetails.partTarget := LevelDetails.partTarget d;
     LevelDetails.skipped := LevelDetails.skipped d;
     LevelDetails.push := LevelDetails.push d |}.

Definition loadLowLatencyLevel (details : LevelDetails.t) (level id : Z)
    (this : t) : Outcome t :=
  if canLoad this then
    match LevelDetails.serverControl details with
    | None => Thrown "Low-latency HLS requires SERVER-CONTROL details"
    | Some serverControl =>
        let requestUrl := JS.before_question_mark (LevelDetails.url details) in
        let this :=
          set_currentSn
            (if currentSn this =? -1 then LevelDetails.endSN details
             else currentSn this) this in
        let this :=
          set_currentPart (if currentPart this =? -1 then 0 else currentPart this)
            this in
        let msn := currentSn this in
        let '(msn, this) :=
          match LevelDetails.updated details with
          | Some true => (msn + 1, set_currentSn (msn + 1) this)
          | _ => (msn, this)
          end in
        let requestUrl := (requestUrl ++ "?_HLS_msn=" ++ pretty msn)%string in
        Returned (trigger (LEVEL_LOADING (Some requestUrl) level id) this)
    end
  else Returned this.

(** [!curDetails || details.endSN !== curDetails.endSN] *)
Definition endSN_changed (curDetails : option LevelDetails.t)
    (details : LevelDetails.t) : bool :=
  match curDetails with
  | None => true
  | Some cur => negb (LevelDetails.endSN details =? LevelDetails.endSN cur)
  end.

(** [!curDetails || details.url !== curDetails.url] *)
Definition url_changed (curDetails : option LevelDetails.t)
    (details : LevelDetails.t) : bool :=
  match curDetails with
  | None => true
  | Some cur => negb (String.eqb (LevelDetails.url details) (LevelDetails.url cur))
  end.

Section Reload.

(** [computeReloadInterval] of controller/level-helper. *)
Variable computeReloadInterval : LevelDetails.t -> LoaderStats -> Z.

Definition onLevelLoaded (data : LevelLoadedData) (this : t) : Outcome t :=
  let level := ll_level data in
  if bool_decide (Some level = currentLevelIndex this) then
    match _levels this with
    | None => Thrown "Levels are not set"
    | Some levels =>
        match array_get levels level with
        | None => Thrown "TypeError: curLevel is undefined"
        | Some curLevel =>
            let curDetails := details curLevel in
            let details := ll_details data in
            let this :=
              if negb (fragmentError curLevel)
              then set_levelRetryCount 0
                     (update_level level (set_loadError 0) this)
              else this in
            if LevelDetails.live details then
              let availability :=
                curDetails ≫= LevelDetails.availabilityDelay in
              let standard (details : LevelDetails.t) :=
                let reloadInterval :=
                  computeReloadInterval details (ll_stats data) in
                Returned (arm_timer LoadLevel reloadInterval this) in
              (* [serverControl && partTarget] *)
              let lowLatency :=
                match LevelDetails.serverControl details with
                | Some serverControl =>
                    if partTarget_truthy (LevelDetails.partTarget details)
                    then Some serverControl else None
                | None => None
                end in
              match lowLatency with
              | Some serverControl =>
                  let details :=
                    set_updated (endSN_changed curDetails details) availability
                      details in
                  if LevelDetails.canBlock serverControl then
                    let reloadInterval :=
                      Z.max (computeReloadInterval details (ll_stats data) - 100)
                            100 in
                    Returned
                      (arm_timer
                         (LoadLowLatencyLevel details level (ll_id data))
                         reloadInterval this)
                  else standard details
              | None =>
                  standard
                    (set_updated
                       (endSN_changed curDetails details
                        || url_changed curDetails details)
                       availability details)
              end
            else Returned (clearTimer this)
        end
    end
  else Returned this.

End Reload.

(** A pending timeout fires: it leaves the host's list and its task runs.
  The controller's [timer] field keeps the handle. *)
Definition fire (h : nat) (this : t) : Outcome t :=
  match List.find (fun t => Nat.eqb (handle t) h) (timeouts this) with
  | None => Returned this
  | Some timeout =>
      let this :=
        {| _levels := _levels this; _firstLevel := _firstLevel this;
           canLoad := canLoad this;
           currentLevelIndex := currentLevelIndex this;
           levelRetryCount := levelRetryCount this;
           manualLevelIndex := manualLevelIndex this; timer := timer this;
           currentSn := currentSn this; currentPart := currentPart this;
           config := config this; nextAutoLevel := nextAutoLevel this;
           audioTracks := audioTracks this;
           timeouts := filter (fun t => handle t <> h) (timeouts this);
           next_handle := next_handle this; triggered := triggered this |} in
      match task timeout with
      | LoadLevel => loadLevel this
      | LoadLowLatencyLevel details level id =>
          loadLowLatencyLevel details level id this
      end
  end.

(** ** Audio track re-binding *)

(** The loop over [currentLevel.audioGroupIds]: the first index holding
  [audioGroupId], or the initial -1. *)
Fixpoint find_groupId (ids : list string) (audioGroupId : option string)
    (i : Z) : Z :=
  match ids with
  | [] => -1
  | id :: rest =>
      if bool_decide (Some id = audioGroupId) then i
      else find_groupId rest audioGroupId (i + 1)
  end.

Definition onAudioTrackSwitched (data_id : Z) (this : t) : Outcome t :=
  match array_get (audioTracks this) data_id with
  | None => Thrown "TypeError: audio track is undefined"
  | Some track =>
      let audioGroupId := mp_groupId track in
      match _levels this with
      | None => Thrown "TypeError: hls.levels is null"
      | Some levels =>
          match currentLevelIndex this ≫= array_get levels with
          | None => Returned this
          | Some currentLevel =>
              match audioGroupIds currentLevel with
              | Some ids =>
                  let urlId := find_groupId ids audioGroupId 0 in
                  if negb (urlId =? LevelController.urlId currentLevel) then
                    let this :=
                      update_level (default 0 (currentLevelIndex this))
                        (set_urlId urlId) this in
                    startLoad this
                  else Returned this
              | None => Returned this
              end
          end
      end
  end.

(** ** Level removal *)

(** [arr.filter (callback)] where the callback sees the element and its
    index and may replace the element it keeps ([None] drops it); [index] is
    the index of the head of [arr]. *)
Fixpoint filter_from {A : Type} (callback : Z -> A -> option A) (index : Z)
    (arr : list A) : list A :=
  match arr with
  | [] => []
  | x :: rest =>
      match callback index x with
      | Some x' => x' :: filter_from callback (index + 1) rest
      | None => filter_from callback (index + 1) rest
      end
  end.

(** [arr.filter ((x, id) => id !== urlId)] *)
Definition remove_index {A : Type} (urlId : Z) (arr : list A) : list A :=
  filter_from (fun id x => if id =? urlId then None else Some x) 0 arr.

Definition set_fragment_level (index : Z) (f : LevelDetails.Fragment)
  : LevelDetails.Fragment :=
  {| LevelDetails.sn := LevelDetails.sn f;
     LevelDetails.cc := LevelDetails.cc f;
     LevelDetails.level := index;
     LevelDetails.type := LevelDetails.type f;
     LevelDetails.start := LevelDetails.start f;
     LevelDetails.decryptdata := LevelDetails.decryptdata f |}.

Definition reindex_fragments (index : Z) (d : LevelDetails.t) : LevelDetails.t :=
  {| LevelDetails.availabilityDelay := LevelDetails.availabilityDelay d;
     LevelDetails.endCC := LevelDetails.endCC d;
     LevelDetails.endSN := LevelDetails.endSN d;
     LevelDetails.endPart := LevelDetails.endPart d;
     LevelDetails.fragments :=
       List.map (set_fragment_level index) (LevelDetails.fragments d);
     LevelDetails.live := LevelDetails.live d;
     LevelDetails.startCC := LevelDetails.startCC d;
     LevelDetails.startSN := LevelDetails.startSN d;
     LevelDetails.targetduration := LevelDetails.targetduration d;
     LevelDetails.totalduration := LevelDetails.totalduration d;
     LevelDetails.updated := LevelDetails.updated d;
     LevelDetails.url := LevelDetails.url d;
     LevelDetails.serverControl := LevelDetails.serverControl d;
     LevelDetails.partTarget := LevelDetails.partTarget d;
     LevelDetails.skipped := LevelDetails.skipped d;
     LevelDetails.push := LevelDetails.push d |}.

(** The callback of [this._levels.filter]: [None] drops the level. *)
Definition keep_level (levelIndex : Z) (urlId : option Z) (index : Z)
    (level : Level) : option Level :=
  if negb (index =? levelIndex) then Some level
  else
    match urlId with
    | Some urlId =>
        if (1 <? length (url level))%nat
        then Some (set_urlId 0 (set_url (remove_index urlId (url level)) level))
        else None
    | None => None
    end.

Definition removeLevel (levelIndex : Z) (urlId : option Z) (this : t) : Outcome t :=
  match _levels this with
  | None => Thrown "Levels are not set"
  | Some levels =>
      let levels := filter_from (keep_level levelIndex urlId) 0 levels in
      let levels :=
        imap (fun index level =>
                set_details (reindex_fragments (Z.of_nat index) <$> details level)
                  level)
             levels in
      let this := set__levels (Some levels) this in
      Returned (trigger (LEVELS_UPDATED levels) this)
  end.

(** The invariant of the data model on one level. *)
Definition urlId_in_range (l : Level) : Prop :=
  0 <= urlId l < Z.of_nat (length (url l)).

(** The grouping's dictionary names every grouped level by its bitrate. *)
Definition grouped (levels : list Level) (levelSet : gmap Z nat) : Prop :=
  forall (i : nat) (l : Level),
    levels !! i = Some l -> levelSet !! bitrate l = Some i.

Definition bitrate_lt (a b : Level) : Prop := bitrate a < bitrate b.

Definition retry_config : Config :=
  {| levelLoadingMaxRetry := 3;
     levelLoadingRetryDelay := 1000;
     levelLoadingMaxRetryTimeout := 8000;
     startLevel := None |}.

(** ** A manifest that lists an audio-only variant first *)

Definition audio_only_first : ManifestLoadedData :=
  {| ml_levels :=
       [ {| lp_attrs := None; lp_audioCodec := Some "mp4a.40.2"%string;
            lp_videoCodec := None; lp_bitrate := 64000;
            lp_url := "https://example.com/audio.m3u8"%string |};
         {| lp_attrs := None; lp_audioCodec := Some "mp4a.40.2"%string;
            lp_videoCodec := Some "avc1.64001f"%string; lp_bitrate := 1500000;
            lp_url := "https://example.com/hi.m3u8"%string |};
         {| lp_attrs := None; lp_audioCodec := Some "mp4a.40.2"%string;
            lp_videoCodec := Some "avc1.42e01e"%string; lp_bitrate := 800000;
            lp_url := "https://example.com/lo.m3u8"%string |} ];
     ml_audioTracks := None;
     ml_url := "https://example.com/master.m3u8"%string;
     ml_stats := {| trequest := 0; tfirst := 20; tload := 35 |} |}.

Definition every_codec_supported (codec : string) (type : CodecType) : bool := true.

Definition after_audio_only_first : t :=
  onManifestLoaded false every_codec_supported audio_only_first
    (constructor retry_config).

(** ** Two variants bound to different audio groups *)

Definition aac_level : Level :=
  {| attrs := Some {| AUDIO := Some "aac"%string; SUBTITLES := None |};
     audioCodec := Some "mp4a.40.2"%string;
     videoCodec := Some "avc1.64001f"%string;
     bitrate := 1500000;
     url := ["https://example.com/hi.m3u8"%string];
     urlId := 0;
     audioGroupIds := Some ["aac"%string];
     textGroupIds := None;
     details := None;
     loadError := 0;
     fragmentError := false |}.

Definition ac3_level : Level :=
  {| attrs := Some {| AUDIO := Some "ac3"%string; SUBTITLES := None |};
     audioCodec := Some "ac-3"%string;
     videoCodec := Some "avc1.64001f"%string;
     bitrate := 1600000;
     url := ["https://example.com/hi-ac3.m3u8"%string];
     urlId := 0;
     audioGroupIds := Some ["ac3"%string];
     textGroupIds := None;
     details := None;
     loadError := 0;
     fragmentError := false |}.

(** The two levels are loaded, the first one is current, and
    [hls.audioTracks] holds one track per audio group. *)
Definition playing_aac_level : t :=
  {| _levels := Some [aac_level; ac3_level]; _firstLevel := 0;
     canLoad := true; currentLevelIndex := Some 0;
     levelRetryCount := 0; manualLevelIndex := -1; timer := None;
     currentSn := -1; currentPart := -1;
     config := retry_config; nextAutoLevel := -1;
     audioTracks :=
       [ {| mp_id := 0; mp_groupId := Some "aac"%string;
            mp_audioCodec := Some "mp4a.40.2"%string;
            mp_url := Some "https://example.com/aac.m3u8"%string |};
         {| mp_id := 1; mp_groupId := Some "ac3"%string;
            mp_audioCodec := Some "ac-3"%string;
            mp_url := Some "https://example.com/ac3.m3u8"%string |} ];
     timeouts := []; next_handle := 1; triggered := [] |}.

(** The user picks the audio track of the other group. *)
Definition after_switch_to_ac3 : Outcome t :=
  onAudioTrackSwitched 1 playing_aac_level.

Definition levels_of (o : Outcome t) : list Level :=
  match o with
  | Returned this => default [] (_levels this)
  | Thrown _ => []
  end.

(** ** Scenario S3: one rendition whose playlist keeps timing out *)

Definition single_level : Level :=
  {| attrs := None;
     audioCodec := None;
     videoCodec := Some "avc1.42e01e"%string;
     bitrate := 1500000;
     url := ["https://example.com/hi.m3u8"%string];
     urlId := 0;
     audioGroupIds := None;
     textGroupIds := None;
     details := None;
     loadError := 0;
     fragmentError := false |}.

Definition playing_single_level : t :=
  set_canLoad true
    (set_currentLevelIndex (Some 0)
       (set__levels (Some [single_level]) (constructor retry_config))).

Definition level_load_timeout : ErrorData :=
  {| err_type := NETWORK_ERROR; err_details := LEVEL_LOAD_TIMEOUT;
     fatal := false; err_frag := None; err_context_level := Some 0;
     err_level := None; levelRetry := None; err_url := None;
     err_reason := None |}.

(** [n] consecutive [LEVEL_LOAD_TIMEOUT] events (a fresh event object each
    time), with the events as the handler left them. *)
Fixpoint after_timeouts (n : nat) (this : t) : Outcome (t * list ErrorData) :=
  match n with
  | O => Returned (this, [])
  | S n' =>
      match onError level_load_timeout this with
      | Returned (this', e) =>
          match after_timeouts n' this' with
          | Returned (this'', es) => Returned (this'', e :: es)
          | Thrown m => Thrown m
          end
      | Thrown m => Thrown m
      end
  end.

(** ** Scenario S7: a low-latency playlist ending at sequence number 42 *)

Definition blocking_details : LevelDetails.t :=
  {| LevelDetails.availabilityDelay := None;
     LevelDetails.endCC := 0;
     LevelDetails.endSN := 42;
     LevelDetails.endPart := 3;
     LevelDetails.fragments := [];
     LevelDetails.live := true;
     LevelDetails.startCC := 0;
     LevelDetails.startSN := 30;
     LevelDetails.targetduration := 4;
     LevelDetails.totalduration := 52;
     LevelDetails.updated := None;
     LevelDetails.url := "https://example.com/live/hi.m3u8?token=abc"%string;
     LevelDetails.serverControl :=
       Some {| LevelDetails.canBlock := true; LevelDetails.canSkipUntil := 0;
               LevelDetails.holdBack := 12; LevelDetails.partHoldBack := 3 |};
     LevelDetails.partTarget := Some 1;
     LevelDetails.skipped := 0;
     LevelDetails.push := None |}.


(** A reload interval for the scenario: the target duration, in ms. *)
Definition targetduration_ms (details : LevelDetails.t) (stats : LoaderStats) : Z :=
  1000 * LevelDetails.targetduration details.


(** ** Level selection *)

(** The setter [set level (newLevel)]. *)
Definition set_level (newLevel : Z) (this : t) : Outcome t :=
  match _levels this with
  | Some levels =>
      let newLevel := Z.min newLevel (Z.of_nat (length levels) - 1) in
      let same := bool_decide (currentLevelIndex this = Some newLevel) in
      (* [this.currentLevelIndex !== newLevel || !levels[newLevel].details] *)
      enter ←
        (if negb same then Returned true
         else match array_get levels newLevel with
              | Some level => Returned (bool_decide (details level = None))
              | None => Thrown "TypeError: levels[newLevel] is undefined"
              end);
      if enter : bool then
        match array_get levels newLevel with
        | Some level =>
            (* [newLevel >= 0 && newLevel < levels.length] *)
            let this := clearTimer this in
            let this :=
              if negb same
              then trigger (LEVEL_SWITCHING newLevel)
                     (set_currentLevelIndex (Some newLevel) this)
              else this in
            let load :=
              match details level with
              | None => true
              | Some levelDetails => LevelDetails.live levelDetails
              end in
            if load then
              let urlId := urlId level in
              Returned
                (trigger (LEVEL_LOADING (array_get (url level) urlId) newLevel urlId)
                   this)
            else Returned this
        | None =>
            Returned
              (trigger
                 (ERROR {| err_type := OTHER_ERROR;
                           err_details := LEVEL_SWITCH_ERROR;
                           fatal := false;
                           err_frag := None; err_context_level := None;
                           err_level := Some newLevel; levelRetry := None;
                           err_url := None;
                           err_reason := Some "invalid level idx"%string |})
                 this)
        end
      else Returned this
  | None => Returned this
  end.

Definition set_manualLevelIndex (v : Z) (c : t) : t :=
  {| _levels := _levels c; _firstLevel := _firstLevel c; canLoad := canLoad c;
     currentLevelIndex := currentLevelIndex c; levelRetryCount := levelRetryCount c;
     manualLevelIndex := v; timer := timer c;
     currentSn := currentSn c; currentPart := currentPart c; config := config c;
     nextAutoLevel := nextAutoLevel c; audioTracks := audioTracks c;
     timeouts := timeouts c; next_handle := next_handle c; triggered := triggered c |}.

(** The setter [set manualLevel (newLevel)], on the fields kept here (it
    also records the first value as the start level). *)
Definition set_manualLevel (newLevel : Z) (this : t) : Outcome t :=
  let this := set_manualLevelIndex newLevel this in
  if negb (newLevel =? -1) then set_level newLevel this else Returned this.

(** The setter [set nextLoadLevel (nextLevel)]. *)
Definition set_nextLoadLevel (nextLevel : Z) (this : t) : Outcome t :=
  this ← set_level nextLevel this;
  if manualLevelIndex this =? -1
  then Returned (set_nextAutoLevel nextLevel this)
  else Returned this.

Definition onHandlerDestroying (this : t) : t :=
  set_manualLevelIndex (-1) (clearTimer this).

(** ** The controller as a whole *)

(** What the controller takes from other modules. *)
Record Env := {
  env_chromeOrFirefox : bool;
  env_isCodecSupportedInMp4 : string -> CodecType -> bool;
  env_computeReloadInterval : LevelDetails.t -> LoaderStats -> Z
}.

(** Everything that can happen to a controller: the events it listens to,
    its public methods, a timeout that fires, and the writes of other
    components to what it shares with them ([hls.nextAutoLevel],
    [hls.audioTracks], and the playlist the stream controller installs on a
    level). *)
Inductive Input :=
| IN_MANIFEST_LOADED (data : ManifestLoadedData)
| IN_LEVEL_LOADED (data : LevelLoadedData)
| IN_AUDIO_TRACK_SWITCHED (id : Z)
| IN_FRAG_LOADED (frag : option LevelDetails.Fragment)
| IN_ERROR (data : ErrorData)
| IN_START_LOAD
| IN_STOP_LOAD
| IN_SET_LEVEL (newLevel : Z)
| IN_SET_MANUAL_LEVEL (newLevel : Z)
| IN_SET_NEXT_LOAD_LEVEL (nextLevel : Z)
| IN_SET_FIRST_LEVEL (newLevel : Z)
| IN_REMOVE_LEVEL (levelIndex : Z) (urlId : option Z)
| IN_DESTROY
| IN_TIMEOUT (h : nat)
| ENV_NEXT_AUTO_LEVEL (level : Z)
| ENV_AUDIO_TRACKS (tracks : list MediaPlaylist)
| ENV_LEVEL_DETAILS (levelIndex : Z) (d : LevelDetails.t).

Definition set_audioTracks (v : list MediaPlaylist) (c : t) : t :=
  {| _levels := _levels c; _firstLevel := _firstLevel c; canLoad := canLoad c;
     currentLevelIndex := currentLevelIndex c; levelRetryCount := levelRetryCount c;
     manualLevelIndex := manualLevelIndex c; timer := timer c;
     currentSn := currentSn c; currentPart := currentPart c; config := config c;
     nextAutoLevel := nextAutoLevel c; audioTracks := v;
     timeouts := timeouts c; next_handle := next_handle c; triggered := triggered c |}.

Definition dispatch (env : Env) (input : Input) (this : t) : Outcome t :=
  match input with
  | IN_MANIFEST_LOADED data =>
      Returned (onManifestLoaded (env_chromeOrFirefox env)
                  (env_isCodecSupportedInMp4 env) data this)
  | IN_LEVEL_LOADED data => onLevelLoaded (env_computeReloadInterval env) data this
  | IN_AUDIO_TRACK_SWITCHED id => onAudioTrackSwitched id this
  | IN_FRAG_LOADED frag => onFragLoaded frag this
  | IN_ERROR data => r ← onError data this; Returned r.1
  | IN_START_LOAD => startLoad this
  | IN_STOP_LOAD => Returned (stopLoad this)
  | IN_SET_LEVEL newLevel => set_level newLevel this
  | IN_SET_MANUAL_LEVEL newLevel => set_manualLevel newLevel this
  | IN_SET_NEXT_LOAD_LEVEL nextLevel => set_nextLoadLevel nextLevel this
  | IN_SET_FIRST_LEVEL newLevel => Returned (set__firstLevel newLevel this)
  | IN_REMOVE_LEVEL levelIndex urlId => removeLevel levelIndex urlId this
  | IN_DESTROY => Returned (onHandlerDestroying this)
  | IN_TIMEOUT h => fire h this
  | ENV_NEXT_AUTO_LEVEL level => Returned (set_nextAutoLevel level this)
  | ENV_AUDIO_TRACKS tracks => Returned (set_audioTracks tracks this)
  | ENV_LEVEL_DETAILS levelIndex d =>
      Returned (update_level levelIndex (set_details (Some d)) this)
  end.

(** The states of a controller built with [cfg]: as constructed, and after
    each input it handled without throwing. *)
Inductive reachable (env : Env) (cfg : Config) : t -> Prop :=
| reach_new : reachable env cfg (constructor cfg)
| reach_step (input : Input) (this this' : t) :
    reachable env cfg this ->
    dispatch env input this = Returned this' ->
    reachable env cfg this'.


(** The retry counter stays between 0 and the configured number of
    retries, and the configuration is the one given at construction. *)
Definition retry_bounded (cfg : Config) (this : t) : Prop :=
  config this = cfg /\
  0 <= levelRetryCount this <= Z.max 0 (levelLoadingMaxRetry cfg).

(** ** Scenario: three renditions with loaded VOD playlists *)

Definition vod_fragment (sn level : Z) : LevelDetails.Fragment :=
  {| LevelDetails.sn := sn; LevelDetails.cc := 0%nat;
     LevelDetails.level := level; LevelDetails.type := LevelDetails.main;
     LevelDetails.start := 0%Q; LevelDetails.decryptdata := None |}.

Definition vod_details (level : Z) : LevelDetails.t :=
  {| LevelDetails.availabilityDelay := None;
     LevelDetails.endCC := 0;
     LevelDetails.endSN := 1;
     LevelDetails.endPart := 0;
     LevelDetails.fragments := [vod_fragment 0 level; vod_fragment 1 level];
     LevelDetails.live := false;
     LevelDetails.startCC := 0;
     LevelDetails.startSN := 0;
     LevelDetails.targetduration := 4;
     LevelDetails.totalduration := 8;
     LevelDetails.updated := None;
     LevelDetails.url := "https://example.com/vod.m3u8"%string;
     LevelDetails.serverControl := None;
     LevelDetails.partTarget := None;
     LevelDetails.skipped := 0;
     LevelDetails.push := None |}.

Definition vod_level (bitrate : Z) (urls : list string) (level : Z) : Level :=
  {| attrs := None; audioCodec := None; videoCodec := None;
     bitrate := bitrate; url := urls; urlId := 0;
     audioGroupIds := None; textGroupIds := None;
     details := Some (vod_details level);
     loadError := 0; fragmentError := false |}.

Definition three_levels : list Level :=
  [ vod_level 300000 ["lo.m3u8"; "lo-backup.m3u8"]%string 0;
    vod_level 800000 ["mid.m3u8"]%string 1;
    vod_level 1500000 ["hi.m3u8"; "hi-backup.m3u8"]%string 2 ].

Definition playing_three_levels : t :=
  set_canLoad true
    (set_currentLevelIndex (Some 1)
       (set__levels (Some three_levels) (constructor retry_config))).

(** What a level is to a listener of [LEVELS_UPDATED] that picks a
    rendition: its bitrate, its URLs and the URL in use. *)
Definition rendition (l : Level) : Z * list string * Z :=
  (bitrate l, url l, urlId l).

(** What the grouping loop has built once it has gone through the
    manifest entries [processed]: the dictionary and the level array name
    each other, every processed entry has its bitrate in the dictionary,
    and a level's URLs are those of the processed entries of its bitrate,
    in their order. *)
Definition grouping_of (processed : list LevelParsed) (g : Grouping) : Prop :=
  grouped (g_levels g) (g_levelSet g) /\
  (forall b i, g_levelSet g !! b = Some i ->
     exists l, g_levels g !! i = Some l /\ bitrate l = b) /\
  (forall p, p ∈ processed -> is_Some (g_levelSet g !! lp_bitrate p)) /\
  (forall i l, g_levels g !! i = Some l ->
     url l = lp_url <$> filter (fun p => lp_bitrate p = bitrate l) processed).

(** Pending timeouts fire one after the other. *)
Fixpoint fire_all (hs : list nat) (this : t) : Outcome t :=
  match hs with
  | [] => Returned this
  | h :: rest => this' ← fire h this; fire_all rest this'
  end.

(** [n] fragment errors in a row on the level [levelIndex], each handled
    by [recoverLevel]. *)
Fixpoint fragment_errors (n : nat) (errorEvent : ErrorData) (levelIndex : Z)
    (this : t) : Outcome t :=
  match n with
  | O => Returned this
  | S n' =>
      r ← recoverLevel errorEvent levelIndex false true this;
      fragment_errors n' errorEvent levelIndex r.1
  end.

(** The level at [levelIndex], if the levels are set and it exists. *)
Definition level_at (levelIndex : Z) (this : t) : option Level :=
  levels ← _levels this; array_get levels levelIndex.

(** The low-latency playlist of scenario S7 as the server returns it
    for the request that asked for sequence number 43. *)
Definition echoed_details : LevelDetails.t :=
  {| LevelDetails.availabilityDelay := None;
     LevelDetails.endCC := 0;
     LevelDetails.endSN := 43;
     LevelDetails.endPart := 0;
     LevelDetails.fragments := [];
     LevelDetails.live := true;
     LevelDetails.startCC := 0;
     LevelDetails.startSN := 31;
     LevelDetails.targetduration := 4;
     LevelDetails.totalduration := 52;
     LevelDetails.updated := Some true;
     LevelDetails.url := "https://example.com/live/hi.m3u8?_HLS_msn=43"%string;
     LevelDetails.serverControl :=
       Some {| LevelDetails.canBlock := true; LevelDetails.canSkipUntil := 0;
               LevelDetails.holdBack := 12; LevelDetails.partHoldBack := 3 |};
     LevelDetails.partTarget := Some 1;
     LevelDetails.skipped := 0;
     LevelDetails.push := None |}.

(** ** Scenario: a manifest whose only variant is HEVC, on a browser
    without HEVC *)

Definition hevc_only : ManifestLoadedData :=
  {| ml_levels :=
       [ {| lp_attrs := None; lp_audioCodec := None;
            lp_videoCodec := Some "hvc1.1.6.L93.B0"%string; lp_bitrate := 2500000;
            lp_url := "https://example.com/hevc.m3u8"%string |} ];
     ml_audioTracks := None;
     ml_url := "https://example.com/master.m3u8"%string;
     ml_stats := {| trequest := 0; tfirst := 20; tload := 35 |} |}.

Definition avc_only_browser (codec : string) (type : CodecType) : bool :=
  String.prefix "avc1" codec.

Definition example_env : Env :=
  {| env_chromeOrFirefox := false;
     env_isCodecSupportedInMp4 := every_codec_supported;
     env_computeReloadInterval := targetduration_ms |}.

End LevelController.

(* ====================================================================== *)
(** * TimelineController (captions and subtitles synchronisation)          *)
(* ====================================================================== *)

Module TimelineController.

Export JS.
Local Open Scope Z_scope.

(** ** Cue ranges and [addCues] *)

Definition intersection (x1 x2 y1 y2 : Q) : Q :=
  (Qmin x2 y2 - Qmax x1 y1)%Q.

(** What the controller does to the outside: cues created through the cue
    handler, events triggered, parser calls, and (for the record) the
    entries into its own [INIT_PTS_FOUND] handler. *)
Inductive Effect :=
| NEW_CUE (native : bool) (trackName : string) (startTime endTime : Q)
| CUES_PARSED (kind : string) (track : string) (startTime endTime : Q)
| SUBTITLE_FRAG_PROCESSED (success : bool) (frag : LevelDetails.Fragment)
| PARSE_VTT (frag : LevelDetails.Fragment) (initPTS : Z)
| PARSE_IMSC1 (frag : LevelDetails.Fragment) (initPTS : Z)
| CEA608_RESET
| INIT_PTS_FOUND (id : string) (frag : LevelDetails.Fragment) (initPTS : Z).

Record FragLoadedData := {
  frag : LevelDetails.Fragment;
  payload_byteLength : Z
}.

Record VTTCC := {
  vtt_start : Q;
  vtt_prevCC : Z;
  vtt_new : bool
}.

(** A subtitle rendition: only its codec is read here. *)
Record SubtitleTrack := { textCodec : option string }.

(** The codec name exported by utils/imsc1-ttml-parser; the controller
    only compares strings with it. *)
Definition IMSC1_CODEC : string := "stpp.ttml.im1t".

Record Config := {
  renderTextTracksNatively : bool;
  enableWebVTT : bool;
  enableIMSC1 : bool;
  enableCEA708Captions : bool
}.

(** The fields of the class that the handlers below use.  [initPTS] is
    [None] when the field is [undefined]; an array with holes is a list of
    optional entries. *)
Record t := {
  config : Config;
  cea608Parser : bool;                  (* is there a parser *)
  tracks : list SubtitleTrack;
  initPTS : option (list (option Z));
  unparsedVttFrags : list FragLoadedData;
  cueRanges : gmap string (list (Q * Q));
  lastSn : Z;
  prevCC : Z;
  vttCCs : gmap nat VTTCC;
  effects : list Effect
}.

Definition newVTTCCs : gmap nat VTTCC :=
  {[ 0%nat := {| vtt_start := 0; vtt_prevCC := -1; vtt_new := false |} ]}.

Definition constructor (hls_config : Config) : t :=
  {| config := hls_config;
     cea608Parser := enableCEA708Captions hls_config;
     tracks := [];
     initPTS := Some [];
     unparsedVttFrags := [];
     cueRanges := ∅;
     lastSn := -1;
     prevCC := -1;
     vttCCs := newVTTCCs;
     effects := [] |}.

Definition set_cueRanges (v : gmap string (list (Q * Q))) (c : t) : t :=
  {| config := config c;
     cea608Parser := cea608Parser c; tracks := tracks c; initPTS := initPTS c;
     unparsedVttFrags := unparsedVttFrags c; cueRanges := v;
     lastSn := lastSn c; prevCC := prevCC c; vttCCs := vttCCs c;
     effects := effects c |}.

Definition set_initPTS (v : option (list (option Z))) (c : t) : t :=
  {| config := config c;
     cea608Parser := cea608Parser c; tracks := tracks c; initPTS := v;
     unparsedVttFrags := unparsedVttFrags c; cueRanges := cueRanges c;
     lastSn := lastSn c; prevCC := prevCC c; vttCCs := vttCCs c;
     effects := effects c |}.

Definition set_unparsedVttFrags (v : list FragLoadedData) (c : t) : t :=
  {| config := config c;
     cea608Parser := cea608Parser c; tracks := tracks c; initPTS := initPTS c;
     unparsedVttFrags := v; cueRanges := cueRanges c;
     lastSn := lastSn c; prevCC := prevCC c; vttCCs := vttCCs c;
     effects := effects c |}.

Definition set_lastSn (v : Z) (c : t) : t :=
  {| config := config c;
     cea608Parser := cea608Parser c; tracks := tracks c; initPTS := initPTS c;
     unparsedVttFrags := unparsedVttFrags c; cueRanges := cueRanges c;
     lastSn := v; prevCC := prevCC c; vttCCs := vttCCs c;
     effects := effects c |}.

Definition set_vttCCs (v : gmap nat VTTCC) (prev : Z) (c : t) : t :=
  {| config := config c;
     cea608Parser := cea608Parser c; tracks := tracks c; initPTS := initPTS c;
     unparsedVttFrags := unparsedVttFrags c; cueRanges := cueRanges c;
     lastSn := lastSn c; prevCC := prev; vttCCs := v;
     effects := effects c |}.

Definition set_tracks (v : list SubtitleTrack) (c : t) : t :=
  {| config := config c;
     cea608Parser := cea608Parser c; tracks := v; initPTS := initPTS c;
     unparsedVttFrags := unparsedVttFrags c; cueRanges := cueRanges c;
     lastSn := lastSn c; prevCC := prevCC c; vttCCs := vttCCs c;
     effects := effects c |}.

Definition emit (e : Effect) (c : t) : t :=
  {| config := config c;
     cea608Parser := cea608Parser c; tracks := tracks c; initPTS := initPTS c;
     unparsedVttFrags := unparsedVttFrags c; cueRanges := cueRanges c;
     lastSn := lastSn c; prevCC := prevCC c; vttCCs := vttCCs c;
     effects := effects c ++ [e] |}.

(** The loop [for (let i = ranges.length; i--;)] over the ranges from the
    last to the first ([ranges_rev] is the array reversed).  It returns the
    ranges as the loop left them (still reversed), the flag [merged], and
    whether the loop ended in the early [return]. *)
Fixpoint merge_cue (ranges_rev : list (Q * Q)) (startTime endTime : Q)
    (merged : bool) : list (Q * Q) * bool * bool :=
  match ranges_rev with
  | [] => ([], merged, false)
  | cueRange :: rest =>
      let overlap := intersection (fst cueRange) (snd cueRange) startTime endTime in
      if Qle_bool 0 overlap then
        let cueRange' :=
          (Qmin (fst cueRange) startTime, Qmax (snd cueRange) endTime) in
        if gt (div overlap (endTime - startTime)) (1 # 2)
        then (cueRange' :: rest, true, true)
        else
          let '(rest', merged', returned) :=
            merge_cue rest startTime endTime true in
          (cueRange' :: rest', merged', returned)
      else
        let '(rest', merged', returned) :=
          merge_cue rest startTime endTime merged in
        (cueRange :: rest', merged', returned)
  end.

Definition addCues (trackName : string) (startTime endTime : Q) (this : t) : t :=
  let ranges := default [] (cueRanges this !! trackName) in
  let '(ranges_rev, merged, returned) :=
    merge_cue (rev ranges) startTime endTime false in
  let ranges := rev ranges_rev in
  if returned then
    set_cueRanges (<[trackName := ranges]> (cueRanges this)) this
  else
    let ranges := if merged then ranges else ranges ++ [(startTime, endTime)] in
    let this := set_cueRanges (<[trackName := ranges]> (cueRanges this)) this in
    if renderTextTracksNatively (config this) then
      emit (NEW_CUE true trackName startTime endTime) this
    else
      emit (CUES_PARSED "captions" trackName startTime endTime)
        (emit (NEW_CUE false trackName startTime endTime) this).

(** The accepted range [r] overlaps the new range by more than half of the
    new range's length. *)
Definition over_half (startTime endTime : Q) (r : Q * Q) : Prop :=
  ((1 # 2) * (endTime - startTime)
   < intersection (fst r) (snd r) startTime endTime)%Q.

(** The accepted range [r] intersects or touches the new range. *)
Definition touches (startTime endTime : Q) (r : Q * Q) : bool :=
  Qle_bool 0 (intersection (fst r) (snd r) startTime endTime).

(** [r] extended to cover the new range when it touches it. *)
Definition widen (startTime endTime : Q) (r : Q * Q) : Q * Q :=
  if touches startTime endTime r
  then (Qmin (fst r) startTime, Qmax (snd r) endTime)
  else r.


(** ** Initial PTS and the gating of subtitle fragments *)

(** [arr[i] = v] on an array with holes: a write past the end extends the
    array. *)
Definition array_set {A : Type} (arr : list (option A)) (i : nat) (v : A)
  : list (option A) :=
  if (i <? length arr)%nat then <[i := Some v]> arr
  else arr ++ replicate (i - length arr) None ++ [Some v].

(** [Number.isFinite (initPTS[cc])]: the entry when it is there.  Reading
    an index of [undefined] throws. *)
Definition finite_initPTS (this : t) (cc : nat) : Outcome (option Z) :=
  match initPTS this with
  | None => Thrown "TypeError: initPTS is undefined"
  | Some arr => Returned (mjoin (arr !! cc))
  end.

(** [decryptData == null || decryptData.key == null
     || decryptData.method !== 'AES-128'] *)
Definition not_encrypted (f : LevelDetails.Fragment) : bool :=
  match LevelDetails.decryptdata f with
  | None => true
  | Some d =>
      match LevelDetails.key d with
      | None => true
      | Some _ => negb (String.eqb (LevelDetails.method d) "AES-128")
      end
  end.

Definition onFragLoaded (data : FragLoadedData) (this : t) : Outcome t :=
  let frag := frag data in
  match LevelDetails.type frag with
  | LevelDetails.main =>
      let sn := LevelDetails.sn frag in
      let this :=
        if negb (sn =? lastSn this + 1) && cea608Parser this
        then emit CEA608_RESET this else this in
      Returned (set_lastSn sn this)
  | LevelDetails.subtitle =>
      if negb (payload_byteLength data =? 0) then
        known ← finite_initPTS this (LevelDetails.cc frag);
        match known with
        | None =>
            let length_ := length (default [] (initPTS this)) in
            let this :=
              set_unparsedVttFrags (unparsedVttFrags this ++ [data]) this in
            if (0 <? length_)%nat
            then Returned (emit (SUBTITLE_FRAG_PROCESSED false frag) this)
            else Returned this
        | Some pts =>
            if not_encrypted frag then
              let trackPlaylistMedia := array_get (tracks this) (LevelDetails.level frag) in
              let this :=
                match vttCCs this !! LevelDetails.cc frag with
                | Some _ => this
                | None =>
                    set_vttCCs
                      (<[LevelDetails.cc frag :=
                           {| vtt_start := LevelDetails.start frag;
                              vtt_prevCC := prevCC this;
                              vtt_new := true |}]> (vttCCs this))
                      (Z.of_nat (LevelDetails.cc frag)) this
                end in
              if bool_decide (trackPlaylistMedia ≫= textCodec = Some IMSC1_CODEC)
              then Returned (emit (PARSE_IMSC1 frag pts) this)
              else Returned (emit (PARSE_VTT frag pts) this)
            else Returned this
        end
      else Returned (emit (SUBTITLE_FRAG_PROCESSED false frag) this)
  | _ => Returned this
  end.

Record InitPTSFoundData := {
  ipf_frag : LevelDetails.Fragment;
  ipf_id : string;
  ipf_initPTS : Z
}.

(** [unparsedVttFrags.forEach (frag => this.onFragLoaded (...))] *)
Fixpoint reissue (frags : list FragLoadedData) (this : t) : Outcome t :=
  match frags with
  | [] => Returned this
  | data :: rest => this' ← onFragLoaded data this; reissue rest this'
  end.

Definition onInitPtsFound (data : InitPTSFoundData) (this : t) : Outcome t :=
  let this := emit (INIT_PTS_FOUND (ipf_id data) (ipf_frag data) (ipf_initPTS data)) this in
  let unparsedVttFrags := unparsedVttFrags this in
  this ←
    (if String.eqb (ipf_id data) "main" then
       match initPTS this with
       | None => Thrown "TypeError: initPTS is undefined"
       | Some arr =>
           Returned
             (set_initPTS
                (Some (array_set arr (LevelDetails.cc (ipf_frag data))
                         (ipf_initPTS data)))
                this)
       end
     else Returned this);
  match unparsedVttFrags with
  | [] => Returned this
  | _ => reissue unparsedVttFrags (set_unparsedVttFrags [] this)
  end.

Definition onFragDecrypted (data : FragLoadedData) (this : t) : Outcome t :=
  match LevelDetails.type (frag data) with
  | LevelDetails.subtitle =>
      known ← finite_initPTS this (LevelDetails.cc (frag data));
      match known with
      | None =>
          Returned (set_unparsedVttFrags (unparsedVttFrags this ++ [data]) this)
      | Some _ => onFragLoaded data this
      end
  | _ => Returned this
  end.

Definition onManifestLoading (this : t) : t :=
  set_tracks [] (set_vttCCs newVTTCCs (-1) (set_lastSn (-1) this)).

(** The part of [onManifestLoaded] that resets the synchronisation state
    and takes the manifest's subtitle renditions. *)
Definition onManifestLoaded (subtitles : list SubtitleTrack) (this : t) : t :=
  let this := set_cueRanges ∅ (set_initPTS (Some []) this) in
  let hasIMSC1 :=
    existsb (fun track => bool_decide (textCodec track = Some IMSC1_CODEC))
      subtitles in
  if enableWebVTT (config this) || (hasIMSC1 && enableIMSC1 (config this))
  then set_tracks subtitles this
  else this.

Definition onSubtitleTracksCleared (this : t) : t := set_tracks [] this.

(** Modelled from the spec: the class [Fragment] of loader/fragment is not
    among the sources; section 4.4.1 calls the argument of
    [new Fragment ()] here a sentinel fragment, one with no sequence number,
    discontinuity or payload of its own. *)
Definition new_Fragment : LevelDetails.Fragment :=
  {| LevelDetails.sn := 0; LevelDetails.cc := 0; LevelDetails.level := 0;
     LevelDetails.type := LevelDetails.main; LevelDetails.start := 0;
     LevelDetails.decryptdata := None |}.

Definition onFragParsingInitSegment (this : t) : Outcome t :=
  match initPTS this with
  | None =>                      (* typeof this.initPTS === 'undefined' *)
      onInitPtsFound
        {| ipf_id := ""; ipf_frag := new_Fragment; ipf_initPTS := 90000 |} this
  | Some _ => Returned this
  end.

(** The events the controller listens to, and cues arriving from the
    CEA-608 parser. *)
Inductive Input :=
| MANIFEST_LOADING
| MANIFEST_LOADED (subtitles : list SubtitleTrack)
| FRAG_LOADED (data : FragLoadedData)
| FRAG_DECRYPTED (data : FragLoadedData)
| INIT_PTS (data : InitPTSFoundData)
| FRAG_PARSING_INIT_SEGMENT
| SUBTITLE_TRACKS_CLEARED
| ADD_CUES (trackName : string) (startTime endTime : Q).

Definition handle (input : Input) (this : t) : Outcome t :=
  match input with
  | MANIFEST_LOADING => Returned (onManifestLoading this)
  | MANIFEST_LOADED subtitles => Returned (onManifestLoaded subtitles this)
  | FRAG_LOADED data => onFragLoaded data this
  | FRAG_DECRYPTED data => onFragDecrypted data this
  | INIT_PTS data => onInitPtsFound data this
  | FRAG_PARSING_INIT_SEGMENT => onFragParsingInitSegment this
  | SUBTITLE_TRACKS_CLEARED => Returned (onSubtitleTracksCleared this)
  | ADD_CUES trackName startTime endTime =>
      Returned (addCues trackName startTime endTime this)
  end.

(** The states of a controller: as constructed, and after each input it
    handled without throwing. *)
Inductive reachable : t -> Prop :=
| reach_new (hls_config : Config) : reachable (constructor hls_config)
| reach_step (input : Input) (this this' : t) :
    reachable this -> handle input this = Returned this' -> reachable this'.

(** ** Example configurations and cue ranges *)

Definition default_config : Config :=
  {| renderTextTracksNatively := true; enableWebVTT := true;
     enableIMSC1 := true; enableCEA708Captions := true |}.

(** An audio-only stream: the manifest is loaded, no initial PTS was ever
    found. *)
Definition audio_only_stream : t :=
  onManifestLoaded [] (onManifestLoading (constructor default_config)).

(** One accepted caption range from 0 s to 2 s on the first track. *)
Definition one_range : t :=
  addCues "textTrack1" 0 2 (constructor default_config).

(** ** [extractCea608Data]

  A [Uint8Array] is a list of integers; an index outside the array is
  [None], so a run that returns [Some _] has read only inside it. *)

(** [actualCCBytes[ccType].push(b)] *)
Definition push_field (ccType : Z) (b : Z) (actualCCBytes : list (list Z))
  : list (list Z) :=
  alter (fun field => field ++ [b]) (Z.to_nat ccType) actualCCBytes.

(** One run of the body of [for (let j = 0; j < count; j++)], [n] being
  the number of iterations left. *)
Fixpoint extract_loop (n : nat) (byteArray : list Z) (position : nat)
    (actualCCBytes : list (list Z)) : option (list (list Z)) :=
  match n with
  | O => Some actualCCBytes
  | S n' =>
      tmpByte ← byteArray !! position;
      raw1 ← byteArray !! (position + 1)%nat;
      raw2 ← byteArray !! (position + 2)%nat;
      let ccbyte1 := Z.land 0x7F raw1 in
      let ccbyte2 := Z.land 0x7F raw2 in
      let ccValid := negb (Z.land 4 tmpByte =? 0) in
      let ccType := Z.land 3 tmpByte in
      let position' := (position + 3)%nat in
      if (ccbyte1 =? 0) && (ccbyte2 =? 0) then
        extract_loop n' byteArray position' actualCCBytes
      else if ccValid && ((ccType =? 0) || (ccType =? 1)) then
        extract_loop n' byteArray position'
          (push_field ccType ccbyte2 (push_field ccType ccbyte1 actualCCBytes))
      else
        extract_loop n' byteArray position' actualCCBytes
  end.

Definition extractCea608Data (byteArray : list Z) : option (list (list Z)) :=
  byte0 ← byteArray !! 0%nat;
  let count := Z.land byte0 31 in
  extract_loop (Z.to_nat count) byteArray 2 [[]; []].

(** The byte pairs of a field, in the order they were pushed. *)
Fixpoint pairs (field : list Z) : list (Z * Z) :=
  match field with
  | b1 :: b2 :: rest => (b1, b2) :: pairs rest
  | _ => []
  end.

(** What the parser is promised about one field: whole pairs only, every
  byte a 7-bit value, no pair of two zero bytes. *)
Record field_ok (field : list Z) : Prop := {
  field_even : Nat.Even (length field);
  field_range : Forall (fun b => 0 <= b <= 0x7F) field;
  field_nonzero : Forall (fun p => ~ (fst p = 0 /\ snd p = 0)) (pairs field)
}.

(** The accepted range [r] holds the whole of the new range. *)
Definition covers (startTime endTime : Q) (r : Q * Q) : Prop :=
  (fst r <= startTime)%Q /\ (endTime <= snd r)%Q.

(** ** What [extractCea608Data] extracts, said without the loop *)

(** The first [count] triplets of [bytes]: a header byte and two data
    bytes each. *)
Fixpoint triplets (count : nat) (bytes : list Z) : list (Z * Z * Z) :=
  match count, bytes with
  | S n, tmpByte :: raw1 :: raw2 :: rest =>
      (tmpByte, raw1, raw2) :: triplets n rest
  | _, _ => []
  end.

(** The bytes that the triplets give to the field [ccType]: the two data
    bytes without their parity bits, of every triplet that is marked valid,
    names this field and is not a pair of zeros. *)
Definition field_of (ccType : Z) (ts : list (Z * Z * Z)) : list Z :=
  flat_map
    (fun '(tmpByte, raw1, raw2) =>
       let ccbyte1 := Z.land 0x7F raw1 in
       let ccbyte2 := Z.land 0x7F raw2 in
       if negb ((ccbyte1 =? 0) && (ccbyte2 =? 0))
          && negb (Z.land 4 tmpByte =? 0)
          && (Z.land 3 tmpByte =? ccType)
       then [ccbyte1; ccbyte2] else [])
    ts.

(** ** Scenario: a subtitle fragment that arrives before the initial PTS *)


(** ** Scenario: an AES-128 subtitle fragment, decrypted, with the
    initial PTS of its discontinuity known *)

Definition keyed_subtitle : FragLoadedData :=
  {| frag := {| LevelDetails.sn := 4; LevelDetails.cc := 1%nat;
                LevelDetails.level := 0;
                LevelDetails.type := LevelDetails.subtitle;
                LevelDetails.start := 16;
                LevelDetails.decryptdata :=
                  Some {| LevelDetails.key := Some "0123456789abcdef"%string;
                          LevelDetails.method := "AES-128"%string |} |};
     payload_byteLength := 512 |}.

Definition waiting_for_keyed_subtitle : t :=
  set_initPTS (Some [None; Some 90000]) (constructor default_config).

Definition main_initPTS (cc : nat) (pts : Z) : InitPTSFoundData :=
  {| ipf_frag := {| LevelDetails.sn := 3; LevelDetails.cc := cc;
                    LevelDetails.level := 0;
                    LevelDetails.type := LevelDetails.main;
                    LevelDetails.start := 12; LevelDetails.decryptdata := None |};
     ipf_id := "main"; ipf_initPTS := pts |}.

End TimelineController.

(* ====================================================================== *)
(** * PassThroughRemuxer (fragmented MP4 passed on without transmuxing)    *)
(* ====================================================================== *)

Module PassThroughRemuxer.

Export JS.
Local Open Scope Q_scope.

(** ** Numbers

    A time is a JavaScript number: finite, an infinity or [NaN].  A field
    that may also be [null] or [undefined] is an optional number. *)
Abbreviation Number := Quotient.

(** [Number.isFinite (x)] for a number, [null] or [undefined]. *)
Definition isFinite (x : option Number) : bool :=
  match x with
  | Some (Fin _) => true
  | _ => false
  end.

(** [x || 0]: 0 for [undefined], [NaN] and 0, else [x]. *)
Definition or_zero (x : option Number) : Number :=
  match x with
  | Some NotANumber | None => Fin 0
  | Some x => x
  end.

Definition add (a b : Number) : Number :=
  match a, b with
  | Fin x, Fin y => Fin (x + y)
  | NotANumber, _ | _, NotANumber => NotANumber
  | PlusInfinity, MinusInfinity | MinusInfinity, PlusInfinity => NotANumber
  | PlusInfinity, _ | _, PlusInfinity => PlusInfinity
  | MinusInfinity, _ | _, MinusInfinity => MinusInfinity
  end.

Definition neg (a : Number) : Number :=
  match a with
  | Fin x => Fin (- x)
  | PlusInfinity => MinusInfinity
  | MinusInfinity => PlusInfinity
  | NotANumber => NotANumber
  end.

Definition sub (a b : Number) : Number := add a (neg b).

(** ** Data *)

(** A [Uint8Array]. *)
Abbreviation Bytes := (list Z).

(** What [parseInitSegment] returns, as far as the remuxer reads it: an
    array (its [length]) that may have an [audio] and a [video] entry. *)
Record InitData := {
  id_length : nat;
  id_audio : bool;
  id_video : bool
}.

Record TrackInfo := {
  container : string;
  codec : string;
  ti_initSegment : Bytes;
  ti_id : string
}.

Record TrackSet := {
  ts_audiovideo : option TrackInfo;
  ts_audio : option TrackInfo;
  ts_video : option TrackInfo
}.

Record InitSegmentData := {
  isd_tracks : option TrackSet;
  isd_initPTS : Number
}.

Section Remuxer.

(** The metadata tracks that [remux] passes through, and what
    [offsetStartDTS] returns. *)
Variable Metadata : Type.
Variable DecodeTimes : Type.

(** The helpers of utils/mp4-tools. *)
Variable parseInitSegment : Bytes -> InitData.
Variable getDuration : Bytes -> InitData -> Number.
Variable getStartDTS : InitData -> Bytes -> Number.
Variable offsetStartDTS : InitData -> Bytes -> option Number -> DecodeTimes.

Record RemuxedTrack := {
  data1 : Bytes;
  startPTS : Number;
  startDTS : Number;
  endPTS : Number;
  endDTS : Number;
  type : string;
  hasAudio : bool;
  hasVideo : bool;
  nb : Z;
  dropped : Z;
  baseMediaDecodeTimes : DecodeTimes
}.

Record RemuxerResult := {
  audio : option RemuxedTrack;
  video : option RemuxedTrack;
  text : Metadata;
  id3 : Metadata;
  initSegment : option InitSegmentData
}.

(** A demuxed track: the remuxer reads only the [samples] of the video
    track, where the MP4 demuxer put the segment's bytes. *)
Record DemuxedTrack := { samples : option Bytes }.

Record t := {
  emitInitSegment : bool;
  audioCodec : option string;
  videoCodec : option string;
  initData : option InitData;
  initPTS : option Number;
  initTracks : option TrackSet;
  lastEndDTS : option Number
}.

Definition constructor : t :=
  {| emitInitSegment := false; audioCodec := None; videoCodec := None;
     initData := None; initPTS := None; initTracks := None;
     lastEndDTS := None |}.

Definition resetTimeStamp (defaultInitPTS : option Number) (this : t) : t :=
  {| emitInitSegment := emitInitSegment this; audioCodec := audioCodec this;
     videoCodec := videoCodec this; initData := initData this;
     initPTS := defaultInitPTS; initTracks := initTracks this;
     lastEndDTS := None |}.

Definition resetNextTimestamp (this : t) : t :=
  {| emitInitSegment := emitInitSegment this; audioCodec := audioCodec this;
     videoCodec := videoCodec this; initData := initData this;
     initPTS := initPTS this; initTracks := initTracks this;
     lastEndDTS := None |}.

(** [!s] for an optional string. *)
Definition falsy (s : option string) : bool :=
  match s with
  | Some EmptyString | None => true
  | Some _ => false
  end.

(** [!data || !data.length] *)
Definition no_bytes (data : option Bytes) : bool :=
  match data with
  | Some (_ :: _) => false
  | _ => true
  end.

(** [!initData || !initData.length] *)
Definition no_initData (initData : option InitData) : bool :=
  match initData with
  | Some d => (id_length d =? 0)%nat
  | None => true
  end.

Definition generateInitSegment (initSegment : option Bytes) (this : t) : t :=
  match initSegment with
  | Some ((_ :: _) as bytes) =>
      let initData := parseInitSegment bytes in
      (* default codecs if nothing specified *)
      let audioCodec_ :=
        if falsy (audioCodec this) then "mp4a.40.5"%string
        else default ""%string (audioCodec this) in
      let videoCodec_ :=
        if falsy (videoCodec this) then "avc1.42e01e"%string
        else default ""%string (videoCodec this) in
      let tracks :=
        if id_audio initData && id_video initData then
          {| ts_audiovideo :=
               Some {| container := "video/mp4";
                       codec := (audioCodec_ ++ "," ++ videoCodec_)%string;
                       ti_initSegment := bytes; ti_id := "main" |};
             ts_audio := None; ts_video := None |}
        else
          {| ts_audiovideo := None;
             ts_audio :=
               if id_audio initData
               then Some {| container := "audio/mp4"; codec := audioCodec_;
                            ti_initSegment := bytes; ti_id := "audio" |}
               else None;
             ts_video :=
               if id_video initData
               then Some {| container := "video/mp4"; codec := videoCodec_;
                            ti_initSegment := bytes; ti_id := "main" |}
               else None |} in
      {| emitInitSegment := emitInitSegment this; audioCodec := audioCodec this;
         videoCodec := videoCodec this; initData := Some initData;
         initPTS := initPTS this; initTracks := Some tracks;
         lastEndDTS := lastEndDTS this |}
  | _ =>
      {| emitInitSegment := emitInitSegment this; audioCodec := audioCodec this;
         videoCodec := videoCodec this; initData := None;
         initPTS := initPTS this; initTracks := None;
         lastEndDTS := lastEndDTS this |}
  end.

Definition set_codecs (audioCodec_ videoCodec_ : option string) (this : t) : t :=
  {| emitInitSegment := emitInitSegment this; audioCodec := audioCodec_;
     videoCodec := videoCodec_; initData := initData this;
     initPTS := initPTS this; initTracks := initTracks this;
     lastEndDTS := lastEndDTS this |}.

Definition set_emitInitSegment (v : bool) (this : t) : t :=
  {| emitInitSegment := v; audioCodec := audioCodec this;
     videoCodec := videoCodec this; initData := initData this;
     initPTS := initPTS this; initTracks := initTracks this;
     lastEndDTS := lastEndDTS this |}.

Definition resetInitSegment (initSegment : option Bytes)
    (audioCodec_ videoCodec_ : option string) (this : t) : t :=
  set_emitInitSegment true
    (generateInitSegment initSegment (set_codecs audioCodec_ videoCodec_ this)).

Definition set_lastEndDTS (v : option Number) (this : t) : t :=
  {| emitInitSegment := emitInitSegment this; audioCodec := audioCodec this;
     videoCodec := videoCodec this; initData := initData this;
     initPTS := initPTS this; initTracks := initTracks this;
     lastEndDTS := v |}.

Definition set_initPTS (v : option Number) (this : t) : t :=
  {| emitInitSegment := emitInitSegment this; audioCodec := audioCodec this;
     videoCodec := videoCodec this; initData := initData this;
     initPTS := v; initTracks := initTracks this;
     lastEndDTS := lastEndDTS this |}.

(** [computeInitPTS] *)
Definition computeInitPTS (initData : InitData) (data : Bytes)
    (timeOffset : Number) : Number :=
  sub (getStartDTS initData data) timeOffset.

(** [remux]; the audio track and [accurateTimeOffset] are not read.  The
    result comes with the remuxer as the call left it. *)
Definition remux (audioTrack videoTrack : DemuxedTrack) (id3Track textTrack : Metadata)
    (timeOffset : Number) (accurateTimeOffset : bool) (this : t)
  : RemuxerResult * t :=
  let initPTS := initPTS this in
  let lastEndDTS := lastEndDTS this in
  let result :=
    {| audio := None; video := None; text := textTrack; id3 := id3Track;
       initSegment := None |} in
  let '(lastEndDTS, this) :=
    if negb (isFinite lastEndDTS)
    then (Some (or_zero (Some timeOffset)),
          set_lastEndDTS (Some (or_zero (Some timeOffset))) this)
    else (lastEndDTS, this) in
  match samples videoTrack with
  | Some ((_ :: _) as data) =>
      let this :=
        if no_initData (initData this)
        then generateInitSegment (Some data) this else this in
      match initData this with
      | None => (result, this)
      | Some initData =>
          if (id_length initData =? 0)%nat then (result, this)
          else
            let '(initSegment, this) :=
              if emitInitSegment this
              then (Some {| isd_tracks := initTracks this;
                            isd_initPTS := or_zero initPTS |},
                    set_emitInitSegment false this)
              else (None, this) in
            let '(initPTS, initSegment, this) :=
              if negb (isFinite initPTS) then
                let initPTS := computeInitPTS initData data timeOffset in
                (Some initPTS,
                 match initSegment with
                 | Some s => Some {| isd_tracks := isd_tracks s;
                                     isd_initPTS := initPTS |}
                 | None => None
                 end,
                 set_initPTS (Some initPTS) this)
              else (initPTS, initSegment, this) in
            let duration := getDuration data initData in
            let startDTS := default NotANumber lastEndDTS in
            let endDTS := add duration startDTS in
            let baseMediaDecodeTimes := offsetStartDTS initData data initPTS in
            let this := set_lastEndDTS (Some endDTS) this in
            let hasAudio := id_audio initData in
            let hasVideo := id_video initData in
            let type :=
              ((if hasAudio then "audio" else "")
               ++ (if hasVideo then "video" else ""))%string in
            let track :=
              {| data1 := data; startPTS := startDTS; startDTS := startDTS;
                 endPTS := endDTS; endDTS := endDTS; type := type;
                 hasAudio := hasAudio; hasVideo := hasVideo;
                 nb := 1; dropped := 0;
                 baseMediaDecodeTimes := baseMediaDecodeTimes |} in
            if String.eqb type "audio"
            then ({| audio := Some track; video := None; text := textTrack;
                     id3 := id3Track; initSegment := initSegment |}, this)
            else ({| audio := None; video := Some track; text := textTrack;
                     id3 := id3Track; initSegment := initSegment |}, this)
      end
  | _ => (result, this)
  end.

(** The media track of a result, whichever slot holds it. *)
Definition remuxed (r : RemuxerResult) : option RemuxedTrack :=
  match audio r with
  | Some track => Some track
  | None => video r
  end.

End Remuxer.

(** ** Scenario: a muxed init segment and two media segments *)

Definition muxed_init (bytes : Bytes) : InitData :=
  {| id_length := 2; id_audio := true; id_video := true |}.

Definition two_seconds (data : Bytes) (initData : InitData) : Number := Fin 2.

Definition starts_at_ten (initData : InitData) (data : Bytes) : Number := Fin 10.

Definition no_decode_times (initData : InitData) (data : Bytes)
    (initPTS : option Number) : unit := tt.

Definition chunk : DemuxedTrack := {| samples := Some [0%Z; 0%Z; 0%Z; 24%Z] |}.

Definition no_chunk : DemuxedTrack := {| samples := None |}.

Definition after_init_segment : t :=
  resetInitSegment muxed_init (Some [0%Z; 0%Z; 0%Z; 28%Z]) None None constructor.

End PassThroughRemuxer.

(* ====================================================================== *)
(** * Properties of the BufferOperationQueue                               *)
(* ====================================================================== *)

Section BufferOperationQueueFacts.

Import BufferOperationQueue.

Lemma get_set_queue (queues : Queues) (type : SourceBufferName)
    (q : list BufferOperation) :
  get_queue (set_queue queues type q) type = q.
Proof. destruct type; reflexivity. Qed.

Lemma get_set_queue_ne (queues : Queues) (type type' : SourceBufferName)
    (q : list BufferOperation) :
  type <> type' ->
  get_queue (set_queue queues type q) type' = get_queue queues type'.
Proof. destruct type, type'; intros H; try reflexivity; contradiction. Qed.

(** The part of the error path that the code does implement: a
  synchronous throw is reported to the head's [onError], and with the
  buffer absent or idle the head leaves the queue. *)
Lemma executeNext_throw_reports_and_pops (this : t) (type : SourceBufferName)
    (head : BufferOperation) (rest : list BufferOperation)
    (buffers' : SourceBuffers) (e : Exception) :
  get_queue (queues this) type = head :: rest ->
  execute head (buffers this) = (buffers', Some e) ->
  not_updating (get_buffer (buffers this) type) buffers' type = true ->
  let this' := executeNext type this in
  calls this' = calls this ++ [CallExecute (op_id head); CallOnError (op_id head) e]
  /\ get_queue (queues this') type = rest.
Proof.
  intros Hq Hex Hidle. unfold executeNext. rewrite Hq, Hex, Hidle. cbn.
  split; [reflexivity | apply get_set_queue].
Qed.

(** With the buffer still updating, the head stays for [updateend]. *)
Lemma executeNext_throw_updating_keeps_head (this : t) (type : SourceBufferName)
    (head : BufferOperation) (rest : list BufferOperation)
    (buffers' : SourceBuffers) (e : Exception) :
  get_queue (queues this) type = head :: rest ->
  execute head (buffers this) = (buffers', Some e) ->
  not_updating (get_buffer (buffers this) type) buffers' type = false ->
  let this' := executeNext type this in
  calls this' = calls this ++ [CallExecute (op_id head); CallOnError (op_id head) e]
  /\ get_queue (queues this') type = head :: rest.
Proof.
  intros Hq Hex Hbusy. unfold executeNext. rewrite Hq, Hex, Hbusy. cbn.
  split; [reflexivity | assumption].
Qed.

(** C1 (the code departs from the claim). In the run Z, A, B on an
  existing video buffer, Z's [updateend] makes [executeNext] run A,
  which throws synchronously while the buffer is idle.  The queue calls
  A's [onError] with the thrown value and removes A, and that is all it
  does: B is now the head of the queue on an idle buffer and its
  [execute] has not been called. *)
Theorem executeNext_throw_does_not_dispatch_next :
  calls scenario_after_updateend
    = [CallExecute 0; CallExecute 1; CallOnError 1 "QuotaExceededError"]
  /\ get_queue (queues scenario_after_updateend) video = [opB]
  /\ get_buffer (buffers scenario_after_updateend) video = Some {| updating := false |}
  /\ ~ In (CallExecute (op_id opB)) (calls scenario_after_updateend).
Proof.
  repeat split; try reflexivity.
  cbn. intros [H|[H|[H|[]]]]; discriminate.
Qed.

(** Nothing later dispatches B either: a further [append] only starts an
  operation when it is alone in its queue. *)
Lemma append_behind_stalled_head (op : BufferOperation) :
  let this' := append op video scenario_after_updateend in
  calls this' = calls scenario_after_updateend
  /\ get_queue (queues this') video = [opB; op].
Proof. split; reflexivity. Qed.

End BufferOperationQueueFacts.

(* ====================================================================== *)
(** * Properties of the PlaybackRateController                             *)
(* ====================================================================== *)

Section PlaybackRateControllerFacts.

Import PlaybackRateController.
Local Open Scope R_scope.

Variable bufferInfo : Media -> R -> R -> BufferInfo.

Lemma Rltb_true (x y : R) : Rltb x y = true <-> x < y.
Proof. unfold Rltb. destruct (Rlt_dec x y); split; auto; discriminate. Qed.

Lemma Rltb_false (x y : R) : Rltb x y = false <-> y <= x.
Proof.
  unfold Rltb. destruct (Rlt_dec x y); split; auto; try discriminate; lra.
Qed.

Lemma sigmoid_denominator_pos (x x0 : R) : 0 < 1 + exp (- k * (x - x0)).
Proof. pose proof (exp_pos (- k * (x - x0))). lra. Qed.

(** The sigmoid saturates strictly inside (0, 2). *)
Lemma sigmoid_range (x x0 : R) : 0 < sigmoid x x0 < 2.
Proof.
  unfold sigmoid, L.
  pose proof (exp_pos (- k * (x - x0))) as He.
  pose proof (sigmoid_denominator_pos x x0) as Hd.
  split.
  - apply Rdiv_lt_0_compat; lra.
  - apply Rmult_lt_reg_r with (1 + exp (- k * (x - x0))); [assumption|].
    unfold Rdiv. rewrite Rmult_assoc, Rinv_l by lra. lra.
Qed.

(** It crosses 1 at the target and nowhere else. *)
Lemma sigmoid_eq_1 (x x0 : R) : sigmoid x x0 = 1 <-> x = x0.
Proof.
  unfold sigmoid, L.
  pose proof (sigmoid_denominator_pos x x0) as Hd.
  split.
  - intros H.
    assert (He : exp (- k * (x - x0)) = exp 0).
    { rewrite exp_0.
      apply (f_equal (fun r => r * (1 + exp (- k * (x - x0))))) in H.
      unfold Rdiv in H. rewrite Rmult_assoc, Rinv_l in H by lra. lra. }
    apply exp_inv in He. unfold k in He. lra.
  - intros ->. replace (- k * (x0 - x0)) with 0 by (unfold k; lra).
    rewrite exp_0. lra.
Qed.

(** The two configuration fields are never reassigned. *)
Lemma reachable_constants (this : t) :
  reachable bufferInfo this -> latencyTarget this = 3 /\ refreshLatency this = 1.
Proof.
  induction 1 as [c|m this _ IH|this _ IH|this _ IH]; cbn; auto.
  unfold doTick. destruct (media this); cbn; auto.
Qed.

(** C5. On a tick with media attached, the rate written to the media
  element is 1 exactly when [0 <= latencyTarget - bufferLength <=
  refreshLatency], is [sigmoid bufferLength latencyTarget] otherwise,
  and lies in (0, 2] in every case.  (Numbers are real numbers here,
  and the controller is in a state it can reach, where [refreshLatency]
  is 1.) *)
Theorem doTick_playbackRate (this : t) (m : Media) :
  reachable bufferInfo this ->
  media this = Some m ->
  let bufferLength := len (bufferInfo m (currentTime m) (maxBufferHole this)) in
  let distance := latencyTarget this - bufferLength in
  exists m',
    media (doTick bufferInfo this) = Some m' /\
    currentTime m' = currentTime m /\
    (playbackRate m' = 1 <-> 0 <= distance <= refreshLatency this) /\
    (~ (0 <= distance <= refreshLatency this) ->
     playbackRate m' = sigmoid bufferLength (latencyTarget this) /\
     playbackRate m' = 2 / (1 + exp (- (1 / 2) * (bufferLength - latencyTarget this)))) /\
    0 < playbackRate m' <= 2.
Proof.
  intros Hreach Hm bufferLength distance.
  destruct (reachable_constants this Hreach) as [Hlt Hrl].
  unfold doTick. rewrite Hm. cbn.
  fold bufferLength. fold distance.
  eexists. split; [reflexivity|]. cbn.
  split; [reflexivity|].
  pose proof (sigmoid_range bufferLength (latencyTarget this)) as Hrange.
  pose proof (sigmoid_eq_1 bufferLength (latencyTarget this)) as Hone.
  destruct (Rltb distance 0 || Rltb (refreshLatency this) distance) eqn:Hcond.
  - apply orb_true_iff in Hcond.
    assert (Hout : distance < 0 \/ refreshLatency this < distance).
    { destruct Hcond as [H|H]; apply Rltb_true in H; auto. }
    repeat split; try lra;
      match goal with
      | H1 : sigmoid _ _ = 1 |- _ =>
          apply Hone in H1; unfold distance in Hout |- *; lra
      end.
  - apply orb_false_iff in Hcond as [H1 H2].
    apply Rltb_false in H1, H2.
    repeat split; try lra.
Qed.

End PlaybackRateControllerFacts.

Lemma doTick_playbackRate_witness :
  exists m',
  PlaybackRateController.media
    (PlaybackRateController.doTick PlaybackRateController.empty_bufferInfo
       PlaybackRateController.just_attached) = Some m' /\
  PlaybackRateController.playbackRate m' = PlaybackRateController.sigmoid 0 3 /\
  (0 < PlaybackRateController.playbackRate m' <= 2)%R.
Proof.
  destruct (doTick_playbackRate PlaybackRateController.empty_bufferInfo
            PlaybackRateController.just_attached
            PlaybackRateController.silent_media)
  as (m' & Hm' & _ & _ & Hsig & Hr).
  - apply PlaybackRateController.reach_attached, PlaybackRateController.reach_new.
  - reflexivity.
  - exists m'. repeat split; try apply Hr; try assumption.
  apply Hsig. cbn. lra.
Defined.

(* ====================================================================== *)
(** * Properties of LevelDetails                                           *)
(* ====================================================================== *)

Section RegexFacts.

Import JS.
Context {A : Type}.

Lemma plus_loop_continues (p : ascii -> bool) (s : string)
    (k : string -> option A) (res : A) :
  plus_loop p s k = Some res -> exists s', k s' = Some res.
Proof.
  induction s as [|a s IH]; cbn.
  - eauto.
  - destruct (p a); [|eauto].
    destruct (plus_loop p s k) eqn:Hloop; [|eauto].
    intros [= ->]. auto.
Qed.

(** A successful run hands its continuation a capture array of the size
  it was given: groups are written in place. *)
Lemma rmatch_continues (r : Regex) :
  forall (s : string) (caps : Captures)
         (k : string -> Captures -> option A) (res : A),
    rmatch r s caps k = Some res ->
    exists s' caps', k s' caps' = Some res /\ length caps' = length caps.
Proof.
  induction r as [l|c|r1 IH1 r2 IH2|r IH|i r IH]; intros s caps k res; cbn.
  - destruct (strip_prefix l s); [eauto | discriminate].
  - destruct s as [|a s]; [discriminate|].
    destruct (in_class c a); [|discriminate].
    intros H. apply plus_loop_continues in H as [s' Hs']. eauto.
  - intros H. apply IH1 in H as (s1 & caps1 & H & Hlen).
    apply IH2 in H as (s2 & caps2 & H & Hlen2).
    exists s2, caps2. split; [assumption | congruence].
  - destruct (rmatch r s caps k) eqn:Hr.
    + intros [= ->]. eauto.
    + eauto.
  - intros H. apply IH in H as (s1 & caps1 & H & Hlen).
    eexists _, _. split; [exact H|].
    rewrite length_insert. assumption.
Qed.

End RegexFacts.

Section LevelDetailsFacts.

Import JS LevelDetails.
Local Open Scope string_scope.

(** The array of a match has one entry for the whole match and one per
  capture group, whether the group took part or not. *)
Lemma match_from_length (r : Regex) (s : string) (m : list (option string)) :
  match_from r s = Some m -> length m = S (ngroups r).
Proof.
  induction s as [|a s IH]; cbn;
    destruct (rmatch r _ (replicate (ngroups r) None) _) eqn:Hr;
    try discriminate; try (intros [= <-]); auto;
    apply rmatch_continues in Hr as (s' & caps' & [= <-] & Hlen);
    cbn; rewrite Hlen, length_replicate; reflexivity.
Qed.

Lemma constructor_never_sets_push (baseUrl : string) :
  push (constructor baseUrl) = None.
Proof.
  unfold constructor. cbn.
  destruct (String_match baseUrl push_params) as [params|] eqn:Hm; [|reflexivity].
  apply match_from_length in Hm. rewrite Hm. reflexivity.
Qed.

(** C9 (the code departs from the claim). The URL
  [...live.m3u8?_HLS_msn=42&_HLS_part=1&_HLS_push=1] embeds all three
  parameters and the constructor's pattern matches it, capturing "42"
  and "1"; the match array has four entries, the constructor asks for
  three, and [push] stays unset.  No URL at all makes the constructor
  set [push]. *)
Theorem constructor_push_unset_on_push_url :
  String_match pushed_playlist_url push_params
    = Some [Some "_HLS_msn=42&_HLS_part=1&_HLS_push=1";
            Some "42"; Some "&_HLS_part=1"; Some "1"]
  /\ push (constructor pushed_playlist_url) = None
  /\ (forall baseUrl, push (constructor baseUrl) = None).
Proof.
  split; [vm_compute; reflexivity|].
  split; [vm_compute; reflexivity|].
  exact constructor_never_sets_push.
Qed.

End LevelDetailsFacts.

(* ====================================================================== *)
(** * Properties of the LevelController: manifest admission                *)
(* ====================================================================== *)

Section ManifestFacts.

Import LevelController.
Local Open Scope Z_scope.

Variable chromeOrFirefox : bool.
Variable isCodecSupportedInMp4 : string -> CodecType -> bool.

Lemma grouped_alter (levels : list Level) (levelSet : gmap Z nat)
    (f : Level -> Level) (i : nat) :
  (forall l, bitrate (f l) = bitrate l) ->
  grouped levels levelSet -> grouped (alter f i levels) levelSet.
Proof.
  intros Hf Hg j l. rewrite list_lookup_alter.
  destruct (decide (i = j)) as [->|]; [|apply Hg].
  intros H. apply fmap_Some in H as (l0 & H0 & ->).
  rewrite Hf. apply Hg. exact H0.
Qed.

Lemma grouped_push (levels : list Level) (levelSet : gmap Z nat) (l : Level) :
  grouped levels levelSet ->
  levelSet !! bitrate l = None ->
  grouped (levels ++ [l]) (<[bitrate l := length levels]> levelSet).
Proof.
  intros Hg Hfresh i x Hx.
  apply lookup_app_Some in Hx as [Hx | [Hge Hx]].
  - rewrite lookup_insert_ne; [apply Hg; exact Hx|].
    intros Heq. apply Hg in Hx. rewrite <- Heq in Hx. congruence.
  - destruct (i - length levels)%nat as [|n] eqn:E; [|destruct n; discriminate].
    injection Hx as <-. replace i with (length levels) by lia.
    apply lookup_insert_eq.
Qed.

Lemma regroup_grouped (g : Grouping) (levelParsed : LevelParsed) :
  grouped (g_levels g) (g_levelSet g) ->
  grouped (g_levels (regroup chromeOrFirefox g levelParsed))
          (g_levelSet (regroup chromeOrFirefox g levelParsed)).
Proof.
  intros Hg. unfold regroup.
  match goal with
  | |- context [g_levelSet g !! lp_bitrate ?p] => set (erased := p)
  end.
  assert (Hbase :
    let '(_, levels, levelSet) :=
      match g_levelSet g !! lp_bitrate erased with
      | None =>
          (length (g_levels g), g_levels g ++ [new_Level erased],
           <[lp_bitrate erased := length (g_levels g)]> (g_levelSet g))
      | Some i =>
          (i, alter (fun l => set_url (url l ++ [lp_url erased]) l) i (g_levels g),
           g_levelSet g)
      end in grouped levels levelSet).
  { destruct (g_levelSet g !! lp_bitrate erased) eqn:Hlk.
    - apply grouped_alter; [reflexivity | exact Hg].
    - apply (grouped_push (g_levels g) (g_levelSet g) (new_Level erased) Hg Hlk). }
  destruct (match g_levelSet g !! lp_bitrate erased with
            | None => _ | Some i => _ end) as [[levelFromSet levels] levelSet].
  destruct (lp_attrs levelParsed) as [[[a|] [s|]]|]; cbn -[truthy];
    repeat match goal with
           | |- context [truthy (Some ?x)] => destruct (truthy (Some x))
           end;
    cbn; repeat (apply grouped_alter; [reflexivity|]); exact Hbase.
Qed.

Lemma regroup_all_grouped (parsed : list LevelParsed) :
  grouped (g_levels (regroup_all chromeOrFirefox parsed))
          (g_levelSet (regroup_all chromeOrFirefox parsed)).
Proof.
  unfold regroup_all.
  set (g0 := {| g_levels := []; g_levelSet := ∅;
                g_videoCodecFound := false; g_audioCodecFound := false |}).
  assert (H0 : grouped (g_levels g0) (g_levelSet g0)).
  { intros i l H. destruct i; discriminate. }
  revert H0. generalize g0. clear g0.
  induction parsed as [|p parsed IH]; intros g Hg; cbn; [exact Hg|].
  apply IH. apply regroup_grouped. exact Hg.
Qed.

(** Grouping leaves one level per bitrate. *)
Lemma grouped_NoDup (levels : list Level) (levelSet : gmap Z nat) :
  grouped levels levelSet -> NoDup (bitrate <$> levels).
Proof.
  intros Hg. apply NoDup_alt. intros i j b Hi Hj.
  rewrite list_lookup_fmap in Hi, Hj.
  apply fmap_Some in Hi as (li & Hi & ->).
  apply fmap_Some in Hj as (lj & Hj & Hb).
  apply Hg in Hi, Hj. rewrite Hb in Hi. congruence.
Qed.

Lemma filter_NoDup_bitrate (p : Level -> bool) (levels : list Level) :
  NoDup (bitrate <$> levels) -> NoDup (bitrate <$> List.filter p levels).
Proof.
  induction levels as [|x levels IH]; cbn; [auto|].
  intros H. apply NoDup_cons in H as [Hx H].
  destruct (p x); [|auto]. cbn. apply NoDup_cons. split; [|auto].
  intros Hin. apply Hx.
  apply list_elem_of_fmap in Hin as (y & Hy & Hin).
  apply list_elem_of_fmap. exists y. split; [exact Hy|].
  apply list_elem_of_In in Hin. apply filter_In in Hin as [Hin _].
  apply list_elem_of_In. exact Hin.
Qed.

Lemma surviving_NoDup (parsed : list LevelParsed) :
  NoDup (bitrate <$>
           surviving_levels isCodecSupportedInMp4 (regroup_all chromeOrFirefox parsed)).
Proof.
  unfold surviving_levels.
  pose proof (grouped_NoDup _ _ (regroup_all_grouped parsed)) as Hnd.
  apply filter_NoDup_bitrate.
  destruct (_ && _); [apply filter_NoDup_bitrate|]; exact Hnd.
Qed.

#[local] Instance bitrate_le_total : Total bitrate_le.
Proof. intros a b. unfold bitrate_le. lia. Qed.

#[local] Instance bitrate_le_trans : Transitive bitrate_le.
Proof. intros a b c. unfold bitrate_le. lia. Qed.

Lemma sort_by_bitrate_Permutation (levels : list Level) :
  sort_by_bitrate levels ≡ₚ levels.
Proof. apply merge_sort_Permutation. Qed.

(** Ascending order without a repeated bitrate is strictly ascending. *)
Lemma sorted_NoDup_strict (levels : list Level) :
  StronglySorted bitrate_le levels ->
  NoDup (bitrate <$> levels) ->
  StronglySorted bitrate_lt levels.
Proof.
  induction 1 as [|a l Hsorted IH Hall]; intros Hnd; [constructor|].
  cbn in Hnd. apply NoDup_cons in Hnd as [Ha Hnd].
  constructor; [auto|].
  apply Forall_forall. intros x Hx.
  pose proof (proj1 (Forall_forall _ _) Hall x Hx) as Hle.
  unfold bitrate_le in Hle. unfold bitrate_lt.
  destruct (Z.eq_dec (bitrate a) (bitrate x)) as [Heq|]; [|lia].
  exfalso. apply Ha. rewrite Heq. apply list_elem_of_fmap. eauto.
Qed.

Lemma sort_by_bitrate_strict (levels : list Level) :
  NoDup (bitrate <$> levels) ->
  StronglySorted bitrate_lt (sort_by_bitrate levels).
Proof.
  intros Hnd. apply sorted_NoDup_strict.
  - apply StronglySorted_merge_sort; typeclasses eauto.
  - rewrite (sort_by_bitrate_Permutation levels). exact Hnd.
Qed.

(** The search loop finds the first level of the wanted bitrate. *)
Lemma find_bitrate_finds (levels : list Level) (bitrateStart : Z) :
  forall start : Z,
    (exists l, l ∈ levels /\ bitrate l = bitrateStart) ->
    exists (i : Z) (l : Level),
      find_bitrate levels bitrateStart start = Some i /\
      start <= i /\
      levels !! Z.to_nat (i - start) = Some l /\
      bitrate l = bitrateStart.
Proof.
  induction levels as [|x levels IH]; intros start (l & Hin & Hb).
  - apply elem_of_nil in Hin. contradiction.
  - cbn. destruct (bitrate x =? bitrateStart) eqn:E.
    + apply Z.eqb_eq in E. exists start, x.
      rewrite Z.sub_diag. repeat split; auto; lia.
    + apply elem_of_cons in Hin as [->|Hin].
      { apply Z.eqb_neq in E. contradiction. }
      destruct (IH (start + 1) (ex_intro _ l (conj Hin Hb)))
        as (i & l' & Hfind & Hle & Hl' & Hb').
      exists i, l'. repeat split; auto; [lia|].
      replace (Z.to_nat (i - start)) with (S (Z.to_nat (i - (start + 1)))) by lia.
      exact Hl'.
Qed.

(** C2 (as amended). When at least one level survives the codec filters,
    the levels that [onManifestLoaded] stores and emits are the surviving
    levels in strictly ascending order of bitrate, and [firstLevel] is the
    index, in that sorted array, of the level whose bitrate is that of the
    first surviving level in manifest order; no other index has that
    bitrate. *)
Theorem onManifestLoaded_sorted_firstLevel
    (data : ManifestLoadedData) (this : t) (first : Level) (rest : list Level) :
  surviving_levels isCodecSupportedInMp4
    (regroup_all chromeOrFirefox (ml_levels data)) = first :: rest ->
  let this' := onManifestLoaded chromeOrFirefox isCodecSupportedInMp4 data this in
  exists (levels : list Level) (firstLevel : Z) (l : Level)
         (parsed : ManifestParsedData),
    _levels this' = Some levels /\
    levels ≡ₚ first :: rest /\
    StronglySorted bitrate_lt levels /\
    _firstLevel this' = firstLevel /\
    array_get levels firstLevel = Some l /\
    bitrate l = bitrate first /\
    (forall j l', array_get levels j = Some l' ->
                  bitrate l' = bitrate first -> j = firstLevel) /\
    triggered this' = triggered this ++ [MANIFEST_PARSED parsed; PARSED_COMPLETE] /\
    mp_levels parsed = levels /\
    mp_firstLevel parsed = firstLevel.
Proof.
  intros Hsurv this'.
  pose proof (surviving_NoDup (ml_levels data)) as Hnd. rewrite Hsurv in Hnd.
  set (levels := sort_by_bitrate (first :: rest)).
  assert (Hperm : levels ≡ₚ first :: rest) by apply sort_by_bitrate_Permutation.
  assert (Hnd' : NoDup (bitrate <$> levels)) by (rewrite Hperm; exact Hnd).
  destruct (find_bitrate_finds levels (bitrate first) 0) as (i & l & Hfind & Hi & Hl & Hb).
  { exists first. split; [|reflexivity]. rewrite Hperm. apply elem_of_cons. auto. }
  rewrite Z.sub_0_r in Hl.
  assert (Hget : array_get levels i = Some l).
  { unfold array_get. destruct (i <? 0) eqn:E; [lia | exact Hl]. }
  subst this'. unfold onManifestLoaded. rewrite Hsurv. cbv zeta.
  fold levels. rewrite Hfind.
  eexists levels, i, l, _.
  split; [reflexivity|]. split; [exact Hperm|].
  split; [apply sort_by_bitrate_strict; exact Hnd|].
  split; [reflexivity|]. split; [exact Hget|]. split; [exact Hb|].
  split.
  { intros j l' Hj Hb'. unfold array_get in Hj.
    destruct (j <? 0) eqn:E; [discriminate|].
    assert (Z.to_nat j = Z.to_nat i); [|lia].
    apply (NoDup_lookup (bitrate <$> levels) _ _ (bitrate first) Hnd').
    - rewrite list_lookup_fmap, Hj. cbn. congruence.
    - rewrite list_lookup_fmap, Hl. cbn. congruence. }
  split; [cbn; rewrite <- app_assoc; reflexivity|].
  split; reflexivity.
Qed.

(** *** Admitted levels satisfy [0 <= urlId < url.length] *)

Lemma regroup_urlId_in_range (g : Grouping) (levelParsed : LevelParsed) :
  Forall urlId_in_range (g_levels g) ->
  Forall urlId_in_range (g_levels (regroup chromeOrFirefox g levelParsed)).
Proof.
  intros Hg. unfold regroup.
  match goal with
  | |- context [g_levelSet g !! lp_bitrate ?p] => set (erased := p)
  end.
  assert (Hbase :
    let '(_, levels, _) :=
      match g_levelSet g !! lp_bitrate erased with
      | None =>
          (length (g_levels g), g_levels g ++ [new_Level erased],
           <[lp_bitrate erased := length (g_levels g)]> (g_levelSet g))
      | Some i =>
          (i, alter (fun l => set_url (url l ++ [lp_url erased]) l) i (g_levels g),
           g_levelSet g)
      end in Forall urlId_in_range levels).
  { destruct (g_levelSet g !! lp_bitrate erased) eqn:Hlk.
    - apply Forall_alter; [exact Hg|].
      intros x _ [Hlo Hhi]. unfold urlId_in_range. cbn.
      rewrite length_app. cbn. lia.
    - apply Forall_app. split; [exact Hg|].
      apply Forall_cons_2; [|constructor]. unfold urlId_in_range. cbn. lia. }
  destruct (match g_levelSet g !! lp_bitrate erased with
            | None => _ | Some i => _ end) as [[levelFromSet levels] levelSet].
  destruct (lp_attrs levelParsed) as [[[a|] [s|]]|]; cbn -[truthy];
    repeat match goal with
           | |- context [truthy (Some ?x)] => destruct (truthy (Some x))
           end;
    cbn;
    repeat (apply Forall_alter; [|intros x _ Hx; exact Hx]); exact Hbase.
Qed.

Lemma regroup_all_urlId_in_range (parsed : list LevelParsed) :
  Forall urlId_in_range (g_levels (regroup_all chromeOrFirefox parsed)).
Proof.
  unfold regroup_all.
  set (g0 := {| g_levels := []; g_levelSet := ∅;
                g_videoCodecFound := false; g_audioCodecFound := false |}).
  assert (H0 : Forall urlId_in_range (g_levels g0)) by constructor.
  revert H0. generalize g0. clear g0.
  induction parsed as [|p parsed IH]; intros g Hg; cbn; [exact Hg|].
  apply IH. apply regroup_urlId_in_range. exact Hg.
Qed.

Lemma Forall_List_filter {A : Type} (P : A -> Prop) (p : A -> bool) (l : list A) :
  Forall P l -> Forall P (List.filter p l).
Proof.
  induction 1 as [|x l Hx _ IH]; cbn; [constructor|].
  destruct (p x); [apply Forall_cons_2|]; assumption.
Qed.

Lemma onManifestLoaded_urlId_in_range (data : ManifestLoadedData) (this : t) :
  (forall levels0, _levels this = Some levels0 -> Forall urlId_in_range levels0) ->
  forall levels,
    _levels (onManifestLoaded chromeOrFirefox isCodecSupportedInMp4 data this)
      = Some levels ->
    Forall urlId_in_range levels.
Proof.
  intros Hold levels. unfold onManifestLoaded.
  pose proof (regroup_all_urlId_in_range (ml_levels data)) as Hall.
  assert (Hsurv : Forall urlId_in_range
                    (surviving_levels isCodecSupportedInMp4
                       (regroup_all chromeOrFirefox (ml_levels data)))).
  { unfold surviving_levels. apply Forall_List_filter.
    destruct (_ && _); [apply Forall_List_filter|]; exact Hall. }
  destruct (surviving_levels _ _) as [|first rest] eqn:E.
  - cbn. apply Hold.
  - cbv zeta.
    destruct (find_bitrate _ _ _); cbn; intros [= <-];
      rewrite (sort_by_bitrate_Permutation (first :: rest)); exact Hsurv.
Qed.

End ManifestFacts.

(** C2 (the claim as stated fails). The manifest lists an audio-only
    variant of 64 kb/s first; the audio-only level is dropped, and
    [firstLevel] is 1, the place of the 1.5 Mb/s level, whose bitrate is
    not that of the manifest's first entry. *)
Lemma onManifestLoaded_firstLevel_not_first_entry :
  (LevelController.bitrate <$>
     default [] (LevelController._levels LevelController.after_audio_only_first))
    = [800000; 1500000]%Z
  /\ LevelController._firstLevel LevelController.after_audio_only_first = 1%Z
  /\ (LevelController.lp_bitrate <$>
        head (LevelController.ml_levels LevelController.audio_only_first))
     = Some 64000%Z
  /\ (LevelController.bitrate <$>
        (JS.array_get
           (default [] (LevelController._levels LevelController.after_audio_only_first))
           (LevelController._firstLevel LevelController.after_audio_only_first)))
     = Some 1500000%Z.
Proof. repeat split; vm_compute; reflexivity. Qed.

Lemma onManifestLoaded_sorted_firstLevel_witness :
  exists levels,
    LevelController._levels LevelController.after_audio_only_first = Some levels /\
    StronglySorted LevelController.bitrate_lt levels /\
    LevelController._firstLevel LevelController.after_audio_only_first = 1%Z.
Proof.
  destruct (onManifestLoaded_sorted_firstLevel false
              LevelController.every_codec_supported
              LevelController.audio_only_first
              (LevelController.constructor LevelController.retry_config)
              _ _ eq_refl)
    as (levels & firstLevel & l & parsed & Hl & _ & Hsorted & Hfirst & _).
  exists levels. split; [exact Hl|]. split; [exact Hsorted|].
  vm_compute. reflexivity.
Defined.

(* ====================================================================== *)
(** * Properties of the LevelController: the [urlId] invariant             *)
(* ====================================================================== *)

Section UrlIdFacts.

Import LevelController.
Local Open Scope Z_scope.

(** *** The three operations that keep the invariant *)

Lemma Forall_filter_from {A : Type} (P : A -> Prop)
    (callback : Z -> A -> option A) (arr : list A) :
  (forall i x y, P x -> callback i x = Some y -> P y) ->
  forall index, Forall P arr -> Forall P (filter_from callback index arr).
Proof.
  intros Hcb. induction arr as [|x arr IH]; intros index H; cbn; [constructor|].
  apply Forall_cons in H as [Hx H].
  destruct (callback index x) eqn:E; [apply Forall_cons_2; eauto | auto].
Qed.

Lemma Forall_imap_same {A : Type} (P : A -> Prop) (g : nat -> A -> A)
    (arr : list A) :
  (forall i x, P x -> P (g i x)) -> Forall P arr -> Forall P (imap g arr).
Proof.
  revert g. induction arr as [|x arr IH]; intros g Hg H; cbn; [constructor|].
  apply Forall_cons in H as [Hx H].
  apply Forall_cons_2; [apply Hg; exact Hx|].
  apply IH; [|exact H]. intros i y. apply Hg.
Qed.

(** Past the removed index nothing else is removed. *)
Lemma filter_from_past {A : Type} (urlId : Z) (arr : list A) :
  forall index, urlId < index ->
    filter_from (fun id x => if id =? urlId then None else Some x) index arr = arr.
Proof.
  induction arr as [|x arr IH]; intros index Hlt; cbn; [reflexivity|].
  destruct (index =? urlId) eqn:E; [lia|]. f_equal. apply IH. lia.
Qed.

(** Removing one index shortens an array by at most one element. *)
Lemma filter_from_length {A : Type} (urlId : Z) (arr : list A) :
  forall index,
    (length arr
     <= S (length (filter_from (fun id x => if Z.eqb id urlId then None else Some x)
                     index arr)))%nat.
Proof.
  induction arr as [|x arr IH]; intros index; cbn; [lia|].
  destruct (index =? urlId) eqn:E.
  - apply Z.eqb_eq in E. rewrite filter_from_past by lia. lia.
  - cbn. specialize (IH (index + 1)). lia.
Qed.

Lemma keep_level_urlId_in_range (levelIndex : Z) (urlId : option Z) (index : Z)
    (level level' : Level) :
  urlId_in_range level ->
  keep_level levelIndex urlId index level = Some level' ->
  urlId_in_range level'.
Proof.
  intros Hin. unfold keep_level.
  destruct (negb (index =? levelIndex)); [congruence|].
  destruct urlId as [u|]; [|discriminate].
  destruct (1 <? length (url level))%nat eqn:E; [|discriminate].
  intros [= <-]. unfold urlId_in_range. cbn.
  apply Nat.ltb_lt in E.
  pose proof (filter_from_length u (url level) 0) as Hlen.
  unfold remove_index. lia.
Qed.

Lemma removeLevel_urlId_in_range (levelIndex : Z) (urlId : option Z)
    (this this' : t) (levels : list Level) :
  _levels this = Some levels ->
  Forall urlId_in_range levels ->
  removeLevel levelIndex urlId this = Returned this' ->
  exists levels', _levels this' = Some levels' /\ Forall urlId_in_range levels'.
Proof.
  intros Hlevels Hall. unfold removeLevel. rewrite Hlevels.
  intros [= <-]. eexists. split; [reflexivity|].
  apply Forall_imap_same; [intros i x Hx; exact Hx|].
  apply Forall_filter_from; [|exact Hall].
  intros i x y. apply keep_level_urlId_in_range.
Qed.

Lemma clearTimer_levels (this : t) : _levels (clearTimer this) = _levels this.
Proof. unfold clearTimer. destruct (timer this); reflexivity. Qed.

Lemma escalate_urlId_in_range (levelIndex : Z) (levels0 levels : list Level)
    (level : Level) (fragmentError : bool) (this : t) :
  _levels this = Some levels ->
  Forall urlId_in_range levels ->
  levels !! Z.to_nat levelIndex = Some level ->
  exists levels',
    _levels (escalate levelIndex levels0 level fragmentError this) = Some levels'
    /\ Forall urlId_in_range levels'.
Proof.
  intros Hlevels Hall Hat. unfold escalate.
  destruct ((1 <? Z.of_nat (length (url level)))
            && (loadError level <? Z.of_nat (length (url level)))) eqn:E.
  - unfold update_level. rewrite Hlevels. cbn.
    eexists. split; [reflexivity|].
    apply Forall_alter; [exact Hall|].
    intros x Hx [Hlo Hhi]. assert (x = level) as -> by congruence.
    apply andb_true_iff in E as [E _]. apply Z.ltb_lt in E.
    unfold urlId_in_range. cbn.
    apply Z.rem_bound_pos; lia.
  - exists levels.
    destruct (manualLevelIndex this =? -1); [|destruct fragmentError]; cbn; auto.
Qed.

Lemma recoverLevel_urlId_in_range (errorEvent errorEvent' : ErrorData)
    (levelIndex : Z) (levelError fragmentError : bool) (this this' : t)
    (levels : list Level) :
  _levels this = Some levels ->
  Forall urlId_in_range levels ->
  recoverLevel errorEvent levelIndex levelError fragmentError this
    = Returned (this', errorEvent') ->
  exists levels', _levels this' = Some levels' /\ Forall urlId_in_range levels'.
Proof.
  intros Hlevels Hall. unfold recoverLevel. rewrite Hlevels.
  destruct (array_get levels levelIndex) as [level|] eqn:Hget; [|discriminate].
  unfold array_get in Hget.
  destruct (levelIndex <? 0) eqn:Hneg; [discriminate|].
  set (level' := set_fragmentError fragmentError
                   (set_loadError (loadError level + 1) level)).
  set (levels1 := alter (fun _ => level') (Z.to_nat levelIndex) levels).
  assert (Hall1 : Forall urlId_in_range levels1).
  { apply Forall_alter; [exact Hall|].
    intros x Hx Hin. assert (x = level) as -> by congruence. exact Hin. }
  assert (Hat1 : levels1 !! Z.to_nat levelIndex = Some level').
  { unfold levels1. rewrite list_lookup_alter_eq, Hget. reflexivity. }
  assert (Hesc : forall c, _levels c = Some levels1 ->
            exists levels',
              _levels (escalate levelIndex levels level' fragmentError c)
                = Some levels' /\ Forall urlId_in_range levels').
  { intros c Hc. eapply escalate_urlId_in_range; eauto. }
  cbv zeta. unfold update_level. rewrite Hlevels. cbn [fmap option_fmap option_map].
  fold levels1.
  destruct levelError; cbn [orb].
  - match goal with
    | |- context [if ?b then _ else _] => destruct b
    end.
    + intros [= <- _]. apply Hesc. reflexivity.
    + intros [= <- _]. rewrite clearTimer_levels. cbn. eauto.
  - destruct fragmentError.
    + intros [= <- _]. apply Hesc. reflexivity.
    + intros [= <- _]. cbn. eauto.
Qed.

(** *** The search of [onAudioTrackSwitched] *)

(** The search answers an index of the group array, or the initial -1. *)
Lemma find_groupId_range (ids : list string) (audioGroupId : option string) :
  forall start : Z,
    let found := find_groupId ids audioGroupId start in
    found = -1 \/ start <= found < start + Z.of_nat (length ids).
Proof.
  induction ids as [|id ids IH]; intros start; cbn; [left; reflexivity|].
  destruct (bool_decide (Some id = audioGroupId)); [right; lia|].
  destruct (IH (start + 1)) as [H|H]; [left; exact H | right; lia].
Qed.

(** A group that the level is not bound to is answered by -1. *)
Lemma find_groupId_absent (ids : list string) (audioGroupId : option string) :
  (forall id, id ∈ ids -> Some id <> audioGroupId) ->
  forall start : Z, find_groupId ids audioGroupId start = -1.
Proof.
  induction ids as [|id ids IH]; intros Habsent start; cbn; [reflexivity|].
  rewrite bool_decide_false by (apply Habsent, elem_of_cons; auto).
  apply IH. intros x Hx. apply Habsent, elem_of_cons. auto.
Qed.

(** C3 (the code departs from the claim). With the 1.5 Mb/s level current,
    bound to the audio group "aac" and satisfying [0 <= urlId <
    url.length], a switch to the audio track of group "ac3" makes
    [onAudioTrackSwitched] search the level's [audioGroupIds] in vain and
    store the initial -1 of the search in [urlId]. *)
Theorem onAudioTrackSwitched_stores_minus_one :
  Forall urlId_in_range [aac_level; ac3_level]
  /\ (exists this', after_switch_to_ac3 = Returned this')
  /\ (urlId <$> levels_of after_switch_to_ac3) = [-1; 0]
  /\ (url <$> levels_of after_switch_to_ac3)
     = [["https://example.com/hi.m3u8"%string];
        ["https://example.com/hi-ac3.m3u8"%string]].
Proof.
  split; [repeat constructor; cbn; lia|].
  split; [eexists; vm_compute; reflexivity|].
  split; vm_compute; reflexivity.
Qed.

End UrlIdFacts.

(* ====================================================================== *)
(** * Properties of the LevelController: error recovery                    *)
(* ====================================================================== *)

Section RecoverLevelFacts.

Import LevelController.
Local Open Scope Z_scope.

(** The escalation at the end of [recoverLevel] touches neither the timer
    nor the retry counter. *)
Lemma escalate_frame (levelIndex : Z) (levels : list Level) (level : Level)
    (fragmentError : bool) (this : t) :
  let this' := escalate levelIndex levels level fragmentError this in
  timer this' = timer this /\ timeouts this' = timeouts this /\
  levelRetryCount this' = levelRetryCount this /\
  next_handle this' = next_handle this /\ config this' = config this.
Proof.
  unfold escalate.
  repeat match goal with
         | |- context [if ?b then _ else _] => destruct b
         end; cbn; auto.
Qed.

Lemma escalate_keeps_index_cleared (levelIndex : Z) (levels : list Level)
    (level : Level) (this : t) :
  manualLevelIndex this <> -1 ->
  currentLevelIndex (escalate levelIndex levels level false this)
  = currentLevelIndex this.
Proof.
  intros Hmanual. unfold escalate.
  destruct (_ && _); [reflexivity|].
  destruct (manualLevelIndex this =? -1) eqn:E; [|reflexivity].
  apply Z.eqb_eq in E. contradiction.
Qed.

Lemma clearTimer_timer (this : t) : timer (clearTimer this) = None.
Proof. unfold clearTimer. destruct (timer this) eqn:E; [reflexivity | exact E]. Qed.

Lemma clearTimer_currentLevelIndex (this : t) :
  currentLevelIndex (clearTimer this) = currentLevelIndex this.
Proof. unfold clearTimer. destruct (timer this); reflexivity. Qed.

Lemma clearTimer_levelRetryCount (this : t) :
  levelRetryCount (clearTimer this) = levelRetryCount this.
Proof. unfold clearTimer. destruct (timer this); reflexivity. Qed.

(** No timeout of the cleared handle is left pending. *)
Lemma clearTimer_pending (this : t) (h : nat) :
  timer this = Some h ->
  Forall (fun t => handle t <> h) (timeouts (clearTimer this)).
Proof.
  intros E. unfold clearTimer. rewrite E. cbn.
  apply Forall_forall. intros x Hx. apply list_elem_of_filter in Hx. tauto.
Qed.

(** C4. [recoverLevel] on a level-scoped error, with [k] retries counted so
    far: while [k + 1 <= levelLoadingMaxRetry] it arms a [loadLevel] timer
    after [min (2^k * levelLoadingRetryDelay, levelLoadingMaxRetryTimeout)]
    ms, sets [errorEvent.levelRetry] and counts the retry; otherwise it sets
    [errorEvent.fatal], clears the current level index and clears the
    timer.  With the limits 3, 1000 ms and 8000 ms, three consecutive
    errors arm delays of 1000, 2000 and 4000 ms and the fourth is made
    fatal. *)
Theorem recoverLevel_backoff :
  (forall (this : t) (errorEvent : ErrorData) (levelIndex : Z)
          (fragmentError : bool) (levels : list Level) (level : Level),
      _levels this = Some levels ->
      array_get levels levelIndex = Some level ->
      let k := levelRetryCount this in
      let cfg := config this in
      exists this' errorEvent',
        recoverLevel errorEvent levelIndex true fragmentError this
          = Returned (this', errorEvent') /\
        if k + 1 <=? levelLoadingMaxRetry cfg then
          timer this' = Some (next_handle this) /\
          timeouts this'
            = timeouts this ++
              [{| handle := next_handle this; task := LoadLevel;
                  delay := Z.min (2 ^ k * levelLoadingRetryDelay cfg)
                                 (levelLoadingMaxRetryTimeout cfg) |}] /\
          levelRetry errorEvent' = Some true /\
          fatal errorEvent' = fatal errorEvent /\
          levelRetryCount this' = k + 1
        else
          fatal errorEvent' = true /\
          currentLevelIndex this' = None /\
          timer this' = None /\
          (forall h, timer this = Some h ->
                     Forall (fun t => handle t <> h) (timeouts this')))
  /\
  (exists this3 events3 this4 event4,
      after_timeouts 3 playing_single_level = Returned (this3, events3) /\
      List.map delay (timeouts this3) = [1000; 2000; 4000] /\
      List.map task (timeouts this3) = [LoadLevel; LoadLevel; LoadLevel] /\
      List.map levelRetry events3 = [Some true; Some true; Some true] /\
      List.map fatal events3 = [false; false; false] /\
      onError level_load_timeout this3 = Returned (this4, event4) /\
      fatal event4 = true /\
      currentLevelIndex this4 = None /\
      timer this4 = None).
Proof.
  split.
  - intros this errorEvent levelIndex fragmentError levels level Hlevels Hlevel k cfg.
    unfold recoverLevel. rewrite Hlevels, Hlevel. cbn.
    fold k. fold cfg.
    destruct (k + 1 <=? levelLoadingMaxRetry cfg) eqn:Hretry.
    + eexists _, _. split; [reflexivity|].
      match goal with
      | |- context [escalate ?i ?ls ?l ?f ?c] =>
          destruct (escalate_frame i ls l f c) as (Ht & Hts & Hk & _ & _);
          rewrite Ht, Hts, Hk
      end.
      cbn. auto.
    + eexists _, _. split; [reflexivity|]. cbn.
      split; [reflexivity|]. split.
      { rewrite clearTimer_currentLevelIndex. reflexivity. }
      split; [apply clearTimer_timer|].
      intros h Hh. apply clearTimer_pending. exact Hh.
  - eexists _, _, _, _. split; [vm_compute; reflexivity|].
    repeat split; vm_compute; reflexivity.
Qed.

Lemma recoverLevel_backoff_witness :
  exists this' errorEvent',
    recoverLevel level_load_timeout 0 true false playing_single_level
      = Returned (this', errorEvent') /\
    List.map delay (timeouts this') = [1000] /\
    levelRetry errorEvent' = Some true /\
    levelRetryCount this' = 1.
Proof.
  destruct (proj1 recoverLevel_backoff playing_single_level level_load_timeout
              0 false [single_level] single_level eq_refl eq_refl)
    as (this' & errorEvent' & Hrun & Hrest).
  exists this', errorEvent'.
  change (levelRetryCount playing_single_level + 1
          <=? levelLoadingMaxRetry (config playing_single_level)) with true in Hrest.
  destruct Hrest as (_ & Hts & Hretry & _ & Hk).
  split; [exact Hrun|]. split; [rewrite Hts; reflexivity|].
  split; [exact Hretry | exact Hk].
Defined.

End RecoverLevelFacts.

(* ====================================================================== *)
(** * Properties of the LevelController: low-latency reload                *)
(* ====================================================================== *)

Section LowLatencyFacts.

Import LevelController.
Local Open Scope Z_scope.

(** The request of [loadLowLatencyLevel] when loading is allowed. *)
Lemma loadLowLatencyLevel_request (d : LevelDetails.t) (level id : Z) (that : t)
    (serverControl : LevelDetails.ServerControl) :
  canLoad that = true ->
  LevelDetails.serverControl d = Some serverControl ->
  let advance := match LevelDetails.updated d with Some true => 1 | _ => 0 end in
  let N := (if currentSn that =? -1 then LevelDetails.endSN d else currentSn that)
           + advance in
  exists that',
    loadLowLatencyLevel d level id that = Returned that' /\
    triggered that'
      = triggered that ++
        [LEVEL_LOADING
           (Some (JS.before_question_mark (LevelDetails.url d)
                  ++ "?_HLS_msn=" ++ pretty N)%string)
           level id] /\
    currentSn that' = N.
Proof.
  intros Hload Hsc. unfold loadLowLatencyLevel. rewrite Hload, Hsc. cbn.
  destruct (LevelDetails.updated d) as [[|]|]; cbn;
    eexists; (split; [reflexivity|]); split;
    rewrite ?Z.add_0_r; reflexivity.
Qed.


(** When the armed timeout fires, its task is what runs. *)
Lemma fire_runs_armed_task (tk : TimerTask) (ms : Z) (this : t) :
  Forall (fun t => handle t <> next_handle this) (timeouts this) ->
  fire (next_handle this) (arm_timer tk ms this)
  = match tk with
    | LoadLevel => loadLevel
    | LoadLowLatencyLevel d level id => loadLowLatencyLevel d level id
    end
      {| _levels := _levels this; _firstLevel := _firstLevel this;
         canLoad := canLoad this; currentLevelIndex := currentLevelIndex this;
         levelRetryCount := levelRetryCount this;
         manualLevelIndex := manualLevelIndex this;
         timer := Some (next_handle this);
         currentSn := currentSn this; currentPart := currentPart this;
         config := config this; nextAutoLevel := nextAutoLevel this;
         audioTracks := audioTracks this;
         timeouts := timeouts this;
         next_handle := S (next_handle this); triggered := triggered this |}.
Proof.
  intros Hfresh. unfold fire, arm_timer. cbn.
  assert (Hfind : List.find (fun t => Nat.eqb (handle t) (next_handle this))
                    (timeouts this ++
                     [{| handle := next_handle this; task := tk; delay := ms |}])
                  = Some {| handle := next_handle this; task := tk; delay := ms |}).
  { induction Hfresh as [|x l Hx _ IH]; cbn.
    - rewrite Nat.eqb_refl. reflexivity.
    - destruct (Nat.eqb (handle x) (next_handle this)) eqn:E; [|exact IH].
      apply Nat.eqb_eq in E. contradiction. }
  rewrite Hfind. cbn.
  assert (Hfilter : filter (fun t => handle t <> next_handle this)
                      (timeouts this ++
                       [{| handle := next_handle this; task := tk; delay := ms |}])
                    = timeouts this).
  { rewrite filter_app, filter_cons_False, filter_nil, app_nil_r by (cbn; tauto).
    clear Hfind. induction Hfresh as [|x l Hx _ IH]; [reflexivity|].
    rewrite filter_cons_True by exact Hx. f_equal. exact IH. }
  rewrite Hfilter. destruct tk; reflexivity.
Qed.


End LowLatencyFacts.

(* ====================================================================== *)
(** * Properties of the TimelineController                                 *)
(* ====================================================================== *)

Section AddCuesFacts.

Import TimelineController.

Lemma Qlt_bool_iff (x y : Q) : Qlt_bool x y = true <-> (x < y)%Q.
Proof.
  unfold Qlt_bool. rewrite negb_true_iff.
  split.
  - intros H. apply Qnot_le_lt. intros Hle.
    apply Qle_bool_iff in Hle. congruence.
  - intros H. destruct (Qle_bool y x) eqn:E; [|reflexivity].
    apply Qle_bool_iff in E. apply Qlt_not_le in H. contradiction.
Qed.

(** The quotient test of the loop, in terms of the two lengths. *)
Lemma gt_div_half (overlap len : Q) :
  (0 <= len)%Q ->
  gt (div overlap len) (1 # 2) = true <-> ((1 # 2) * len < overlap)%Q.
Proof.
  intros Hlen. unfold div.
  destruct (Qeq_bool len 0) eqn:Hz.
  - apply Qeq_bool_iff in Hz.
    destruct (overlap ?= 0)%Q eqn:Hc; cbn.
    + apply Qeq_alt in Hc. split; [discriminate|]. intros H.
      rewrite Hz, Hc in H. lra.
    + apply Qlt_alt in Hc. split; [discriminate|]. intros H.
      rewrite Hz in H. lra.
    + apply Qgt_alt in Hc. split; [|reflexivity]. intros _. rewrite Hz. lra.
  - apply Qeq_bool_neq in Hz. cbn. rewrite Qlt_bool_iff.
    assert (Hpos : (0 < len)%Q).
    { apply Qle_lt_or_eq in Hlen as [H|H]; [exact H|].
      exfalso. apply Hz. symmetry. exact H. }
    pose proof (Qmult_div_r overlap len Hz) as Hq.
    rewrite <- (Qmult_lt_l (1 # 2) (overlap / len) len Hpos).
    rewrite Hq. rewrite (Qmult_comm len (1 # 2)). reflexivity.
Qed.

(** The test that ends the loop early is the test for an overlap of more
    than half of the new range. *)
Lemma over_half_test (startTime endTime : Q) (r : Q * Q) :
  (startTime <= endTime)%Q ->
  touches startTime endTime r
  && gt (div (intersection (fst r) (snd r) startTime endTime)
           (endTime - startTime)) (1 # 2) = true
  <-> over_half startTime endTime r.
Proof.
  intros Hle. unfold over_half, touches.
  assert (Hlen : (0 <= endTime - startTime)%Q) by lra.
  rewrite andb_true_iff, Qle_bool_iff, (gt_div_half _ _ Hlen).
  split; [tauto|]. intros H. split; [lra | exact H].
Qed.

Lemma merge_cue_spec (startTime endTime : Q) (ranges_rev : list (Q * Q)) :
  (startTime <= endTime)%Q ->
  forall merged : bool,
    let '(out, merged', returned) :=
      merge_cue ranges_rev startTime endTime merged in
    (returned = true <-> Exists (over_half startTime endTime) ranges_rev) /\
    (returned = false ->
     out = List.map (widen startTime endTime) ranges_rev /\
     merged' = merged || existsb (touches startTime endTime) ranges_rev).
Proof.
  intros Hle.
  induction ranges_rev as [|r rest IH]; intros merged; cbn.
  - split; [|intros _; rewrite orb_false_r; auto].
    split; [discriminate|]. intros H. apply Exists_nil in H. contradiction.
  - pose proof (over_half_test startTime endTime r Hle) as Htest.
    unfold widen. fold (touches startTime endTime r).
    destruct (touches startTime endTime r) eqn:Ht.
    + destruct (gt _ _) eqn:Hgt.
      * split; [|discriminate]. split; [|reflexivity].
        intros _. apply Exists_cons. left. apply Htest. reflexivity.
      * specialize (IH true).
        destruct (merge_cue rest startTime endTime true) as [[out m] ret].
        destruct IH as [IHret IHout].
        assert (Hnot : ~ over_half startTime endTime r).
        { intros H. apply Htest in H. discriminate. }
        split.
        -- rewrite Exists_cons, IHret. tauto.
        -- intros Hret. destruct (IHout Hret) as [-> ->].
           split; [reflexivity|]. cbn. rewrite orb_true_r. reflexivity.
    + specialize (IH merged).
      destruct (merge_cue rest startTime endTime merged) as [[out m] ret].
      destruct IH as [IHret IHout].
      assert (Hnot : ~ over_half startTime endTime r).
      { intros H. apply Htest in H. discriminate. }
      split.
      * rewrite Exists_cons, IHret. tauto.
      * intros Hret. destruct (IHout Hret) as [-> ->]. auto.
Qed.





End AddCuesFacts.



Section InitPtsFacts.

Import TimelineController.
Local Open Scope Z_scope.

(** Case analysis on every test a handler makes. *)
Ltac handler_cases :=
  repeat match goal with
         | |- context [match ?x with _ => _ end] =>
             destruct x eqn:?; try discriminate; cbn
         | |- context [if ?b then _ else _] =>
             destruct b eqn:?; try discriminate; cbn
         end.

Lemma onFragLoaded_initPTS (data : FragLoadedData) (this this' : t) :
  onFragLoaded data this = Returned this' -> initPTS this' = initPTS this.
Proof.
  unfold onFragLoaded, finite_initPTS.
  destruct (LevelDetails.type (frag data)); cbn;
    [ | destruct (initPTS this) eqn:Hpts | ]; cbn;
    handler_cases; intros [= <-]; cbn; auto.
Qed.

Lemma reissue_initPTS (frags : list FragLoadedData) :
  forall this this', reissue frags this = Returned this' ->
                     initPTS this' = initPTS this.
Proof.
  induction frags as [|data frags IH]; intros this this'; cbn.
  - intros [= <-]. reflexivity.
  - destruct (onFragLoaded data this) as [this1|] eqn:E; cbn; [|discriminate].
    intros H. apply IH in H. apply onFragLoaded_initPTS in E. congruence.
Qed.

Lemma onInitPtsFound_initPTS_defined (data : InitPTSFoundData) (this this' : t) :
  is_Some (initPTS this) ->
  onInitPtsFound data this = Returned this' ->
  is_Some (initPTS this').
Proof.
  intros [arr Harr]. unfold onInitPtsFound. cbn -[reissue]. rewrite Harr.
  destruct (String.eqb (ipf_id data) "main"); cbn -[reissue];
    destruct (unparsedVttFrags this) eqn:Hu; cbn -[reissue];
    try (intros [= <-]; cbn; eauto);
    intros H; apply reissue_initPTS in H; rewrite H; cbn; eauto.
Qed.

Lemma addCues_initPTS (trackName : string) (startTime endTime : Q) (this : t) :
  initPTS (addCues trackName startTime endTime this) = initPTS this.
Proof.
  unfold addCues.
  destruct (merge_cue _ _ _ _) as [[ranges_rev merged] returned].
  destruct returned; [reflexivity|].
  cbn. destruct (renderTextTracksNatively (config this)); reflexivity.
Qed.

Lemma handle_initPTS_defined (input : Input) (this this' : t) :
  is_Some (initPTS this) ->
  handle input this = Returned this' ->
  is_Some (initPTS this').
Proof.
  intros Hdef. destruct input; cbn.
  - intros [= <-]. exact Hdef.
  - intros [= <-]. unfold onManifestLoaded.
    destruct (_ || _); cbn; eauto.
  - intros H. apply onFragLoaded_initPTS in H. rewrite H. exact Hdef.
  - unfold onFragDecrypted, finite_initPTS.
    destruct (LevelDetails.type (frag data)); try (intros [= <-]; exact Hdef).
    destruct Hdef as [arr Harr]. rewrite Harr. cbn.
    destruct (mjoin (arr !! LevelDetails.cc (frag data))).
    + intros H. apply onFragLoaded_initPTS in H. rewrite H, Harr. eauto.
    + intros [= <-]. cbn. rewrite Harr. eauto.
  - apply onInitPtsFound_initPTS_defined. exact Hdef.
  - unfold onFragParsingInitSegment. destruct Hdef as [arr Harr]. rewrite Harr.
    intros [= <-]. rewrite Harr. eauto.
  - intros [= <-]. exact Hdef.
  - intros [= <-]. rewrite addCues_initPTS. exact Hdef.
Qed.

(** The field [initPTS] always holds an array. *)
Lemma reachable_initPTS_defined (this : t) :
  reachable this -> is_Some (initPTS this).
Proof.
  induction 1 as [cfg | input this this' _ IH Hstep].
  - cbn. eauto.
  - eapply handle_initPTS_defined; eauto.
Qed.

(** C8 (the code departs from the claim). In every state the controller can
    be in, [initPTS] is an array, the test [typeof this.initPTS ===
    'undefined'] fails, and [onFragParsingInitSegment] returns without
    entering the [INIT_PTS_FOUND] handling: the state, the initial PTS table
    included, is left as it was, also when no initial PTS was ever
    observed. *)
Theorem onFragParsingInitSegment_does_nothing (this : t) :
  reachable this ->
  onFragParsingInitSegment this = Returned this.
Proof.
  intros Hreach. unfold onFragParsingInitSegment.
  destruct (reachable_initPTS_defined this Hreach) as [arr Harr].
  rewrite Harr. reflexivity.
Qed.

Lemma onFragParsingInitSegment_does_nothing_witness :
  initPTS audio_only_stream = Some []
  /\ effects audio_only_stream = []
  /\ onFragParsingInitSegment audio_only_stream = Returned audio_only_stream.
Proof.
  split; [reflexivity|]. split; [reflexivity|].
  apply onFragParsingInitSegment_does_nothing.
  apply (reach_step (MANIFEST_LOADED []) (onManifestLoading (constructor default_config))).
  - apply (reach_step MANIFEST_LOADING (constructor default_config)).
    + apply reach_new.
    + reflexivity.
  - reflexivity.
Defined.

End InitPtsFacts.

Section Cea608.

Import TimelineController.
Local Open Scope Z_scope.

Lemma land_7F_range (b : Z) : 0 <= Z.land 0x7F b <= 0x7F.
Proof.
  split.
  - apply Z.land_nonneg. left. lia.
  - rewrite Z.land_comm. change 0x7F with (Z.ones 7).
    rewrite Z.land_ones by lia.
    pose proof (Z.mod_pos_bound b (2 ^ 7) ltac:(lia)).
    change (Z.ones 7) with (2 ^ 7 - 1). lia.
Qed.

Lemma pairs_snoc (field : list Z) (b1 b2 : Z) :
  Nat.Even (length field) ->
  pairs ((field ++ [b1]) ++ [b2]) = pairs field ++ [(b1, b2)].
Proof.
  intros [k Hk]. revert field Hk.
  induction k as [|k IH]; intros field Hk.
  - destruct field; [reflexivity | simpl in Hk; lia].
  - destruct field as [|x [|y rest]]; simpl in Hk; try lia.
    simpl. f_equal. apply IH. lia.
Qed.

Lemma field_ok_nil : field_ok [].
Proof.
  split; [exists 0%nat; reflexivity | constructor | constructor].
Qed.

Lemma field_ok_push (field : list Z) (raw1 raw2 : Z) :
  field_ok field ->
  (Z.land 0x7F raw1 =? 0) && (Z.land 0x7F raw2 =? 0) = false ->
  field_ok ((field ++ [Z.land 0x7F raw1]) ++ [Z.land 0x7F raw2]).
Proof.
  intros [Hev Hrange Hnz] Hpair. split.
  - destruct Hev as [k Hk]. exists (S k).
    rewrite !length_app. simpl. lia.
  - rewrite !Forall_app. repeat split; auto;
      repeat constructor; apply land_7F_range.
  - rewrite pairs_snoc by assumption.
    rewrite Forall_app. split; [assumption|].
    constructor; [|constructor]. simpl. intros [H1 H2].
    rewrite H1, H2 in Hpair. discriminate.
Qed.

Lemma push_field_length (ccType b : Z) (fields : list (list Z)) :
  length (push_field ccType b fields) = length fields.
Proof. unfold push_field. apply length_alter. Qed.

(** Pushing a pair into field 0 or 1 of a two-field result keeps both
  fields well formed. *)
Lemma push_pair_ok (ccType raw1 raw2 : Z) (fields : list (list Z)) :
  length fields = 2%nat ->
  Forall field_ok fields ->
  (Z.land 0x7F raw1 =? 0) && (Z.land 0x7F raw2 =? 0) = false ->
  (ccType =? 0) || (ccType =? 1) = true ->
  Forall field_ok
    (push_field ccType (Z.land 0x7F raw2)
       (push_field ccType (Z.land 0x7F raw1) fields)).
Proof.
  intros Hlen Hok Hpair Hty.
  destruct fields as [|f0 [|f1 [|? ?]]]; try discriminate.
  apply Forall_cons in Hok as [H0 Hok].
  apply Forall_cons in Hok as [H1 _].
  apply orb_true_iff in Hty as [Hty|Hty]; apply Z.eqb_eq in Hty; subst ccType;
    cbn; repeat (apply Forall_cons_2 || apply Forall_nil_2);
    auto using field_ok_push.
Qed.

Lemma extract_loop_ok (n : nat) (byteArray : list Z) :
  forall (position : nat) (fields : list (list Z)),
    (position + 3 * n <= length byteArray)%nat ->
    length fields = 2%nat ->
    Forall field_ok fields ->
    exists fields',
      extract_loop n byteArray position fields = Some fields' /\
      length fields' = 2%nat /\ Forall field_ok fields'.
Proof.
  induction n as [|n IH]; intros position fields Hlen H2 Hok.
  - exists fields. auto.
  - destruct (lookup_lt_is_Some_2 byteArray position ltac:(lia)) as [t Ht].
    destruct (lookup_lt_is_Some_2 byteArray (position + 1) ltac:(lia)) as [r1 Hr1].
    destruct (lookup_lt_is_Some_2 byteArray (position + 2) ltac:(lia)) as [r2 Hr2].
    cbn [extract_loop]. rewrite Ht, Hr1, Hr2. cbn [mbind option_bind].
    destruct ((Z.land 0x7F r1 =? 0) && (Z.land 0x7F r2 =? 0)) eqn:Hpair.
    + apply IH; auto; lia.
    + destruct (negb (Z.land 4 t =? 0)
                && ((Z.land 3 t =? 0) || (Z.land 3 t =? 1))) eqn:Hv.
      * apply andb_true_iff in Hv as [_ Hty].
        apply IH; [lia | now rewrite !push_field_length |].
        now apply push_pair_ok.
      * apply IH; auto; lia.
Qed.

(** C10. For a byte array of length at least [2 + 3 * (byteArray[0] & 0x1F)],
  [extractCea608Data] reads only inside the array (the run is [Some _]),
  returns exactly two fields, every returned byte lies in [0, 0x7F],
  and no returned pair has both bytes zero (each field is made of whole
  pairs). *)
Theorem extractCea608Data_safe (byteArray : list Z) (byte0 : Z) :
  byteArray !! 0%nat = Some byte0 ->
  2 + 3 * Z.land byte0 0x1F <= Z.of_nat (length byteArray) ->
  exists fields,
    extractCea608Data byteArray = Some fields /\
    length fields = 2%nat /\
    Forall (Forall (fun b => 0 <= b <= 0x7F)) fields /\
    Forall (fun field =>
              Nat.Even (length field) /\
              Forall (fun p => ~ (fst p = 0 /\ snd p = 0)) (pairs field))
           fields.
Proof.
  intros H0 Hlen. unfold extractCea608Data. rewrite H0. cbn [mbind option_bind].
  assert (Hc : 0 <= Z.land byte0 31).
  { rewrite Z.land_comm. apply Z.land_nonneg. left. lia. }
  destruct (extract_loop_ok (Z.to_nat (Z.land byte0 31)) byteArray 2 [[]; []])
    as (fields & Hrun & Hl & Hok).
  - lia.
  - reflexivity.
  - repeat constructor; apply field_ok_nil.
  - exists fields. repeat split; auto.
    + eapply Forall_impl; [exact Hok|]. intros f Hf. apply Hf.
    + eapply Forall_impl; [exact Hok|]. intros f Hf.
      split; apply Hf.
Qed.

Lemma extractCea608Data_safe_witness :
  exists fields,
    extractCea608Data [0xC2; 0xFF; 0xFC; 0x94; 0x2C; 0xFD; 0x80; 0x80] = Some fields /\
    length fields = 2%nat /\
    Forall (Forall (fun b => 0 <= b <= 0x7F)) fields /\
    Forall (fun field =>
              Nat.Even (length field) /\
              Forall (fun p => ~ (fst p = 0 /\ snd p = 0)) (pairs field))
           fields.
Proof.
  apply (extractCea608Data_safe [0xC2; 0xFF; 0xFC; 0x94; 0x2C; 0xFD; 0x80; 0x80] 0xC2).
  - reflexivity.
  - vm_compute. discriminate.
Defined.

End Cea608.

(* ====================================================================== *)
(** * Further properties of the BufferOperationQueue                       *)
(* ====================================================================== *)

Section BufferOperationQueueOrder.

Import BufferOperationQueue.

Lemma append_behind (op : BufferOperation) (type : SourceBufferName) (this : t)
    (head : BufferOperation) (rest : list BufferOperation) :
  get_queue (queues this) type = head :: rest ->
  calls (append op type this) = calls this
  /\ buffers (append op type this) = buffers this
  /\ get_queue (queues (append op type this)) type = head :: rest ++ [op].
Proof.
  intros Hq. unfold append. rewrite Hq. cbn.
  destruct (rest ++ [op]) eqn:E; [destruct rest; discriminate|].
  cbn. rewrite get_set_queue. auto.
Qed.

Lemma append_all_cons (op : BufferOperation) (ops : list BufferOperation)
    (type : SourceBufferName) (this : t) :
  append_all (op :: ops) type this = append_all ops type (append op type this).
Proof. reflexivity. Qed.

Lemma append_all_behind (ops : list BufferOperation) (type : SourceBufferName) :
  forall (this : t) (head : BufferOperation) (rest : list BufferOperation),
    get_queue (queues this) type = head :: rest ->
    calls (append_all ops type this) = calls this
    /\ get_queue (queues (append_all ops type this)) type = head :: rest ++ ops.
Proof.
  induction ops as [|op ops IH]; intros this head rest Hq.
  - cbn. rewrite app_nil_r. auto.
  - destruct (append_behind op type this head rest Hq) as (Hc & _ & Hq').
    destruct (IH _ _ _ Hq') as [Hc2 Hq2].
    rewrite append_all_cons, Hc2, Hc, Hq2, <- app_assoc. auto.
Qed.

Lemma append_first (op : BufferOperation) (type : SourceBufferName) (this : t) :
  get_queue (queues this) type = [] ->
  is_Some (get_buffer (buffers this) type) ->
  never_throws op ->
  calls (append op type this) = calls this ++ [CallExecute (op_id op)]
  /\ get_queue (queues (append op type this)) type = [op].
Proof.
  intros Hq Hsb Hop. unfold append. rewrite Hq. cbn.
  rewrite bool_decide_true by exact Hsb.
  unfold executeNext. cbn. rewrite get_set_queue.
  specialize (Hop (buffers this)).
  destruct (execute op (buffers this)) as [bufs' [e|]]; [discriminate|].
  cbn. rewrite get_set_queue. auto.
Qed.

Lemma shiftAndExecuteNext_next (type : SourceBufferName) (this : t)
    (head next : BufferOperation) (rest : list BufferOperation) :
  get_queue (queues this) type = head :: next :: rest ->
  never_throws next ->
  calls (shiftAndExecuteNext type this) = calls this ++ [CallExecute (op_id next)]
  /\ get_queue (queues (shiftAndExecuteNext type this)) type = next :: rest.
Proof.
  intros Hq Hop. unfold shiftAndExecuteNext, executeNext. cbn.
  rewrite get_set_queue, Hq. cbn.
  specialize (Hop (buffers this)).
  destruct (execute next (buffers this)) as [bufs' [e|]]; [discriminate|].
  cbn. rewrite get_set_queue. auto.
Qed.

Lemma shift_times_S (k : nat) (type : SourceBufferName) (this : t) :
  shift_times (S k) type this = shiftAndExecuteNext type (shift_times k type this).
Proof. reflexivity. Qed.

Lemma shift_times_order (k : nat) (type : SourceBufferName) :
  forall (this : t) (ops : list BufferOperation),
    get_queue (queues this) type = ops ->
    Forall never_throws ops ->
    (k < length ops)%nat ->
    calls (shift_times k type this)
      = calls this ++ List.map (fun op => CallExecute (op_id op))
                        (take k (drop 1 ops))
    /\ get_queue (queues (shift_times k type this)) type = drop k ops.
Proof.
  induction k as [|k IH]; intros this ops Hq Hall Hlen.
  - cbn. rewrite take_0, app_nil_r. auto.
  - assert (Hk : (k < length ops)%nat) by lia.
    destruct (IH this ops Hq Hall Hk) as [Hc Hqk].
    assert (Hk1 : is_Some (ops !! S k)) by (apply lookup_lt_is_Some; lia).
    destruct Hk1 as [next Hnext].
    assert (Hk0 : is_Some (ops !! k)) by (apply lookup_lt_is_Some; lia).
    destruct Hk0 as [head Hhead].
    assert (Hdrop : drop k ops = head :: next :: drop (S (S k)) ops).
    { rewrite (drop_S _ _ _ Hhead), (drop_S _ _ _ Hnext). reflexivity. }
    assert (Hthrows : never_throws next).
    { eapply Forall_lookup_1; eauto. }
    rewrite Hdrop in Hqk.
    destruct (shiftAndExecuteNext_next type _ head next _ Hqk Hthrows)
      as [Hc' Hq'].
    rewrite shift_times_S, Hc', Hc, Hq', <- app_assoc. split.
    + f_equal.
      assert (Hat : drop 1 ops !! k = Some next).
      { rewrite lookup_drop. exact Hnext. }
      rewrite (take_S_r _ _ _ Hat), map_app. reflexivity.
    + rewrite (drop_S _ _ _ Hnext). reflexivity.
Qed.

(** X1. First in, first out: operations that return normally, appended to
    an empty queue whose buffer exists, are executed one per [updateend],
    in the order they were appended and each once.  After [k] calls of
    [shiftAndExecuteNext] the first [k + 1] operations have been executed
    and the queue holds the operations from the [k]-th on. *)
Theorem append_all_then_shift_is_fifo (this : t) (type : SourceBufferName)
    (ops : list BufferOperation) (k : nat) :
  get_queue (queues this) type = [] ->
  is_Some (get_buffer (buffers this) type) ->
  Forall never_throws ops ->
  (k < length ops)%nat ->
  let this' := shift_times k type (append_all ops type this) in
  calls this'
    = calls this ++ List.map (fun op => CallExecute (op_id op)) (take (S k) ops)
  /\ get_queue (queues this') type = drop k ops.
Proof.
  intros Hq Hsb Hall Hlen.
  destruct ops as [|first ops]; [cbn in Hlen; lia|].
  apply Forall_cons in Hall as [Hfirst Hall].
  destruct (append_first first type this Hq Hsb Hfirst) as [Hc1 Hq1].
  destruct (append_all_behind ops type _ first [] Hq1) as [Hc2 Hq2].
  cbn [app] in Hq2.
  destruct (shift_times_order k type (append_all (first :: ops) type this)
              (first :: ops) Hq2 (Forall_cons_2 _ _ _ Hfirst Hall) Hlen)
    as [Hc Hqk].
  cbn zeta. split; [|exact Hqk].
  rewrite Hc, append_all_cons, Hc2, Hc1, <- app_assoc. reflexivity.
Qed.

Lemma append_all_then_shift_is_fifo_witness :
  calls (shift_times 1 video
           (append_all [appendOp 7 video; blocker 8; appendOp 9 video] video
              (constructor idle_sink)))
  = [CallExecute 7; CallExecute 8]
  /\ get_queue (queues (shift_times 1 video
                          (append_all [appendOp 7 video; blocker 8; appendOp 9 video]
                             video (constructor idle_sink)))) video
     = [blocker 8; appendOp 9 video].
Proof.
  apply (append_all_then_shift_is_fifo (constructor idle_sink) video
           [appendOp 7 video; blocker 8; appendOp 9 video] 1%nat).
  - reflexivity.
  - cbn. eauto.
  - repeat constructor.
  - cbn. lia.
Defined.

Lemma append_without_buffer_one (op : BufferOperation) (type : SourceBufferName)
    (this : t) :
  get_buffer (buffers this) type = None ->
  calls (append op type this) = calls this
  /\ buffers (append op type this) = buffers this
  /\ get_queue (queues (append op type this)) type
     = get_queue (queues this) type ++ [op].
Proof.
  intros Hsb. unfold append. rewrite Hsb.
  rewrite bool_decide_false by (intros [x Hx]; discriminate).
  rewrite andb_false_r. cbn. rewrite get_set_queue. auto.
Qed.

(** X2. While the source buffer of a type does not exist, [append] starts
    nothing: whatever is appended only accumulates in the queue, in order,
    and no [execute] or [onError] is called. *)
Theorem append_without_buffer_starts_nothing (ops : list BufferOperation)
    (type : SourceBufferName) (this : t) :
  get_buffer (buffers this) type = None ->
  calls (append_all ops type this) = calls this
  /\ get_queue (queues (append_all ops type this)) type
     = get_queue (queues this) type ++ ops.
Proof.
  revert this. induction ops as [|op ops IH]; intros this Hsb.
  - cbn. rewrite app_nil_r. auto.
  - destruct (append_without_buffer_one op type this Hsb) as (Hc & Hb & Hq).
    destruct (IH (append op type this)) as [Hc2 Hq2]; [rewrite Hb; exact Hsb|].
    rewrite append_all_cons, Hc2, Hq2, Hc, Hq, <- app_assoc. auto.
Qed.

Lemma append_without_buffer_starts_nothing_witness :
  calls (append_all [opA; opB] audio (constructor idle_sink)) = []
  /\ get_queue (queues (append_all [opA; opB] audio (constructor idle_sink))) audio
     = [opA; opB].
Proof.
  apply (append_without_buffer_starts_nothing [opA; opB] audio
           (constructor idle_sink)).
  reflexivity.
Defined.

Lemma executeNext_other_queue (type : SourceBufferName) (this : t) :
  get_queue (queues (executeNext type this)) (other type)
  = get_queue (queues this) (other type).
Proof.
  unfold executeNext.
  destruct (get_queue (queues this) type) as [|operation rest]; [reflexivity|].
  destruct (execute operation (buffers this)) as [bufs' [e|]]; cbn; [|reflexivity].
  destruct (not_updating _ _ _); [|reflexivity].
  apply get_set_queue_ne. destruct type; discriminate.
Qed.

(** X3. The two queues are independent: an [append], an [executeNext] or a
    [shiftAndExecuteNext] for one track type never adds to, removes from or
    reorders the queue of the other type, also when the executed operation
    throws. *)
Theorem queue_of_other_type_untouched (op : BufferOperation)
    (type : SourceBufferName) (this : t) :
  get_queue (queues (append op type this)) (other type)
    = get_queue (queues this) (other type)
  /\ get_queue (queues (executeNext type this)) (other type)
     = get_queue (queues this) (other type)
  /\ get_queue (queues (shiftAndExecuteNext type this)) (other type)
     = get_queue (queues this) (other type).
Proof.
  assert (Hne : type <> other type) by (destruct type; discriminate).
  split; [|split].
  - unfold append.
    destruct (_ && _); [rewrite executeNext_other_queue|]; cbn;
      apply get_set_queue_ne; exact Hne.
  - apply executeNext_other_queue.
  - unfold shiftAndExecuteNext. rewrite executeNext_other_queue. cbn.
    apply get_set_queue_ne. exact Hne.
Qed.

End BufferOperationQueueOrder.

(* ====================================================================== *)
(** * Further properties of the PlaybackRateController                     *)
(* ====================================================================== *)

Section PlaybackRateDirection.

Import PlaybackRateController.
Local Open Scope R_scope.

Variable bufferInfo : Media -> R -> R -> BufferInfo.

Lemma sigmoid_strictly_monotone (x y x0 : R) :
  x < y -> sigmoid x x0 < sigmoid y x0.
Proof.
  intros Hxy. unfold sigmoid, L.
  pose proof (exp_pos (- k * (x - x0))) as Hx.
  pose proof (exp_pos (- k * (y - x0))) as Hy.
  assert (He : exp (- k * (y - x0)) < exp (- k * (x - x0))).
  { apply exp_increasing. unfold k. lra. }
  unfold Rdiv. apply Rmult_lt_compat_l; [lra|].
  apply Rinv_lt_contravar; [|lra].
  apply Rmult_lt_0_compat; lra.
Qed.



Lemma sigmoid_at_target (x0 : R) : sigmoid x0 x0 = 1.
Proof.
  unfold sigmoid, L. replace (- k * (x0 - x0)) with 0 by (unfold k; lra).
  rewrite exp_0. lra.
Qed.

(** X5. The controller pushes the buffer towards the target: the rate
    written by a tick is above 1 exactly when the forward buffer is longer
    than [latencyTarget], and below 1 exactly when it is shorter than
    [latencyTarget - refreshLatency]. *)
Theorem doTick_rate_direction (this : t) (m : Media) :
  reachable bufferInfo this ->
  media this = Some m ->
  let bufferLength := len (bufferInfo m (currentTime m) (maxBufferHole this)) in
  exists m',
    media (doTick bufferInfo this) = Some m' /\
    (1 < playbackRate m' <-> latencyTarget this < bufferLength) /\
    (playbackRate m' < 1 <-> bufferLength < latencyTarget this - refreshLatency this).
Proof.
  intros Hreach Hm bufferLength.
  assert (Hconst : latencyTarget this = 3 /\ refreshLatency this = 1).
  { clear Hm bufferLength m.
    induction Hreach as [c|m0 this _ IH|this _ IH|this _ IH]; cbn; auto.
    unfold doTick. destruct (media this); cbn; auto. }
  destruct Hconst as [Hlt Hrl].
  unfold doTick. rewrite Hm. cbn. fold bufferLength.
  eexists. split; [reflexivity|]. cbn.
  pose proof (sigmoid_at_target (latencyTarget this)) as Hone.
  destruct (Rltb (latencyTarget this - bufferLength) 0
            || Rltb (refreshLatency this) (latencyTarget this - bufferLength))
    eqn:Hcond.
  - apply orb_true_iff in Hcond as [H|H].
    + unfold Rltb in H. destruct (Rlt_dec _ _) as [Hd|]; [|discriminate].
      assert (Hup : 1 < sigmoid bufferLength (latencyTarget this)).
      { pose proof (sigmoid_strictly_monotone (latencyTarget this) bufferLength
                      (latencyTarget this) ltac:(lra)) as Hs.
        rewrite Hone in Hs. exact Hs. }
      split; split; intros; lra.
    + unfold Rltb in H. destruct (Rlt_dec _ _) as [Hd|]; [|discriminate].
      assert (Hdown : sigmoid bufferLength (latencyTarget this) < 1).
      { pose proof (sigmoid_strictly_monotone bufferLength (latencyTarget this)
                      (latencyTarget this) ltac:(lra)) as Hs.
        rewrite Hone in Hs. exact Hs. }
      split; split; intros; lra.
  - apply orb_false_iff in Hcond as [H1 H2].
    unfold Rltb in H1, H2.
    destruct (Rlt_dec _ _) as [|Hd1] in H1; [discriminate|].
    destruct (Rlt_dec _ _) as [|Hd2] in H2; [discriminate|].
    split; split; intros; lra.
Qed.

End PlaybackRateDirection.

Lemma doTick_rate_direction_witness :
  exists m',
    PlaybackRateController.media
      (PlaybackRateController.doTick PlaybackRateController.empty_bufferInfo
         PlaybackRateController.just_attached) = Some m' /\
    (PlaybackRateController.playbackRate m' < 1)%R.
Proof.
  destruct (doTick_rate_direction PlaybackRateController.empty_bufferInfo
              PlaybackRateController.just_attached
              PlaybackRateController.silent_media)
    as (m' & Hm' & _ & Hlow).
  - apply PlaybackRateController.reach_attached, PlaybackRateController.reach_new.
  - reflexivity.
  - exists m'. split; [exact Hm'|]. apply Hlow. cbn. lra.
Defined.

(* ====================================================================== *)
(** * Properties of the LevelController: level selection                   *)
(* ====================================================================== *)

Section LevelSelectionFacts.

Import LevelController.
Local Open Scope Z_scope.

Lemma array_get_Some_range {A : Type} (arr : list A) (i : Z) (x : A) :
  array_get arr i = Some x -> 0 <= i < Z.of_nat (length arr).
Proof.
  unfold array_get. destruct (i <? 0) eqn:E; [discriminate|].
  intros H. apply lookup_lt_Some in H. apply Z.ltb_ge in E. lia.
Qed.

Lemma array_get_negative {A : Type} (arr : list A) (i : Z) :
  i < 0 -> array_get arr i = None.
Proof. intros H. unfold array_get. apply Z.ltb_lt in H. rewrite H. reflexivity. Qed.

Lemma clearTimer_triggered (this : t) : triggered (clearTimer this) = triggered this.
Proof. unfold clearTimer. destruct (timer this); reflexivity. Qed.

Lemma clearTimer_manualLevelIndex (this : t) :
  manualLevelIndex (clearTimer this) = manualLevelIndex this.
Proof. unfold clearTimer. destruct (timer this); reflexivity. Qed.

Lemma clearTimer_canLoad (this : t) : canLoad (clearTimer this) = canLoad this.
Proof. unfold clearTimer. destruct (timer this); reflexivity. Qed.

Lemma clearTimer_config (this : t) : config (clearTimer this) = config this.
Proof. unfold clearTimer. destruct (timer this); reflexivity. Qed.

(** X6. With levels set, [set level] treats an index past the end as the
    last index, and answers a negative index that is not the current one
    with one non-fatal [LEVEL_SWITCH_ERROR] event and no other change. *)
Theorem set_level_clamps_and_rejects (this : t) (levels : list Level) :
  _levels this = Some levels ->
  (forall n, Z.of_nat (length levels) - 1 <= n ->
             set_level n this = set_level (Z.of_nat (length levels) - 1) this) /\
  (forall n, n < 0 -> currentLevelIndex this <> Some n ->
             set_level n this
             = Returned
                 (trigger
                    (ERROR {| err_type := OTHER_ERROR;
                              err_details := LEVEL_SWITCH_ERROR;
                              fatal := false;
                              err_frag := None; err_context_level := None;
                              err_level := Some n; levelRetry := None;
                              err_url := None;
                              err_reason := Some "invalid level idx"%string |})
                    this)).
Proof.
  intros Hlevels. split.
  - intros n Hn. unfold set_level. rewrite Hlevels.
    rewrite (Z.min_r n) by lia. rewrite Z.min_id. reflexivity.
  - intros n Hn Hcur. unfold set_level. rewrite Hlevels.
    rewrite (Z.min_l n) by lia.
    rewrite bool_decide_eq_false_2 by exact Hcur. cbn.
    rewrite array_get_negative by exact Hn. reflexivity.
Qed.

Lemma set_level_clamps_and_rejects_witness :
  set_level 7 playing_single_level = set_level 0 playing_single_level /\
  (exists this', set_level (-2) playing_single_level = Returned this' /\
                 length (triggered this') = S (length (triggered playing_single_level)) /\
                 currentLevelIndex this' = currentLevelIndex playing_single_level).
Proof.
  destruct (set_level_clamps_and_rejects playing_single_level [single_level] eq_refl)
    as [Hclamp Hneg].
  split.
  - apply (Hclamp 7). vm_compute. discriminate.
  - eexists. split; [apply (Hneg (-2)); [reflexivity | discriminate]|].
    split; reflexivity.
Defined.

(** X7. Switching to a valid index other than the current one makes it the
    current level, cancels the reload timer, announces [LEVEL_SWITCHING],
    and asks for the playlist ([LEVEL_LOADING] with the level's current
    URL) exactly when the level has no playlist yet or a live one. *)
Theorem set_level_switches (this : t) (levels : list Level) (n : Z)
    (level : Level) :
  _levels this = Some levels ->
  array_get levels n = Some level ->
  currentLevelIndex this <> Some n ->
  exists this',
    set_level n this = Returned this' /\
    currentLevelIndex this' = Some n /\
    timer this' = None /\
    _levels this' = Some levels /\
    triggered this'
    = triggered this ++
      LEVEL_SWITCHING n ::
      (if match details level with
          | None => true
          | Some levelDetails => LevelDetails.live levelDetails
          end
       then [LEVEL_LOADING (array_get (url level) (urlId level)) n (urlId level)]
       else []).
Proof.
  intros Hlevels Hlevel Hcur.
  pose proof (array_get_Some_range _ _ _ Hlevel) as Hrange.
  unfold set_level. rewrite Hlevels.
  rewrite (Z.min_l n) by lia.
  rewrite bool_decide_eq_false_2 by exact Hcur. cbn.
  rewrite Hlevel.
  destruct (match details level with
            | Some levelDetails => LevelDetails.live levelDetails
            | None => true
            end);
    eexists; (split; [reflexivity|]); cbn;
    rewrite clearTimer_timer, clearTimer_levels, clearTimer_triggered, Hlevels,
      <- ?app_assoc; auto.
Qed.

Lemma set_level_switches_witness :
  exists this',
    set_level 1 (set__levels (Some [aac_level; ac3_level]) playing_aac_level)
    = Returned this' /\
    currentLevelIndex this' = Some 1 /\
    timer this' = None.
Proof.
  destruct (set_level_switches
              (set__levels (Some [aac_level; ac3_level]) playing_aac_level)
              [aac_level; ac3_level] 1 ac3_level eq_refl eq_refl)
    as (this' & Hrun & Hcur & Htimer & _).
  - vm_compute. discriminate.
  - exists this'. auto.
Defined.

(** X8. Selecting the level that is already current does nothing at all
    when its playlist is known, even a live one; when its playlist is
    missing it cancels the timer and asks for the playlist again, without
    a [LEVEL_SWITCHING] event. *)
Theorem set_level_current (this : t) (levels : list Level) (n : Z)
    (level : Level) :
  _levels this = Some levels ->
  array_get levels n = Some level ->
  currentLevelIndex this = Some n ->
  set_level n this
  = Returned
      (match details level with
       | Some _ => this
       | None =>
           trigger (LEVEL_LOADING (array_get (url level) (urlId level)) n
                      (urlId level))
                   (clearTimer this)
       end).
Proof.
  intros Hlevels Hlevel Hcur.
  pose proof (array_get_Some_range _ _ _ Hlevel) as Hrange.
  unfold set_level. rewrite Hlevels.
  rewrite (Z.min_l n) by lia.
  rewrite bool_decide_eq_true_2 by exact Hcur. cbn.
  rewrite Hlevel. cbn.
  destruct (details level); cbn; reflexivity.
Qed.

Lemma set_level_current_witness :
  set_level 0 playing_single_level
  = Returned
      (match details single_level with
       | Some _ => playing_single_level
       | None =>
           trigger (LEVEL_LOADING (array_get (url single_level) (urlId single_level))
                      0 (urlId single_level))
                   (clearTimer playing_single_level)
       end).
Proof.
  apply (set_level_current playing_single_level [single_level] 0 single_level);
    reflexivity.
Defined.

End LevelSelectionFacts.

(* ====================================================================== *)
(** * Properties of the LevelController: starting and stopping loads       *)
(* ====================================================================== *)

Section StartStopFacts.

Import LevelController.
Local Open Scope Z_scope.

Lemma fire_while_stopped (h : nat) (this : t) :
  canLoad this = false ->
  exists this',
    fire h this = Returned this' /\
    canLoad this' = false /\
    triggered this' = triggered this /\
    _levels this' = _levels this /\
    currentLevelIndex this' = currentLevelIndex this /\
    timer this' = timer this.
Proof.
  intros Hstopped. unfold fire.
  destruct (List.find _ _) as [timeout|]; [|eauto 10].
  destruct (task timeout); unfold loadLevel, loadLowLatencyLevel; cbn;
    rewrite Hstopped; [destruct (currentLevelIndex this)|]; eauto 10.
Qed.

(** X10. After [stopLoad] no timeout that is still pending in the host
    (the one of the timer was cancelled, older ones were not) has any
    effect when it fires: no event is triggered and the levels, the current
    level and [canLoad] stay as they are. *)
Theorem stopLoad_silences_timeouts (this : t) (hs : list nat) :
  exists this',
    fire_all hs (stopLoad this) = Returned this' /\
    canLoad this' = false /\
    timer this' = None /\
    triggered this' = triggered this /\
    _levels this' = _levels this /\
    currentLevelIndex this' = currentLevelIndex this.
Proof.
  assert (Hgen : forall that, canLoad that = false ->
            exists this', fire_all hs that = Returned this' /\
              canLoad this' = false /\ timer this' = timer that /\
              triggered this' = triggered that /\
              _levels this' = _levels that /\
              currentLevelIndex this' = currentLevelIndex that).
  { induction hs as [|h hs IH]; intros that Hstopped; [cbn; eauto 10|].
    destruct (fire_while_stopped h that Hstopped) as (that' & Hfire & Hg & Ht & Hl & Hc & Htm).
    destruct (IH that' Hg) as (this' & Hrun & Hg' & Htm' & Ht' & Hl' & Hc').
    exists this'. cbn. rewrite Hfire. cbn. rewrite Hrun.
    repeat split; congruence. }
  destruct (Hgen (stopLoad this)) as (this' & Hrun & Hg & Htm & Ht & Hl & Hc).
  { unfold stopLoad. rewrite clearTimer_canLoad. reflexivity. }
  exists this'. split; [exact Hrun|]. split; [exact Hg|].
  unfold stopLoad in *.
  rewrite clearTimer_timer in Htm. rewrite clearTimer_triggered in Ht.
  rewrite clearTimer_levels in Hl. rewrite clearTimer_currentLevelIndex in Hc.
  auto.
Qed.



End StartStopFacts.

(* ====================================================================== *)
(** * Properties of the LevelController: retries and redundant URLs        *)
(* ====================================================================== *)

Section RetryFacts.

Import LevelController.
Local Open Scope Z_scope.

Lemma array_get_alter {A : Type} (f : A -> A) (arr : list A) (i : Z) (x : A) :
  array_get arr i = Some x ->
  array_get (alter f (Z.to_nat i) arr) i = Some (f x).
Proof.
  unfold array_get. destruct (i <? 0); [discriminate|].
  intros H. rewrite list_lookup_alter, H, decide_True by reflexivity. reflexivity.
Qed.

Lemma array_get_alter_fmap {A : Type} (f : A -> A) (arr : list A) (i : Z) :
  array_get (alter f (Z.to_nat i) arr) i = f <$> array_get arr i.
Proof.
  unfold array_get. destruct (i <? 0); [reflexivity|].
  rewrite list_lookup_alter, decide_True by reflexivity. reflexivity.
Qed.

Lemma level_at_update_level (levelIndex : Z) (f : Level -> Level) (this : t)
    (level : Level) :
  level_at levelIndex this = Some level ->
  level_at levelIndex (update_level levelIndex f this) = Some (f level).
Proof.
  unfold level_at, update_level. cbn.
  destruct (_levels this) as [levels|]; [|discriminate]. cbn.
  apply array_get_alter.
Qed.

(** What one fragment error does, as long as its level exists. *)
Lemma recoverLevel_fragment_error (errorEvent : ErrorData) (levelIndex : Z)
    (this : t) (levels : list Level) (level : Level) :
  _levels this = Some levels ->
  array_get levels levelIndex = Some level ->
  let failing := set_fragmentError true (set_loadError (loadError level + 1) level) in
  recoverLevel errorEvent levelIndex false true this
  = Returned (escalate levelIndex levels failing true
                (update_level levelIndex (fun _ => failing) this),
              errorEvent).
Proof.
  intros Hlevels Hlevel. unfold recoverLevel. rewrite Hlevels, Hlevel. reflexivity.
Qed.

(** X12. A main fragment that loads for an existing level restarts the
    backoff: the next level error is retried, whatever the retry count
    was, after the base delay (capped by the maximum timeout), provided the
    configuration allows one retry at all. *)
Theorem onFragLoaded_restarts_backoff (this : t) (levels : list Level)
    (level : Level) (frag : LevelDetails.Fragment) (errorEvent : ErrorData) :
  _levels this = Some levels ->
  LevelDetails.type frag = LevelDetails.main ->
  array_get levels (LevelDetails.level frag) = Some level ->
  1 <= levelLoadingMaxRetry (config this) ->
  exists this1 this2 errorEvent',
    onFragLoaded (Some frag) this = Returned this1 /\
    recoverLevel errorEvent (LevelDetails.level frag) true false this1
    = Returned (this2, errorEvent') /\
    levelRetryCount this2 = 1 /\
    timeouts this2
    = timeouts this ++
      [{| handle := next_handle this; task := LoadLevel;
          delay := Z.min (levelLoadingRetryDelay (config this))
                         (levelLoadingMaxRetryTimeout (config this)) |}] /\
    levelRetry errorEvent' = Some true /\
    fatal errorEvent' = fatal errorEvent /\
    (loadError <$> level_at (LevelDetails.level frag) this2) = Some 1.
Proof.
  intros Hlevels Htype Hlevel Hretry.
  unfold onFragLoaded. rewrite Htype, Hlevels, Hlevel.
  eexists _, _, _. split; [reflexivity|].
  unfold recoverLevel. cbn. rewrite Hlevels. cbn.
  rewrite (array_get_alter _ _ _ _ Hlevel). cbn.
  assert (Hle : (1 <=? levelLoadingMaxRetry (config this)) = true)
    by (apply Z.leb_le; exact Hretry).
  change (0 + 1) with 1. change (2 ^ 0) with 1. rewrite Z.mul_1_l.
  rewrite Hle. split; [reflexivity|].
  match goal with
  | |- context [escalate ?i ?ls ?l ?f ?c] =>
      destruct (escalate_frame i ls l f c) as (Ht & Hts & Hk & _ & _);
      rewrite Hts, Hk;
      assert (Herr : loadError <$> level_at i (escalate i ls l f c) = Some 1)
  end.
  { unfold escalate.
    repeat match goal with
           | |- context [if ?b then _ else _] => destruct b
           end;
      unfold level_at, update_level; cbn; rewrite Hlevels; cbn;
      rewrite !array_get_alter_fmap, Hlevel; reflexivity. }
  cbn. repeat split; auto.
Qed.

Lemma onFragLoaded_restarts_backoff_witness :
  exists this1 this2 errorEvent',
    onFragLoaded
      (Some {| LevelDetails.sn := 7; LevelDetails.cc := 0%nat;
               LevelDetails.level := 0; LevelDetails.type := LevelDetails.main;
               LevelDetails.start := 0%Q; LevelDetails.decryptdata := None |})
      (set_levelRetryCount 3 playing_single_level) = Returned this1 /\
    recoverLevel level_load_timeout 0 true false this1
    = Returned (this2, errorEvent') /\
    levelRetryCount this2 = 1 /\
    List.map delay (timeouts this2) = [1000].
Proof.
  destruct (onFragLoaded_restarts_backoff
              (set_levelRetryCount 3 playing_single_level) [single_level]
              single_level
              {| LevelDetails.sn := 7; LevelDetails.cc := 0%nat;
                 LevelDetails.level := 0; LevelDetails.type := LevelDetails.main;
                 LevelDetails.start := 0%Q; LevelDetails.decryptdata := None |}
              level_load_timeout eq_refl eq_refl eq_refl)
    as (this1 & this2 & e' & H1 & H2 & Hk & Hts & _).
  - vm_compute. discriminate.
  - exists this1, this2, e'. rewrite Hts. auto.
Defined.

Local Abbreviation frame this this' :=
  (config this' = config this /\
   (levelRetryCount this' = levelRetryCount this \/ levelRetryCount this' = 0)).

Local Ltac crunch H :=
  repeat match type of H with
         | context [match ?x with _ => _ end] => destruct x eqn:?; cbn in H
         end;
  try discriminate.

Local Ltac framed :=
  cbn; rewrite ?clearTimer_config, ?clearTimer_levelRetryCount; cbn; auto.

Lemma retry_bounded_frame (cfg : Config) (this this' : t) :
  frame this this' -> retry_bounded cfg this -> retry_bounded cfg this'.
Proof. unfold retry_bounded. intros [Hc [Hk|Hk]] [Hcfg Hb]; rewrite Hc, Hk; split; auto; lia. Qed.

Lemma loadLevel_frame (this this' : t) :
  loadLevel this = Returned this' -> frame this this'.
Proof. unfold loadLevel. intros H. crunch H; injection H as <-; framed. Qed.

Lemma loadLowLatencyLevel_frame (d : LevelDetails.t) (level id : Z) (this this' : t) :
  loadLowLatencyLevel d level id this = Returned this' -> frame this this'.
Proof.
  unfold loadLowLatencyLevel. intros H.
  destruct (canLoad this); [|injection H as <-; framed].
  destruct (LevelDetails.serverControl d); [|discriminate].
  destruct (LevelDetails.updated d) as [[|]|]; injection H as <-; framed.
Qed.

Lemma fire_frame (h : nat) (this this' : t) :
  fire h this = Returned this' -> frame this this'.
Proof.
  unfold fire. intros H.
  destruct (List.find _ _) as [timeout|]; [|injection H as <-; framed].
  destruct (task timeout);
    [apply loadLevel_frame in H | apply loadLowLatencyLevel_frame in H];
    exact H.
Qed.

Lemma set_level_frame (n : Z) (this this' : t) :
  set_level n this = Returned this' -> frame this this'.
Proof. unfold set_level. intros H. crunch H; injection H as <-; framed. Qed.

Lemma startLoad_frame (this this' : t) :
  startLoad this = Returned this' -> frame this this'.
Proof.
  unfold startLoad. intros H.
  destruct (timer _); [|injection H as <-; framed].
  apply loadLevel_frame in H. cbn in H. destruct H as [Hc [Hk|Hk]]; auto.
Qed.

Lemma onAudioTrackSwitched_frame (id : Z) (this this' : t) :
  onAudioTrackSwitched id this = Returned this' -> frame this this'.
Proof.
  unfold onAudioTrackSwitched. intros H.
  destruct (array_get (audioTracks this) id); [|discriminate].
  destruct (_levels this); [|discriminate].
  destruct (_ ≫= _) as [currentLevel|]; [|injection H as <-; framed].
  destruct (audioGroupIds currentLevel); [|injection H as <-; framed].
  destruct (negb _); [|injection H as <-; framed].
  apply startLoad_frame in H. exact H.
Qed.

Lemma onFragLoaded_frame (frag : option LevelDetails.Fragment) (this this' : t) :
  onFragLoaded frag this = Returned this' -> frame this this'.
Proof. unfold onFragLoaded. intros H. crunch H; injection H as <-; framed. Qed.

Lemma removeLevel_frame (levelIndex : Z) (urlId : option Z) (this this' : t) :
  removeLevel levelIndex urlId this = Returned this' -> frame this this'.
Proof.
  unfold removeLevel. intros H.
  destruct (_levels this); [|discriminate]. injection H as <-. framed.
Qed.

Lemma onLevelLoaded_frame (computeReloadInterval : LevelDetails.t -> LoaderStats -> Z)
    (data : LevelLoadedData) (this this' : t) :
  onLevelLoaded computeReloadInterval data this = Returned this' -> frame this this'.
Proof.
  unfold onLevelLoaded. intros H.
  destruct (bool_decide _); [|injection H as <-; framed].
  destruct (_levels this); [|discriminate].
  destruct (array_get _ _) as [curLevel|]; [|discriminate].
  destruct (negb (fragmentError curLevel));
    (destruct (LevelDetails.live (ll_details data));
     [|injection H as <-; framed]);
    (destruct (LevelDetails.serverControl (ll_details data)) as [serverControl|];
     [destruct (partTarget_truthy _);
      [destruct (LevelDetails.canBlock serverControl)|]|]);
    injection H as <-; framed.
Qed.

Lemma onManifestLoaded_frame (chromeOrFirefox : bool)
    (isCodecSupportedInMp4 : string -> CodecType -> bool)
    (data : ManifestLoadedData) (this : t) :
  frame this (onManifestLoaded chromeOrFirefox isCodecSupportedInMp4 data this).
Proof.
  unfold onManifestLoaded.
  destruct (surviving_levels _ _); [framed|].
  destruct (find_bitrate _ _ _); framed.
Qed.

Lemma recoverLevel_retry_bounded (cfg : Config) (errorEvent errorEvent' : ErrorData)
    (levelIndex : Z) (levelError fragmentError : bool) (this this' : t) :
  retry_bounded cfg this ->
  recoverLevel errorEvent levelIndex levelError fragmentError this
  = Returned (this', errorEvent') ->
  retry_bounded cfg this'.
Proof.
  unfold retry_bounded, recoverLevel. intros [Hcfg Hb] H.
  destruct (_levels this) as [levels|]; [|discriminate].
  destruct (array_get levels levelIndex) as [level|]; [|discriminate].
  cbn in H.
  destruct levelError.
  - destruct (_ <=? _) eqn:Hretry.
    + cbn in H. injection H as <- <-.
      match goal with
      | |- context [escalate ?i ?ls ?l ?f ?c] =>
          destruct (escalate_frame i ls l f c) as (_ & _ & Hk & _ & Hc);
          rewrite Hk, Hc
      end.
      cbn. apply Z.leb_le in Hretry. rewrite Hcfg in Hretry. split; [exact Hcfg | lia].
    + injection H as <- <-.
      rewrite clearTimer_config, clearTimer_levelRetryCount. cbn. auto.
  - destruct fragmentError; cbn in H; injection H as <- <-.
    + match goal with
      | |- context [escalate ?i ?ls ?l ?f ?c] =>
          destruct (escalate_frame i ls l f c) as (_ & _ & Hk & _ & Hc);
          rewrite Hk, Hc
      end.
      cbn. auto.
    + cbn. auto.
Qed.

Lemma onError_retry_bounded (cfg : Config) (data data' : ErrorData) (this this' : t) :
  retry_bounded cfg this ->
  onError data this = Returned (this', data') ->
  retry_bounded cfg this'.
Proof.
  intros Hinv H. unfold onError in H.
  destruct (fatal data).
  - destruct (err_type data); injection H as <- <-; try exact Hinv.
    apply (retry_bounded_frame cfg this); [framed | exact Hinv].
  - destruct (err_details data);
      try (injection H as <- <-; exact Hinv);
      match type of H with
      | match ?x with _ => _ end = _ => destruct x
      end;
      try discriminate;
      try (injection H as <- <-; exact Hinv);
      eapply recoverLevel_retry_bounded; eauto.
Qed.

Lemma dispatch_retry_bounded (env : Env) (cfg : Config) (input : Input)
    (this this' : t) :
  retry_bounded cfg this ->
  dispatch env input this = Returned this' ->
  retry_bounded cfg this'.
Proof.
  intros Hinv H. destruct input; cbn in H.
  - injection H as <-.
    eapply retry_bounded_frame; [apply onManifestLoaded_frame | exact Hinv].
  - eapply retry_bounded_frame; [eapply onLevelLoaded_frame; exact H | exact Hinv].
  - eapply retry_bounded_frame; [eapply onAudioTrackSwitched_frame; exact H | exact Hinv].
  - eapply retry_bounded_frame; [eapply onFragLoaded_frame; exact H | exact Hinv].
  - destruct (onError data this) as [[that data']|] eqn:E; [|discriminate].
    injection H as <-. eapply onError_retry_bounded; eauto.
  - eapply retry_bounded_frame; [eapply startLoad_frame; exact H | exact Hinv].
  - injection H as <-. unfold stopLoad.
    eapply retry_bounded_frame; [|exact Hinv]. framed.
  - eapply retry_bounded_frame; [eapply set_level_frame; exact H | exact Hinv].
  - unfold set_manualLevel in H. destruct (negb _).
    + apply set_level_frame in H.
      eapply retry_bounded_frame; [|exact Hinv]. exact H.
    + injection H as <-. exact Hinv.
  - unfold set_nextLoadLevel in H.
    destruct (set_level nextLevel this) as [that|] eqn:E; [|discriminate].
    apply set_level_frame in E. cbn in H.
    destruct (manualLevelIndex that =? -1); injection H as <-;
      (eapply retry_bounded_frame; [|exact Hinv]); exact E.
  - injection H as <-. exact Hinv.
  - eapply retry_bounded_frame; [eapply removeLevel_frame; exact H | exact Hinv].
  - injection H as <-. unfold onHandlerDestroying.
    eapply retry_bounded_frame; [|exact Hinv]. framed.
  - eapply retry_bounded_frame; [eapply fire_frame; exact H | exact Hinv].
  - injection H as <-. exact Hinv.
  - injection H as <-. exact Hinv.
  - injection H as <-. exact Hinv.
Qed.

(** X13. Whatever events, method calls, timeouts and writes of other
    components a controller has seen, its retry counter lies between 0 and
    [levelLoadingMaxRetry] (0 when that limit is negative), and its
    configuration is still the one it was built with. *)
Theorem retry_count_bounded (env : Env) (cfg : Config) (this : t) :
  reachable env cfg this ->
  config this = cfg /\
  0 <= levelRetryCount this <= Z.max 0 (levelLoadingMaxRetry cfg).
Proof.
  intros Hreach. change (retry_bounded cfg this).
  induction Hreach as [|input this this' _ IH Hstep].
  - unfold retry_bounded. cbn. split; [reflexivity | lia].
  - eapply dispatch_retry_bounded; eauto.
Qed.

(** X14. A fragment error in automatic mode on a level that has no
    redundant URL left to try switches down one level, wrapping from level
    0 to the last level: the new current level is a valid index and is also
    written to [hls.nextAutoLevel]; no timer is armed, nothing is
    triggered and the error object is left as it was. *)
Theorem recoverLevel_switches_down (this : t) (levels : list Level)
    (level : Level) (errorEvent : ErrorData) (levelIndex : Z) :
  _levels this = Some levels ->
  array_get levels levelIndex = Some level ->
  manualLevelIndex this = -1 ->
  (length (url level) <= 1)%nat \/ Z.of_nat (length (url level)) <= loadError level + 1 ->
  let nextLevel :=
    if levelIndex =? 0 then Z.of_nat (length levels) - 1 else levelIndex - 1 in
  exists this',
    recoverLevel errorEvent levelIndex false true this
    = Returned (this', errorEvent) /\
    currentLevelIndex this' = Some nextLevel /\
    nextAutoLevel this' = nextLevel /\
    0 <= nextLevel < Z.of_nat (length levels) /\
    timer this' = timer this /\ timeouts this' = timeouts this /\
    triggered this' = triggered this /\
    levelRetryCount this' = levelRetryCount this.
Proof.
  intros Hlevels Hlevel Hauto Hspent nextLevel.
  pose proof (array_get_Some_range _ _ _ Hlevel) as Hrange.
  rewrite (recoverLevel_fragment_error _ _ _ _ _ Hlevels Hlevel).
  eexists. split; [reflexivity|].
  unfold escalate. cbn.
  assert (Hno : (1 <? Z.of_nat (length (url level)))
                && (loadError level + 1 <? Z.of_nat (length (url level))) = false).
  { apply andb_false_iff. destruct Hspent as [H|H];
      [left | right]; apply Z.ltb_ge; lia. }
  rewrite Hno, Hauto. cbn. fold nextLevel.
  repeat split; auto; subst nextLevel;
    destruct (levelIndex =? 0) eqn:E; try lia;
    apply Z.eqb_neq in E; lia.
Qed.

Lemma recoverLevel_switches_down_witness :
  exists this',
    recoverLevel level_load_timeout 0 false true playing_single_level
    = Returned (this', level_load_timeout) /\
    currentLevelIndex this' = Some 0 /\
    timer this' = None.
Proof.
  destruct (recoverLevel_switches_down playing_single_level [single_level]
              single_level level_load_timeout 0 eq_refl eq_refl eq_refl)
    as (this' & Hrun & Hcur & _ & _ & Htimer & _).
  - left. cbn. lia.
  - exists this'. auto.
Defined.

Lemma fragment_errors_rotate (j : nat) (errorEvent : ErrorData) (levelIndex : Z) :
  forall (this : t) (level : Level),
    level_at levelIndex this = Some level ->
    0 <= loadError level ->
    0 <= urlId level < Z.of_nat (length (url level)) ->
    loadError level + Z.of_nat j < Z.of_nat (length (url level)) ->
    exists this' level',
      fragment_errors j errorEvent levelIndex this = Returned this' /\
      level_at levelIndex this' = Some level' /\
      urlId level' = (urlId level + Z.of_nat j) mod Z.of_nat (length (url level)) /\
      loadError level' = loadError level + Z.of_nat j /\
      url level' = url level /\
      currentLevelIndex this' = currentLevelIndex this /\
      timer this' = timer this /\
      triggered this' = triggered this.
Proof.
  induction j as [|j IH]; intros this level Hat Herr Hid Hleft.
  - exists this, level. cbn. rewrite !Z.add_0_r.
    rewrite Z.mod_small by lia. auto 10.
  - unfold level_at in Hat.
    destruct (_levels this) as [levels|] eqn:Hlevels; [|discriminate].
    cbn in Hat. cbn [fragment_errors].
    rewrite (recoverLevel_fragment_error _ _ _ _ _ Hlevels Hat). cbn.
    set (r := Z.of_nat (length (url level))) in *.
    assert (Hyes : (1 <? r) && (loadError level + 1 <? r) = true).
    { apply andb_true_iff. split; apply Z.ltb_lt; lia. }
    unfold escalate at 1. cbn. fold r. rewrite Hyes.
    match goal with
    | |- context [fragment_errors j _ _ ?that] =>
        destruct (IH that
                    (set_details None
                       (set_urlId (Z.rem (urlId level + 1) r)
                          (set_fragmentError true
                             (set_loadError (loadError level + 1) level)))))
          as (this' & level' & Hrun & Hat' & Hid' & Herr' & Hurl' & Hcur' & Htm' & Htr')
    end.
    + unfold level_at, update_level. cbn. rewrite Hlevels. cbn.
      rewrite !array_get_alter_fmap, Hat. reflexivity.
    + cbn. lia.
    + cbn. fold r. pose proof (Z.rem_bound_pos (urlId level + 1) r). lia.
    + cbn. fold r. lia.
    + exists this', level'. cbn in *. fold r in Hid'.
      split; [exact Hrun|]. split; [exact Hat'|].
      split.
      { rewrite Hid', Z.rem_mod_nonneg by lia.
        rewrite Zplus_mod_idemp_l. f_equal. lia. }
      split; [lia|]. auto.
Qed.

(** X15. On a level with [r] URLs, fresh of errors, [j < r] fragment
    errors in a row do not throw and leave the level at URL
    [(urlId + j) mod r] with [j] errors counted ([urlId] being a valid
    index into the URLs): each further URL is tried
    once, in cyclic order, and meanwhile the current level, the timer and
    the events are untouched. *)
Theorem fragment_errors_rotate_urls (j : nat) (errorEvent : ErrorData)
    (levelIndex : Z) (this : t) (level : Level) :
  level_at levelIndex this = Some level ->
  loadError level = 0 ->
  0 <= urlId level < Z.of_nat (length (url level)) ->
  (j < length (url level))%nat ->
  exists this' level',
    fragment_errors j errorEvent levelIndex this = Returned this' /\
    level_at levelIndex this' = Some level' /\
    urlId level' = (urlId level + Z.of_nat j) mod Z.of_nat (length (url level)) /\
    loadError level' = Z.of_nat j /\
    url level' = url level /\
    currentLevelIndex this' = currentLevelIndex this /\
    timer this' = timer this /\
    triggered this' = triggered this.
Proof.
  intros Hat Herr Hid Hj.
  destruct (fragment_errors_rotate j errorEvent levelIndex this level Hat)
    as (this' & level' & H); [lia | exact Hid | lia |].
  exists this', level'. rewrite Herr in H. exact H.
Qed.

Lemma fragment_errors_rotate_urls_witness :
  exists this' level',
    fragment_errors 1 level_load_timeout 0
      (update_level 0 (set_url ["a"; "b"; "c"]%string) playing_single_level)
    = Returned this' /\
    level_at 0 this' = Some level' /\
    urlId level' = 1 /\
    loadError level' = 1.
Proof.
  destruct (fragment_errors_rotate_urls 1 level_load_timeout 0
              (update_level 0 (set_url ["a"; "b"; "c"]%string) playing_single_level)
              (set_url ["a"; "b"; "c"]%string single_level)
              eq_refl eq_refl ltac:(cbn; lia) ltac:(cbn; lia))
    as (this' & level' & Hrun & Hat & Hid & Herr & _).
  exists this', level'. auto.
Defined.

(** X9. Scheduling a retry does not cancel what was scheduled before:
    when a level error is retried while an earlier timeout of the timer is
    still pending, [recoverLevel] overwrites the timer with the handle of
    the new timeout and leaves the earlier one pending in the host, where
    [clearTimer], which cancels the handle the timer holds, no longer
    reaches it. *)
Theorem recoverLevel_leaves_earlier_timeout_pending (this : t)
    (levels : list Level) (level : Level) (errorEvent : ErrorData)
    (levelIndex : Z) (fragmentError : bool) (h : nat) (pending : Timeout) :
  _levels this = Some levels ->
  array_get levels levelIndex = Some level ->
  levelRetryCount this + 1 <= levelLoadingMaxRetry (config this) ->
  timer this = Some h ->
  pending ∈ timeouts this ->
  handle pending = h ->
  h <> next_handle this ->
  exists this' errorEvent',
    recoverLevel errorEvent levelIndex true fragmentError this
    = Returned (this', errorEvent') /\
    timer this' = Some (next_handle this) /\
    pending ∈ timeouts this' /\
    length (timeouts this') = S (length (timeouts this)) /\
    pending ∈ timeouts (clearTimer this').
Proof.
  intros Hlevels Hlevel Hretry Htimer Hpending Hhandle Hfresh.
  unfold recoverLevel. rewrite Hlevels, Hlevel. cbn.
  replace (levelRetryCount this + 1 <=? levelLoadingMaxRetry (config this))
    with true by (symmetry; apply Z.leb_le; exact Hretry).
  eexists _, _. split; [reflexivity|].
  match goal with
  | |- context [escalate ?i ?ls ?l ?f ?c] =>
      destruct (escalate_frame i ls l f c) as (Ht & Hts & _ & _ & _);
      unfold clearTimer; rewrite Ht, Hts; cbn
  end.
  split; [reflexivity|].
  split; [apply elem_of_app; left; exact Hpending|].
  split; [rewrite length_app; cbn; lia|].
  apply list_elem_of_filter. split.
  - rewrite Hhandle. exact Hfresh.
  - apply elem_of_app. left. exact Hpending.
Qed.

Lemma recoverLevel_leaves_earlier_timeout_pending_witness :
  exists this' errorEvent',
    recoverLevel level_load_timeout 0 true false
      (arm_timer LoadLevel 4000 playing_single_level)
    = Returned (this', errorEvent') /\
    List.map handle (timeouts this') = [1%nat; 2%nat] /\
    List.map handle (timeouts (clearTimer this')) = [1%nat].
Proof.
  destruct (recoverLevel_leaves_earlier_timeout_pending
              (arm_timer LoadLevel 4000 playing_single_level) [single_level]
              single_level level_load_timeout 0 false 1%nat
              {| handle := 1%nat; task := LoadLevel; delay := 4000 |}
              eq_refl eq_refl ltac:(cbn; lia) eq_refl
              ltac:(apply list_elem_of_singleton; reflexivity) eq_refl
              ltac:(cbn; lia))
    as (this' & e' & Hrun & _).
  exists this', e'. split; [exact Hrun|].
  vm_compute in Hrun. injection Hrun as <- _. split; reflexivity.
Defined.

End RetryFacts.

Lemma retry_count_bounded_witness :
  exists this : LevelController.t,
    LevelController.levelRetryCount this = 1%Z /\
    (LevelController.config this = LevelController.retry_config /\
     (0 <= LevelController.levelRetryCount this
        <= Z.max 0 (LevelController.levelLoadingMaxRetry
                      LevelController.retry_config))%Z).
Proof.
  eexists. split; [|
    apply (retry_count_bounded LevelController.example_env
             LevelController.retry_config);
    eapply (LevelController.reach_step _ _
              (LevelController.IN_ERROR LevelController.level_load_timeout));
      [eapply (LevelController.reach_step _ _ (LevelController.IN_SET_LEVEL 0%Z));
         [eapply (LevelController.reach_step _ _
                    (LevelController.IN_MANIFEST_LOADED
                       LevelController.audio_only_first));
            [apply LevelController.reach_new | vm_compute; reflexivity]
         | vm_compute; reflexivity]
      | vm_compute; reflexivity]].
  vm_compute. reflexivity.
Defined.

(* ====================================================================== *)
(** * Properties of the LevelController: removing a level or a URL         *)
(* ====================================================================== *)

Section RemoveLevelFacts.

Import LevelController.
Local Open Scope Z_scope.

(** A filter that drops at most the element at index [target] is a
    deletion. *)
Lemma filter_from_delete {A : Type} (callback : Z -> A -> option A) (target : Z) :
  (forall k x, k <> target -> callback k x = Some x) ->
  forall (arr : list A) (k : Z),
    (forall x, k <= target -> arr !! Z.to_nat (target - k) = Some x ->
               callback target x = None) ->
    filter_from callback k arr
    = if k <=? target then delete (Z.to_nat (target - k)) arr else arr.
Proof.
  intros Hkeep. induction arr as [|x arr IH]; intros k Hdrop.
  - cbn. destruct (k <=? target); reflexivity.
  - cbn [filter_from]. destruct (Z.eq_dec k target) as [->|Hne].
    + rewrite (Hdrop x) by (rewrite ?Z.sub_diag; auto; lia).
      rewrite IH by (intros; lia).
      rewrite Z.leb_refl, Z.sub_diag.
      destruct (target + 1 <=? target) eqn:E; [apply Z.leb_le in E; lia|].
      reflexivity.
    + rewrite Hkeep by exact Hne.
      rewrite IH.
      * destruct (k <=? target) eqn:E.
        -- apply Z.leb_le in E.
           replace (k + 1 <=? target) with true by (symmetry; apply Z.leb_le; lia).
           replace (Z.to_nat (target - k)) with (S (Z.to_nat (target - (k + 1))))
             by lia.
           reflexivity.
        -- apply Z.leb_gt in E.
           replace (k + 1 <=? target) with false by (symmetry; apply Z.leb_gt; lia).
           reflexivity.
      * intros y Hle Hy. apply Hdrop; [lia|].
        replace (Z.to_nat (target - k)) with (S (Z.to_nat (target - (k + 1))))
          by lia.
        exact Hy.
Qed.

(** A filter that drops nothing is a map over the indices. *)
Lemma filter_from_imap {A : Type} (callback : Z -> A -> option A)
    (g : Z -> A -> A) :
  forall (arr : list A) (k : Z),
    (forall (i : nat) x, arr !! i = Some x ->
       callback (k + Z.of_nat i) x = Some (g (k + Z.of_nat i) x)) ->
    filter_from callback k arr = imap (fun i => g (k + Z.of_nat i)) arr.
Proof.
  induction arr as [|x arr IH]; intros k H; [reflexivity|].
  cbn [filter_from]. rewrite imap_cons.
  pose proof (H 0%nat x eq_refl) as H0. rewrite Z.add_0_r in H0. rewrite H0.
  cbn [Z.of_nat]. rewrite Z.add_0_r. f_equal.
  rewrite (IH (k + 1)).
  - apply imap_ext. intros i y _. cbn. f_equal. lia.
  - intros i y Hy. specialize (H (S i) y Hy).
    replace (k + 1 + Z.of_nat i) with (k + Z.of_nat (S i)) by lia. exact H.
Qed.

Lemma remove_index_delete {A : Type} (urlId : Z) (arr : list A) :
  0 <= urlId -> remove_index urlId arr = delete (Z.to_nat urlId) arr.
Proof.
  intros Hpos. unfold remove_index. rewrite filter_from_delete with (target := urlId).
  - replace (0 <=? urlId) with true by (symmetry; apply Z.leb_le; exact Hpos).
    rewrite Z.sub_0_r. reflexivity.
  - intros k x Hne. apply Z.eqb_neq in Hne. rewrite Hne. reflexivity.
  - intros x _ _. rewrite Z.eqb_refl. reflexivity.
Qed.

Lemma rendition_reindexed (levels : list Level) :
  rendition <$>
    imap (fun index level =>
            set_details (reindex_fragments (Z.of_nat index) <$> details level) level)
         levels
  = rendition <$> levels.
Proof.
  apply list_eq. intros i.
  rewrite !list_lookup_fmap, list_lookup_imap.
  destruct (levels !! i); reflexivity.
Qed.

(** X16. After [removeLevel], whatever was removed, every fragment of
    every remaining level's playlist carries in [level] the index at which
    its level now stands, and [LEVELS_UPDATED] announces exactly the
    levels that were stored. *)
Theorem removeLevel_reindexes_fragments (levelIndex : Z) (urlId : option Z)
    (this this' : t) :
  removeLevel levelIndex urlId this = Returned this' ->
  exists levels',
    _levels this' = Some levels' /\
    triggered this' = triggered this ++ [LEVELS_UPDATED levels'] /\
    forall (i : nat) (l : Level) (d : LevelDetails.t) (f : LevelDetails.Fragment),
      levels' !! i = Some l ->
      details l = Some d ->
      f ∈ LevelDetails.fragments d ->
      LevelDetails.level f = Z.of_nat i.
Proof.
  unfold removeLevel. intros H.
  destruct (_levels this) as [levels|]; [|discriminate].
  injection H as <-. eexists. split; [reflexivity|]. split; [reflexivity|].
  intros i l d f Hl Hd Hf.
  apply list_lookup_imap_Some in Hl as (l0 & _ & ->).
  cbn in Hd. destruct (details l0) as [d0|]; [|discriminate].
  injection Hd as <-. cbn in Hf.
  change (List.map ?g ?x) with (g <$> x) in Hf.
  apply list_elem_of_fmap in Hf as (f0 & -> & _). reflexivity.
Qed.

Lemma removeLevel_reindexes_fragments_witness :
  exists this' levels',
    removeLevel 0 None playing_three_levels = Returned this' /\
    _levels this' = Some levels' /\
    List.map (fun l => List.map LevelDetails.level
                         (default [] (LevelDetails.fragments <$> details l)))
             levels'
    = [[0; 0]; [1; 1]].
Proof.
  destruct (removeLevel_reindexes_fragments 0 None playing_three_levels _ eq_refl)
    as (levels' & Hlevels & _ & _).
  eexists _, levels'. split; [reflexivity|]. split; [exact Hlevels|].
  vm_compute in Hlevels. injection Hlevels as <-. vm_compute. reflexivity.
Defined.

(** X17. Removing a level without naming a URL, or a level that has at
    most one URL, deletes that level and nothing else: the renditions that
    are stored and announced afterwards are the former ones without the
    one at [levelIndex], in the same order; an index past the end removes
    nothing. *)
Theorem removeLevel_deletes_level (levelIndex : Z) (urlId : option Z) (this : t)
    (levels : list Level) :
  _levels this = Some levels ->
  0 <= levelIndex ->
  urlId = None \/
    (forall level, array_get levels levelIndex = Some level ->
                   (length (url level) <= 1)%nat) ->
  exists this' levels',
    removeLevel levelIndex urlId this = Returned this' /\
    _levels this' = Some levels' /\
    triggered this' = triggered this ++ [LEVELS_UPDATED levels'] /\
    rendition <$> levels' = delete (Z.to_nat levelIndex) (rendition <$> levels).
Proof.
  intros Hlevels Hpos Hwhole. unfold removeLevel. rewrite Hlevels.
  eexists _, _. split; [reflexivity|]. split; [reflexivity|].
  split; [reflexivity|].
  rewrite rendition_reindexed.
  rewrite filter_from_delete with (target := levelIndex).
  - replace (0 <=? levelIndex) with true by (symmetry; apply Z.leb_le; exact Hpos).
    rewrite Z.sub_0_r. apply list_fmap_delete.
  - intros k x Hne. unfold keep_level. apply Z.eqb_neq in Hne. rewrite Hne.
    reflexivity.
  - intros x _ Hx. rewrite Z.sub_0_r in Hx.
    unfold keep_level. rewrite Z.eqb_refl. cbn.
    destruct Hwhole as [->|Hone]; [reflexivity|].
    destruct urlId; [|reflexivity].
    specialize (Hone x). unfold array_get in Hone.
    replace (levelIndex <? 0) with false in Hone by (symmetry; apply Z.ltb_ge; lia).
    specialize (Hone Hx).
    destruct (length (url x)) as [|[|n]]; [reflexivity | reflexivity | lia].
Qed.

Lemma removeLevel_deletes_level_witness :
  exists this' levels',
    removeLevel 1 (Some 0) playing_three_levels = Returned this' /\
    _levels this' = Some levels' /\
    List.map bitrate levels' = [300000; 1500000].
Proof.
  destruct (removeLevel_deletes_level 1 (Some 0) playing_three_levels
              three_levels eq_refl ltac:(lia))
    as (this' & levels' & Hrun & Hlevels & _ & Hrenditions).
  - right. intros level Hlevel. vm_compute in Hlevel. injection Hlevel as <-.
    cbn. lia.
  - exists this', levels'. split; [exact Hrun|]. split; [exact Hlevels|].
    change (List.map bitrate levels') with (bitrate <$> levels').
    assert (Hb : bitrate <$> levels' = (fun r => r.1.1) <$> (rendition <$> levels')).
    { rewrite <- list_fmap_compose. reflexivity. }
    rewrite Hb, Hrenditions. reflexivity.
Defined.

(** X18. Removing URL [urlId] of a level that has several URLs keeps
    every level: that level loses the URL at that position (none, when the
    position is past its last URL) and restarts at URL 0, and the other
    levels keep their bitrate, URLs and URL in use. *)
Theorem removeLevel_deletes_url (levelIndex urlId : Z) (this : t)
    (levels : list Level) (level : Level) :
  _levels this = Some levels ->
  array_get levels levelIndex = Some level ->
  (1 < length (url level))%nat ->
  0 <= urlId ->
  exists this' levels',
    removeLevel levelIndex (Some urlId) this = Returned this' /\
    _levels this' = Some levels' /\
    rendition <$> levels'
    = alter (fun r => (r.1.1, delete (Z.to_nat urlId) r.1.2, 0))
        (Z.to_nat levelIndex) (rendition <$> levels).
Proof.
  intros Hlevels Hlevel Hmany Hpos.
  pose proof (array_get_Some_range _ _ _ Hlevel) as Hrange.
  unfold removeLevel. rewrite Hlevels.
  eexists _, _. split; [reflexivity|]. split; [reflexivity|].
  rewrite rendition_reindexed.
  rewrite (filter_from_imap _
             (fun index l =>
                if index =? levelIndex
                then set_urlId 0 (set_url (remove_index urlId (url l)) l)
                else l)).
  - apply list_eq. intros i.
    rewrite list_lookup_fmap, list_lookup_imap, list_lookup_alter,
      !list_lookup_fmap.
    destruct (decide (Z.to_nat levelIndex = i)) as [<-|Hne].
    + destruct (levels !! Z.to_nat levelIndex) as [l|]; [|reflexivity].
      rewrite Z.add_0_l, Z2Nat.id, Z.eqb_refl by lia. cbn.
      rewrite remove_index_delete by exact Hpos. reflexivity.
    + destruct (levels !! i) as [l|]; [|reflexivity].
      destruct (0 + Z.of_nat i =? levelIndex) eqn:E; [|reflexivity].
      apply Z.eqb_eq in E. lia.
  - intros i x Hx. rewrite Z.add_0_l. unfold keep_level.
    destruct (Z.of_nat i =? levelIndex) eqn:E; [|reflexivity].
    cbn. apply Z.eqb_eq in E. subst levelIndex.
    unfold array_get in Hlevel.
    replace (Z.of_nat i <? 0) with false in Hlevel
      by (symmetry; apply Z.ltb_ge; lia).
    rewrite Nat2Z.id, Hx in Hlevel. injection Hlevel as ->.
    destruct (length (url level)) as [|[|n]]; [lia | lia | reflexivity].
Qed.

Lemma removeLevel_deletes_url_witness :
  exists this' levels',
    removeLevel 2 (Some 0) playing_three_levels = Returned this' /\
    _levels this' = Some levels' /\
    List.map url levels'
    = [["lo.m3u8"; "lo-backup.m3u8"]; ["mid.m3u8"]; ["hi-backup.m3u8"]]%string.
Proof.
  destruct (removeLevel_deletes_url 2 0 playing_three_levels three_levels
              (vod_level 1500000 ["hi.m3u8"; "hi-backup.m3u8"]%string 2)
              eq_refl eq_refl ltac:(cbn; lia) ltac:(lia))
    as (this' & levels' & Hrun & Hlevels & Hrenditions).
  exists this', levels'. split; [exact Hrun|]. split; [exact Hlevels|].
  change (List.map url levels') with (url <$> levels').
  assert (Hu : url <$> levels' = (fun r => r.1.2) <$> (rendition <$> levels')).
  { rewrite <- list_fmap_compose. reflexivity. }
  rewrite Hu, Hrenditions. reflexivity.
Defined.

End RemoveLevelFacts.

(* ====================================================================== *)
(** * Properties of the LevelController: the URLs of a grouped level       *)
(* ====================================================================== *)

Section GroupingFacts.

Import LevelController.
Local Open Scope Z_scope.

Variable chromeOrFirefox : bool.
Variable isCodecSupportedInMp4 : string -> CodecType -> bool.

(** One pass of the loop, seen from outside: the level of the entry's
    bitrate is created or gets the entry's URL appended, and then only its
    group identifiers may change. *)
Lemma regroup_shape (g : Grouping) (levelParsed : LevelParsed) :
  exists (f : Level -> Level) (erased : LevelParsed),
    (forall l, rendition (f l) = rendition l /\ videoCodec (f l) = videoCodec l) /\
    lp_videoCodec erased = lp_videoCodec levelParsed /\
    lp_bitrate erased = lp_bitrate levelParsed /\
    lp_url erased = lp_url levelParsed /\
    match g_levelSet g !! lp_bitrate levelParsed with
    | None =>
        g_levels (regroup chromeOrFirefox g levelParsed)
        = alter f (length (g_levels g)) (g_levels g ++ [new_Level erased]) /\
        g_levelSet (regroup chromeOrFirefox g levelParsed)
        = <[lp_bitrate levelParsed := length (g_levels g)]> (g_levelSet g)
    | Some i =>
        g_levels (regroup chromeOrFirefox g levelParsed)
        = alter f i
            (alter (fun l => set_url (url l ++ [lp_url levelParsed]) l) i
               (g_levels g)) /\
        g_levelSet (regroup chromeOrFirefox g levelParsed) = g_levelSet g
    end.
Proof.
  unfold regroup.
  match goal with
  | |- context [g_levelSet g !! lp_bitrate ?p] =>
      match p with
      | levelParsed => fail 1
      | _ => set (erased := p)
      end
  end.
  assert (Hb : lp_bitrate erased = lp_bitrate levelParsed)
    by (subst erased; destruct (_ && _); reflexivity).
  assert (Hu : lp_url erased = lp_url levelParsed)
    by (subst erased; destruct (_ && _); reflexivity).
  assert (Hv : lp_videoCodec erased = lp_videoCodec levelParsed)
    by (subst erased; destruct (_ && _); reflexivity).
  rewrite Hb, Hu. clearbody erased.
  assert (Hid : forall (i : nat) (ls : list Level),
            ls = alter (fun l : Level => l) i ls).
  { intros i ls. symmetry. apply list_alter_id. reflexivity. }
  destruct (g_levelSet g !! lp_bitrate levelParsed) as [i|];
    destruct (lp_attrs levelParsed) as [[[a|] [s|]]|]; cbn -[truthy];
    repeat match goal with
           | |- context [truthy (Some ?x)] => destruct (truthy (Some x))
           end;
    cbn;
    first
      [ exists (fun l : Level => l), erased;
        repeat split; intros; first [reflexivity | assumption | apply Hid]
      | exists (fun l => addGroupId l audio_group a), erased;
        repeat split; intros; first [reflexivity | assumption]
      | exists (fun l => addGroupId l text_group s), erased;
        repeat split; intros; first [reflexivity | assumption]
      | exists (fun l => addGroupId (addGroupId l audio_group a) text_group s), erased;
        repeat split; intros;
        first [reflexivity | assumption
              | apply (list_alter_alter_eq
                         (fun l => addGroupId l text_group s)
                         (fun l => addGroupId l audio_group a)) ] ].
Qed.

Lemma rendition_bitrate (f : Level -> Level) :
  (forall l, rendition (f l) = rendition l) -> forall l, bitrate (f l) = bitrate l.
Proof. intros H l. specialize (H l). unfold rendition in H. congruence. Qed.

Lemma rendition_url (f : Level -> Level) :
  (forall l, rendition (f l) = rendition l) -> forall l, url (f l) = url l.
Proof. intros H l. specialize (H l). unfold rendition in H. congruence. Qed.

Lemma filter_bitrate_snoc (b : Z) (processed : list LevelParsed) (p : LevelParsed) :
  filter (fun q => lp_bitrate q = b) (processed ++ [p])
  = filter (fun q => lp_bitrate q = b) processed
    ++ (if decide (lp_bitrate p = b) then [p] else []).
Proof.
  rewrite filter_app. reflexivity.
Qed.

Lemma regroup_grouping_of (processed : list LevelParsed) (g : Grouping)
    (levelParsed : LevelParsed) :
  grouping_of processed g ->
  grouping_of (processed ++ [levelParsed]) (regroup chromeOrFirefox g levelParsed).
Proof.
  intros (Hgrouped & Hnamed & Hseen & Hurls).
  destruct (regroup_shape g levelParsed) as (f & erased & Hf & _ & Hb & Hu & Hshape).
  pose proof (rendition_bitrate f (fun l => proj1 (Hf l))) as Hfb.
  pose proof (rendition_url f (fun l => proj1 (Hf l))) as Hfu.
  set (b := lp_bitrate levelParsed) in *.
  unfold grouping_of.
  destruct (g_levelSet g !! b) as [i0|] eqn:Hlk; destruct Hshape as [-> ->].
  - (* the bitrate has its level already *)
    destruct (Hnamed b i0 Hlk) as (l0 & Hl0 & Hb0).
    split; [|split; [|split]].
    + apply grouped_alter; [exact Hfb|]. apply grouped_alter; [reflexivity|].
      exact Hgrouped.
    + intros b' i Hi. destruct (Hnamed b' i Hi) as (l & Hl & Hbl).
      rewrite list_alter_alter_eq, list_lookup_alter.
      destruct (decide (i0 = i)) as [->|]; [|eauto].
      rewrite Hl. cbn. eexists. split; [reflexivity|]. rewrite Hfb. exact Hbl.
    + intros p Hp. apply elem_of_app in Hp as [Hp|Hp]; [auto|].
      apply list_elem_of_singleton in Hp as ->. fold b. rewrite Hlk. eauto.
    + intros i l Hl. rewrite list_alter_alter_eq, list_lookup_alter in Hl.
      rewrite filter_bitrate_snoc. fold b.
      destruct (decide (i0 = i)) as [->|Hne].
      * rewrite Hl0 in Hl. cbn in Hl. injection Hl as <-.
        rewrite Hfu, Hfb. cbn. rewrite Hb0.
        rewrite decide_True by reflexivity.
        rewrite fmap_app. cbn. f_equal.
        rewrite (Hurls i l0 Hl0), Hb0. reflexivity.
      * rewrite decide_False.
        -- rewrite app_nil_r. apply (Hurls i l Hl).
        -- intros Heq. apply Hgrouped in Hl. rewrite <- Heq, Hlk in Hl. congruence.
  - (* a new level *)
    assert (Hnew : bitrate (new_Level erased) = b) by exact Hb.
    split; [|split; [|split]].
    + apply grouped_alter; [exact Hfb|].
      rewrite <- Hnew. apply grouped_push; [exact Hgrouped|].
      rewrite Hnew. exact Hlk.
    + intros b' i Hi. rewrite list_lookup_alter.
      destruct (decide (b = b')) as [<-|Hne].
      * rewrite lookup_insert_eq in Hi. injection Hi as <-.
        rewrite decide_True by reflexivity.
        rewrite lookup_app_r, Nat.sub_diag by lia. cbn.
        eexists. split; [reflexivity|]. rewrite Hfb. exact Hnew.
      * rewrite lookup_insert_ne in Hi by exact Hne.
        destruct (Hnamed b' i Hi) as (l & Hl & Hbl).
        pose proof (lookup_lt_Some _ _ _ Hl) as Hlt.
        rewrite decide_False by lia.
        rewrite lookup_app_l by exact Hlt. eauto.
    + intros p Hp. apply elem_of_app in Hp as [Hp|Hp].
      * destruct (decide (b = lp_bitrate p)) as [<-|Hne].
        -- rewrite lookup_insert_eq. eauto.
        -- rewrite lookup_insert_ne by exact Hne. auto.
      * apply list_elem_of_singleton in Hp as ->. fold b.
        rewrite lookup_insert_eq. eauto.
    + intros i l Hl. rewrite list_lookup_alter in Hl.
      rewrite filter_bitrate_snoc. fold b.
      destruct (decide (length (g_levels g) = i)) as [<-|Hne].
      * rewrite lookup_app_r, Nat.sub_diag in Hl by lia. cbn in Hl.
        injection Hl as <-. rewrite Hfu, Hfb, Hnew. cbn.
        rewrite decide_True by reflexivity. rewrite Hu.
        assert (Hnone : filter (fun q => lp_bitrate q = b) processed = []).
        { destruct (filter _ processed) as [|q rest] eqn:E; [reflexivity|].
          assert (Hq : q ∈ filter (fun q => lp_bitrate q = b) processed)
            by (rewrite E; left).
          apply list_elem_of_filter in Hq as [Heq Hq].
          destruct (Hseen q Hq) as [j Hj]. rewrite Heq, Hlk in Hj. discriminate. }
        rewrite Hnone. reflexivity.
      * apply lookup_app_Some in Hl as [Hl|[Hge Hl]].
        -- rewrite decide_False.
           ++ rewrite app_nil_r. apply (Hurls i l Hl).
           ++ intros Heq. apply Hgrouped in Hl. rewrite <- Heq, Hlk in Hl.
              discriminate.
        -- destruct (i - length (g_levels g))%nat as [|n] eqn:E; [lia|].
           destruct n; discriminate.
Qed.

Lemma regroup_all_grouping_of (parsed : list LevelParsed) :
  grouping_of parsed (regroup_all chromeOrFirefox parsed).
Proof.
  unfold regroup_all.
  set (g0 := {| g_levels := []; g_levelSet := ∅;
                g_videoCodecFound := false; g_audioCodecFound := false |}).
  assert (H0 : grouping_of [] g0).
  { repeat split.
    - intros i l H. destruct i; discriminate.
    - intros b i H. subst g0. cbn in H. rewrite lookup_empty in H. discriminate.
    - intros p Hp. apply elem_of_nil in Hp. contradiction.
    - intros i l H. destruct i; discriminate. }
  change parsed with ([] ++ parsed) at 1.
  revert H0. generalize g0. generalize (@nil LevelParsed). clear g0.
  induction parsed as [|p parsed IH]; intros processed g Hg; cbn.
  - rewrite app_nil_r. exact Hg.
  - replace (processed ++ p :: parsed) with ((processed ++ [p]) ++ parsed)
      by (rewrite <- app_assoc; reflexivity).
    apply IH. apply regroup_grouping_of. exact Hg.
Qed.

Lemma surviving_levels_subset (g : Grouping) (l : Level) :
  l ∈ surviving_levels isCodecSupportedInMp4 g -> l ∈ g_levels g.
Proof.
  unfold surviving_levels. intros H.
  apply list_elem_of_In, List.filter_In in H as [H _].
  destruct (_ && _); [apply List.filter_In in H as [H _]|];
    apply list_elem_of_In; exact H.
Qed.

(** X19. Grouping a manifest by bitrate loses no URL and mixes none: a
    grouped level has exactly the URLs of the manifest entries of its
    bitrate, in manifest order, so at least one; every manifest entry
    finds its URL in the level of its bitrate; and the levels that
    [onManifestLoaded] stores, when some survive the codec filters, have
    those same URL lists. *)
Theorem onManifestLoaded_groups_urls_by_bitrate :
  (forall (parsed : list LevelParsed) (l : Level),
      l ∈ g_levels (regroup_all chromeOrFirefox parsed) ->
      url l = lp_url <$> filter (fun p => lp_bitrate p = bitrate l) parsed /\
      url l <> []) /\
  (forall (parsed : list LevelParsed) (p : LevelParsed),
      p ∈ parsed ->
      exists l, l ∈ g_levels (regroup_all chromeOrFirefox parsed) /\
                bitrate l = lp_bitrate p /\ lp_url p ∈ url l) /\
  (forall (data : ManifestLoadedData) (this : t) (first : Level)
          (rest : list Level),
      surviving_levels isCodecSupportedInMp4
        (regroup_all chromeOrFirefox (ml_levels data)) = first :: rest ->
      exists levels,
        _levels (onManifestLoaded chromeOrFirefox isCodecSupportedInMp4 data this)
        = Some levels /\
        forall l, l ∈ levels ->
          url l = lp_url <$> filter (fun p => lp_bitrate p = bitrate l)
                               (ml_levels data)).
Proof.
  assert (Hurls : forall parsed l,
            l ∈ g_levels (regroup_all chromeOrFirefox parsed) ->
            url l = lp_url <$> filter (fun p => lp_bitrate p = bitrate l) parsed).
  { intros parsed l Hl.
    destruct (regroup_all_grouping_of parsed) as (_ & _ & _ & H).
    apply list_elem_of_lookup in Hl as [i Hi]. exact (H i l Hi). }
  split; [|split].
  - intros parsed l Hl. split; [apply Hurls; exact Hl|].
    pose proof (regroup_all_urlId_in_range chromeOrFirefox parsed) as Hrange.
    rewrite Forall_forall in Hrange. specialize (Hrange l Hl).
    unfold urlId_in_range in Hrange. intros Hnil. rewrite Hnil in Hrange.
    cbn in Hrange. lia.
  - intros parsed p Hp.
    destruct (regroup_all_grouping_of parsed) as (_ & Hnamed & Hseen & _).
    destruct (Hseen p Hp) as [i Hi].
    destruct (Hnamed _ _ Hi) as (l & Hl & Hb).
    assert (Hin : l ∈ g_levels (regroup_all chromeOrFirefox parsed))
      by (apply list_elem_of_lookup; eauto).
    exists l. split; [exact Hin|]. split; [exact Hb|].
    rewrite (Hurls parsed l Hin). apply list_elem_of_fmap.
    exists p. split; [reflexivity|].
    apply list_elem_of_filter. split; [symmetry; exact Hb | exact Hp].
  - intros data this first rest Hsurviving.
    exists (sort_by_bitrate (first :: rest)). split.
    + unfold onManifestLoaded. rewrite Hsurviving.
      destruct (find_bitrate _ _ _); reflexivity.
    + intros l Hl. rewrite sort_by_bitrate_Permutation in Hl.
      rewrite <- Hsurviving in Hl. apply surviving_levels_subset in Hl.
      apply Hurls. exact Hl.
Qed.

End GroupingFacts.

Lemma onManifestLoaded_groups_urls_by_bitrate_witness :
  exists levels,
    LevelController._levels LevelController.after_audio_only_first = Some levels /\
    forall l, l ∈ levels ->
      LevelController.url l
      = LevelController.lp_url <$>
          filter (fun p => LevelController.lp_bitrate p = LevelController.bitrate l)
            (LevelController.ml_levels LevelController.audio_only_first).
Proof.
  exact (proj2 (proj2 (onManifestLoaded_groups_urls_by_bitrate false
                         LevelController.every_codec_supported))
           LevelController.audio_only_first
           (LevelController.constructor LevelController.retry_config)
           _ _ eq_refl).
Defined.

(* ====================================================================== *)
(** * Properties of the LevelController: manifests without a usable level  *)
(* ====================================================================== *)

Section IncompatibleCodecsFacts.

Import LevelController.
Local Open Scope Z_scope.

Variable chromeOrFirefox : bool.
Variable isCodecSupportedInMp4 : string -> CodecType -> bool.

(** A video codec that is named and not supported. *)
Local Abbreviation unsupported_video codec :=
  (exists c : string,
      codec = Some c /\ c <> ""%string /\
      isCodecSupportedInMp4 c video_codec = false).

Lemma regroup_unsupported_video (g : Grouping) (levelParsed : LevelParsed) :
  unsupported_video (lp_videoCodec levelParsed) ->
  Forall (fun l => unsupported_video (videoCodec l)) (g_levels g) ->
  Forall (fun l => unsupported_video (videoCodec l))
    (g_levels (regroup chromeOrFirefox g levelParsed)).
Proof.
  intros Hp Hg.
  destruct (regroup_shape chromeOrFirefox g levelParsed)
    as (f & erased & Hf & Hv & _ & _ & Hshape).
  destruct (g_levelSet g !! lp_bitrate levelParsed); destruct Hshape as [-> _].
  - apply Forall_alter; [|intros l _ Hl; rewrite (proj2 (Hf l)); exact Hl].
    apply Forall_alter; [exact Hg | intros l _ Hl; exact Hl].
  - apply Forall_alter; [|intros l _ Hl; rewrite (proj2 (Hf l)); exact Hl].
    apply Forall_app. split; [exact Hg|].
    apply Forall_cons_2; [|constructor]. cbn. rewrite Hv. exact Hp.
Qed.

Lemma regroup_all_unsupported_video (parsed : list LevelParsed) :
  Forall (fun p => unsupported_video (lp_videoCodec p)) parsed ->
  Forall (fun l => unsupported_video (videoCodec l))
    (g_levels (regroup_all chromeOrFirefox parsed)).
Proof.
  unfold regroup_all.
  set (g0 := {| g_levels := []; g_levelSet := ∅;
                g_videoCodecFound := false; g_audioCodecFound := false |}).
  assert (H0 : Forall (fun l => unsupported_video (videoCodec l)) (g_levels g0))
    by constructor.
  revert H0. generalize g0. clear g0.
  induction parsed as [|p parsed IH]; intros g Hg Hall; cbn; [exact Hg|].
  apply Forall_cons in Hall as [Hp Hall].
  apply IH; [|exact Hall]. apply regroup_unsupported_video; assumption.
Qed.

Lemma filter_none {A : Type} (p : A -> bool) (l : list A) :
  Forall (fun x => p x = false) l -> List.filter p l = [].
Proof.
  induction 1 as [|x l Hx _ IH]; cbn; [reflexivity|]. rewrite Hx. exact IH.
Qed.

(** X20. A manifest in which every variant names a video codec that the
    browser cannot play (an empty manifest included) is answered with one
    fatal [MANIFEST_INCOMPATIBLE_CODECS_ERROR] carrying the manifest URL,
    and nothing else happens: the levels and the first level stay as they
    were and no [MANIFEST_PARSED] is announced. *)
Theorem onManifestLoaded_without_playable_video (data : ManifestLoadedData)
    (this : t) :
  (forall p, p ∈ ml_levels data ->
     exists c, lp_videoCodec p = Some c /\ c <> ""%string /\
               isCodecSupportedInMp4 c video_codec = false) ->
  let this' := onManifestLoaded chromeOrFirefox isCodecSupportedInMp4 data this in
  exists e,
    triggered this' = triggered this ++ [ERROR e] /\
    fatal e = true /\
    err_type e = MEDIA_ERROR /\
    err_details e = MANIFEST_INCOMPATIBLE_CODECS_ERROR /\
    err_url e = Some (ml_url data) /\
    _levels this' = _levels this /\
    _firstLevel this' = _firstLevel this.
Proof.
  intros Hall this'. subst this'. unfold onManifestLoaded.
  assert (Hnone : surviving_levels isCodecSupportedInMp4
                    (regroup_all chromeOrFirefox (ml_levels data)) = []).
  { unfold surviving_levels. apply filter_none.
    assert (Hbad : Forall (fun l => level_supported isCodecSupportedInMp4 l = false)
                     (g_levels (regroup_all chromeOrFirefox (ml_levels data)))).
    { eapply Forall_impl;
        [apply regroup_all_unsupported_video, Forall_forall; exact Hall|].
      intros l (c & Hc & Hne & Hno). unfold level_supported, codec_supported.
      rewrite Hc, Hno. destruct c; [contradiction|]. cbn.
      apply andb_false_r. }
    destruct (_ && _); [apply Forall_List_filter|]; exact Hbad. }
  rewrite Hnone. eexists. split; [reflexivity|]. cbn. auto 10.
Qed.

End IncompatibleCodecsFacts.

Lemma onManifestLoaded_without_playable_video_witness :
  exists e,
    LevelController.triggered
      (LevelController.onManifestLoaded false LevelController.avc_only_browser
         LevelController.hevc_only
         (LevelController.constructor LevelController.retry_config))
    = [LevelController.ERROR e] /\
    LevelController.fatal e = true.
Proof.
  destruct (onManifestLoaded_without_playable_video false
              LevelController.avc_only_browser LevelController.hevc_only
              (LevelController.constructor LevelController.retry_config))
    as (e & Htriggered & Hfatal & _).
  - intros p Hp. apply list_elem_of_singleton in Hp as ->.
    eexists. split; [reflexivity|]. split; [discriminate | reflexivity].
  - exists e. split; [exact Htriggered | exact Hfatal].
Defined.

(* ====================================================================== *)
(** * Properties of the LevelController: successive low-latency reloads    *)
(* ====================================================================== *)

Section LowLatencySequenceFacts.

Import LevelController.
Local Open Scope Z_scope.





Lemma before_question_mark_idem (s : string) :
  JS.before_question_mark (JS.before_question_mark s) = JS.before_question_mark s.
Proof.
  induction s as [|a s IH]; cbn; [reflexivity|].
  destruct (Ascii.eqb a "?") eqn:E; [reflexivity|]. cbn. rewrite E, IH. reflexivity.
Qed.

Lemma before_question_mark_app (base rest : string) :
  JS.before_question_mark base = base ->
  JS.before_question_mark (base ++ String "?" rest) = base.
Proof.
  induction base as [|a base IH]; simpl; intros H; [reflexivity|].
  destruct (Ascii.eqb a "?"); [discriminate|].
  injection H as H. f_equal. exact (IH H).
Qed.

(** X22. The low-latency request does not pile up query strings: when
    the playlist comes back under the URL of an earlier low-latency
    request, the next request is that request's base URL followed by a
    single [?_HLS_msn=N]. *)
Theorem loadLowLatencyLevel_replaces_query (d0 d : LevelDetails.t)
    (level id N0 : Z) (this : t) (sc : LevelDetails.ServerControl) :
  canLoad this = true ->
  LevelDetails.serverControl d = Some sc ->
  LevelDetails.url d
  = (JS.before_question_mark (LevelDetails.url d0)
     ++ "?_HLS_msn=" ++ pretty N0)%string ->
  exists this' N,
    loadLowLatencyLevel d level id this = Returned this' /\
    currentSn this' = N /\
    triggered this'
    = triggered this ++
      [LEVEL_LOADING
         (Some (JS.before_question_mark (LevelDetails.url d0)
                ++ "?_HLS_msn=" ++ pretty N)%string)
         level id].
Proof.
  intros Hload Hsc Hurl.
  destruct (loadLowLatencyLevel_request d level id this sc Hload Hsc)
    as (this' & Hrun & Htr & Hcur).
  exists this'. eexists. split; [exact Hrun|]. split; [exact Hcur|].
  rewrite Htr, Hurl.
  change ("?_HLS_msn=" ++ pretty N0)%string
    with (String "?" ("_HLS_msn=" ++ pretty N0)%string).
  rewrite before_question_mark_app by apply before_question_mark_idem.
  reflexivity.
Qed.

Lemma loadLowLatencyLevel_replaces_query_witness :
  exists this' N,
    loadLowLatencyLevel echoed_details 0 0 playing_single_level
    = Returned this' /\
    currentSn this' = N.
Proof.
  destruct (loadLowLatencyLevel_replaces_query blocking_details
              echoed_details 0 0 43 playing_single_level
              {| LevelDetails.canBlock := true; LevelDetails.canSkipUntil := 0;
                 LevelDetails.holdBack := 12; LevelDetails.partHoldBack := 3 |}
              eq_refl eq_refl eq_refl)
    as (this' & N & Hrun & Hcur & _).
  exists this', N. split; [exact Hrun | exact Hcur].
Defined.

End LowLatencySequenceFacts.

(* ====================================================================== *)
(** * Properties of the TimelineController: the table of initial PTS       *)
(* ====================================================================== *)

Section InitPtsTableFacts.

Import TimelineController.
Local Open Scope Z_scope.

(** Reading back an array with holes after a write. *)
Lemma array_set_lookup {A : Type} (arr : list (option A)) (i j : nat) (v : A) :
  mjoin (array_set arr i v !! j)
  = if decide (i = j) then Some v else mjoin (arr !! j).
Proof.
  unfold array_set. destruct (i <? length arr)%nat eqn:E.
  - apply Nat.ltb_lt in E. destruct (decide (i = j)) as [<-|Hne].
    + rewrite list_lookup_insert_eq by exact E. reflexivity.
    + rewrite list_lookup_insert_ne by exact Hne. reflexivity.
  - apply Nat.ltb_ge in E.
    destruct (decide (j < length arr)%nat) as [Hlt|Hge].
    + rewrite lookup_app_l by exact Hlt.
      rewrite decide_False by lia. reflexivity.
    + rewrite lookup_app_r by lia.
      rewrite (lookup_ge_None_2 arr j) by lia.
      destruct (decide (i = j)) as [<-|Hne].
      * rewrite lookup_app_r by (rewrite length_replicate; lia).
        rewrite length_replicate, Nat.sub_diag. reflexivity.
      * destruct (decide (j < i)%nat) as [Hji|Hij].
        -- rewrite lookup_app_l by (rewrite length_replicate; lia).
           rewrite lookup_replicate_2 by lia. reflexivity.
        -- rewrite lookup_app_r by (rewrite length_replicate; lia).
           rewrite length_replicate.
           destruct (j - length arr - (i - length arr))%nat as [|n] eqn:En; [lia|].
           reflexivity.
Qed.

(** X23. The table of initial PTS answers what was written to it: after
    [INIT_PTS_FOUND] with id ['main'] the entry of the fragment's
    discontinuity is the PTS of the event, whether the array had to grow or
    not, and every other entry is as before; an event with another id
    writes nothing.  Fragments that were waiting and are parsed on the way
    do not change the table. *)
Theorem onInitPtsFound_table (data : InitPTSFoundData) (this this' : t)
    (arr : list (option Z)) :
  initPTS this = Some arr ->
  onInitPtsFound data this = Returned this' ->
  forall cc : nat,
    finite_initPTS this' cc
    = Returned
        (if String.eqb (ipf_id data) "main"
            && bool_decide (LevelDetails.cc (ipf_frag data) = cc)
         then Some (ipf_initPTS data)
         else mjoin (arr !! cc)).
Proof.
  intros Harr Hrun cc. unfold onInitPtsFound in Hrun. cbn -[reissue] in Hrun.
  rewrite Harr in Hrun.
  assert (Hpts : initPTS this'
                 = Some (if String.eqb (ipf_id data) "main"
                         then array_set arr (LevelDetails.cc (ipf_frag data))
                                (ipf_initPTS data)
                         else arr)).
  { destruct (String.eqb (ipf_id data) "main"); cbn -[reissue] in Hrun;
      destruct (unparsedVttFrags this); cbn -[reissue] in Hrun;
      try (injection Hrun as <-; cbn; congruence);
      apply reissue_initPTS in Hrun; rewrite Hrun; cbn; congruence. }
  unfold finite_initPTS. rewrite Hpts.
  destruct (String.eqb (ipf_id data) "main"); cbn; [|reflexivity].
  rewrite array_set_lookup.
  destruct (decide (LevelDetails.cc (ipf_frag data) = cc)) as [H|H].
  - rewrite bool_decide_eq_true_2 by exact H. reflexivity.
  - rewrite bool_decide_eq_false_2 by exact H. reflexivity.
Qed.

Lemma onInitPtsFound_table_witness :
  exists this',
    onInitPtsFound (main_initPTS 2 90000) (constructor default_config)
    = Returned this' /\
    finite_initPTS this' 2 = Returned (Some 90000) /\
    finite_initPTS this' 1 = Returned None.
Proof.
  eexists. split; [reflexivity|]. split.
  - apply (onInitPtsFound_table (main_initPTS 2 90000)
             (constructor default_config) _ [] eq_refl eq_refl 2%nat).
  - reflexivity.
Defined.



(** X25. A decrypted subtitle fragment whose [decryptdata] still names
    the AES-128 method and its key is not parsed: with the initial PTS of
    its discontinuity known and a payload present, [onFragDecrypted] hands
    it to [onFragLoaded], which takes it for a fragment that is still
    encrypted and returns without any effect. *)
Theorem onFragDecrypted_skips_keyed_fragment (this : t) (data : FragLoadedData)
    (arr : list (option Z)) (pts : Z) (d : LevelDetails.DecryptData)
    (key : string) :
  LevelDetails.type (frag data) = LevelDetails.subtitle ->
  initPTS this = Some arr ->
  mjoin (arr !! LevelDetails.cc (frag data)) = Some pts ->
  payload_byteLength data <> 0 ->
  LevelDetails.decryptdata (frag data) = Some d ->
  LevelDetails.key d = Some key ->
  LevelDetails.method d = "AES-128"%string ->
  onFragDecrypted data this = Returned this.
Proof.
  intros Htype Harr Hknown Hpayload Hd Hkey Hmethod.
  unfold onFragDecrypted, onFragLoaded, finite_initPTS, not_encrypted.
  rewrite Htype, Harr. cbn. rewrite Hknown. cbn.
  rewrite Hd, Hkey, Hmethod.
  replace (payload_byteLength data =? 0) with false
    by (symmetry; apply Z.eqb_neq; exact Hpayload).
  reflexivity.
Qed.

Lemma onFragDecrypted_skips_keyed_fragment_witness :
  onFragDecrypted keyed_subtitle waiting_for_keyed_subtitle
  = Returned waiting_for_keyed_subtitle.
Proof.
  apply (onFragDecrypted_skips_keyed_fragment waiting_for_keyed_subtitle
           keyed_subtitle [None; Some 90000] 90000
           {| LevelDetails.key := Some "0123456789abcdef"%string;
              LevelDetails.method := "AES-128"%string |}
           "0123456789abcdef"%string);
    first [reflexivity | discriminate].
Defined.

End InitPtsTableFacts.

(* ====================================================================== *)
(** * Properties of the TimelineController: a cue that comes twice         *)
(* ====================================================================== *)

Section RepeatedCueFacts.

Import TimelineController.
Local Open Scope Q_scope.

Lemma covers_over_half (startTime endTime : Q) (r : Q * Q) :
  startTime < endTime -> covers startTime endTime r ->
  over_half startTime endTime r.
Proof.
  unfold covers, over_half, intersection. intros Hlt [Hlo Hhi].
  rewrite (proj2 (Q.min_r_iff (snd r) endTime)) by exact Hhi.
  rewrite (proj2 (Q.max_r_iff (fst r) startTime)) by exact Hlo.
  lra.
Qed.

Lemma widen_covers (startTime endTime : Q) (r : Q * Q) :
  covers startTime endTime
    (Qmin (fst r) startTime, Qmax (snd r) endTime).
Proof. unfold covers. cbn. split; [apply Q.le_min_r | apply Q.le_max_r]. Qed.

(** What the loop leaves behind whenever it found a range to widen. *)
Lemma merge_cue_covers (startTime endTime : Q) (ranges_rev : list (Q * Q)) :
  forall merged : bool,
    let '(out, merged', returned) :=
      merge_cue ranges_rev startTime endTime merged in
    (returned = true -> Exists (covers startTime endTime) out) /\
    (merged' = true -> merged = true \/ Exists (covers startTime endTime) out).
Proof.
  induction ranges_rev as [|r rest IH]; intros merged; cbn.
  - split; [discriminate | auto].
  - destruct (Qle_bool 0 _).
    + destruct (gt _ _).
      * split; intros _; [|right]; apply Exists_cons_hd, widen_covers.
      * specialize (IH true).
        destruct (merge_cue rest startTime endTime true) as [[out m] ret].
        split; intros _; [|right]; apply Exists_cons_hd, widen_covers.
    + specialize (IH merged).
      destruct (merge_cue rest startTime endTime merged) as [[out m] ret].
      destruct IH as [IH1 IH2].
      split; [intros H; apply Exists_cons_tl; auto|].
      intros H. destruct (IH2 H); [left | right; apply Exists_cons_tl]; auto.
Qed.

Lemma addCues_leaves_cover (trackName : string) (startTime endTime : Q) (this : t) :
  exists ranges,
    cueRanges (addCues trackName startTime endTime this) !! trackName = Some ranges /\
    Exists (covers startTime endTime) ranges.
Proof.
  unfold addCues.
  pose proof (merge_cue_covers startTime endTime
                (rev (default [] (cueRanges this !! trackName))) false) as H.
  destruct (merge_cue _ startTime endTime false) as [[out merged] returned].
  destruct H as [Hret Hmerged].
  destruct returned.
  - eexists. cbn. rewrite lookup_insert_eq. split; [reflexivity|].
    apply Exists_rev, Hret. reflexivity.
  - destruct merged.
    + destruct (Hmerged eq_refl) as [Habs|Hex]; [discriminate|].
      exists (rev out).
      split; [destruct (renderTextTracksNatively _); cbn; apply lookup_insert_eq|].
      apply Exists_rev. exact Hex.
    + exists (rev out ++ [(startTime, endTime)]).
      split; [destruct (renderTextTracksNatively _); cbn; apply lookup_insert_eq|].
      apply Exists_app. right. apply Exists_cons_hd.
      unfold covers. cbn. split; apply Qle_refl.
Qed.

(** X26. A cue that is delivered twice is shown once: for a cue of
    positive length, a second [addCues] with the same track and times
    finds the range that the first call left, which holds the whole cue,
    and returns without creating a cue or announcing one. *)
Theorem addCues_repeated_cue_is_dropped (trackName : string)
    (startTime endTime : Q) (this : t) :
  startTime < endTime ->
  effects (addCues trackName startTime endTime
             (addCues trackName startTime endTime this))
  = effects (addCues trackName startTime endTime this).
Proof.
  intros Hlt.
  destruct (addCues_leaves_cover trackName startTime endTime this)
    as (ranges & Hranges & Hcover).
  set (this1 := addCues trackName startTime endTime this) in *.
  unfold addCues at 1. rewrite Hranges. cbn [default]. unfold Datatypes.id.
  pose proof (merge_cue_spec startTime endTime (rev ranges)
                ltac:(apply Qlt_le_weak; exact Hlt) false) as Hspec.
  destruct (merge_cue (rev ranges) startTime endTime false) as [[out merged] returned].
  destruct Hspec as [Hret _].
  assert (Hyes : returned = true).
  { apply Hret, Exists_rev. eapply List.Exists_impl; [|exact Hcover].
    intros r Hr. apply covers_over_half; assumption. }
  rewrite Hyes. reflexivity.
Qed.

Lemma addCues_repeated_cue_is_dropped_witness :
  effects (addCues "textTrack1" 0 2 one_range) = effects one_range.
Proof.
  apply (addCues_repeated_cue_is_dropped "textTrack1" 0 2
           (constructor default_config)).
  reflexivity.
Defined.

End RepeatedCueFacts.

(* ====================================================================== *)
(** * Properties of the TimelineController: what the CEA-608 loop keeps    *)
(* ====================================================================== *)

Section Cea608Filter.

Import TimelineController.
Local Open Scope Z_scope.

Lemma drop_triplet (byteArray : list Z) (position : nat) :
  (position + 3 <= length byteArray)%nat ->
  exists tmpByte raw1 raw2,
    byteArray !! position = Some tmpByte /\
    byteArray !! (position + 1)%nat = Some raw1 /\
    byteArray !! (position + 2)%nat = Some raw2 /\
    drop position byteArray
    = tmpByte :: raw1 :: raw2 :: drop (position + 3) byteArray.
Proof.
  intros Hlen.
  destruct (lookup_lt_is_Some_2 byteArray position ltac:(lia)) as [t Ht].
  destruct (lookup_lt_is_Some_2 byteArray (position + 1) ltac:(lia)) as [r1 H1].
  destruct (lookup_lt_is_Some_2 byteArray (position + 2) ltac:(lia)) as [r2 H2].
  exists t, r1, r2. repeat split; try assumption.
  rewrite (drop_S _ _ _ Ht).
  replace (S position) with (position + 1)%nat by lia.
  rewrite (drop_S _ _ _ H1).
  replace (S (position + 1)) with (position + 2)%nat by lia.
  rewrite (drop_S _ _ _ H2).
  replace (S (position + 2)) with (position + 3)%nat by lia.
  reflexivity.
Qed.

Lemma extract_loop_field_of (n : nat) (byteArray : list Z) :
  forall (position : nat) (field0 field1 : list Z),
    (position + 3 * n <= length byteArray)%nat ->
    extract_loop n byteArray position [field0; field1]
    = Some [field0 ++ field_of 0 (triplets n (drop position byteArray));
            field1 ++ field_of 1 (triplets n (drop position byteArray))].
Proof.
  induction n as [|n IH]; intros position field0 field1 Hlen.
  - cbn. rewrite !app_nil_r. reflexivity.
  - destruct (drop_triplet byteArray position ltac:(lia))
      as (t & r1 & r2 & Ht & H1 & H2 & Hdrop).
    cbn [extract_loop]. rewrite Ht, H1, H2, Hdrop. cbn [mbind option_bind].
    cbn [triplets field_of flat_map].
    change (flat_map _ ?ts) with (field_of 0 ts) at 1.
    change (flat_map _ ?ts) with (field_of 1 ts) at 1.
    destruct ((Z.land 127 r1 =? 0) && (Z.land 127 r2 =? 0)); cbn [negb andb].
    + rewrite IH by lia. reflexivity.
    + destruct (Z.land 4 t =? 0); cbn [negb andb orb].
      * rewrite IH by lia. reflexivity.
      * destruct (Z.land 3 t =? 0) eqn:E0.
        -- apply Z.eqb_eq in E0. rewrite E0. cbn [orb Z.eqb].
           change (push_field 0 ?b2 (push_field 0 ?b1 [field0; field1]))
             with [(field0 ++ [b1]) ++ [b2]; field1].
           rewrite IH by lia. cbn. rewrite <- !app_assoc. reflexivity.
        -- destruct (Z.land 3 t =? 1) eqn:E1; cbn [orb].
           ++ apply Z.eqb_eq in E1. rewrite E1.
              change (push_field 1 ?b2 (push_field 1 ?b1 [field0; field1]))
                with [field0; (field1 ++ [b1]) ++ [b2]].
              rewrite IH by lia. cbn. rewrite <- !app_assoc. reflexivity.
           ++ rewrite IH by lia. reflexivity.
Qed.

(** X27. On a complete packet [extractCea608Data] is a filter: field 0
    holds, in packet order, the two data bytes (parity bit cleared) of
    every triplet that is marked valid, is of type 0 and is not a pair of
    zeros, and field 1 the same for type 1; the bytes after the last
    triplet are not looked at. *)
Theorem extractCea608Data_filters_triplets (byteArray : list Z) (byte0 : Z) :
  byteArray !! 0%nat = Some byte0 ->
  2 + 3 * Z.land byte0 31 <= Z.of_nat (length byteArray) ->
  let ts := triplets (Z.to_nat (Z.land byte0 31)) (drop 2 byteArray) in
  extractCea608Data byteArray = Some [field_of 0 ts; field_of 1 ts].
Proof.
  intros Hbyte0 Hlen ts. unfold extractCea608Data. rewrite Hbyte0. cbn [mbind option_bind].
  assert (Hpos : 0 <= Z.land byte0 31) by (apply Z.land_nonneg; lia).
  rewrite (extract_loop_field_of _ _ 2 [] []) by lia.
  reflexivity.
Qed.

Lemma extractCea608Data_filters_triplets_witness :
  extractCea608Data [0xC2; 0xFF; 0xFC; 0x94; 0x2C; 0xFD; 0xC8; 0xE9; 0x00]
  = Some [[0x14; 0x2C]; [0x48; 0x69]].
Proof.
  apply (extractCea608Data_filters_triplets
           [0xC2; 0xFF; 0xFC; 0x94; 0x2C; 0xFD; 0xC8; 0xE9; 0x00] 0xC2 eq_refl).
  vm_compute. discriminate.
Defined.

End Cea608Filter.

(* ====================================================================== *)
(** * Properties of the PassThroughRemuxer                                 *)
(* ====================================================================== *)

Section PassThroughRemuxerFacts.

Import PassThroughRemuxer.

Variable Metadata : Type.
Variable DecodeTimes : Type.
Variable parseInitSegment : Bytes -> InitData.
Variable getDuration : Bytes -> InitData -> Number.
Variable getStartDTS : InitData -> Bytes -> Number.
Variable offsetStartDTS : InitData -> Bytes -> option Number -> DecodeTimes.

Local Abbreviation remux_ :=
  (remux Metadata DecodeTimes parseInitSegment getDuration getStartDTS
     offsetStartDTS).

(** Every way through [remux], one goal each. *)
Local Ltac remux_cases :=
  unfold remux;
  repeat match goal with
         | |- context [match samples ?v with _ => _ end] =>
             destruct (samples v) as [[|? ?]|]
         | |- context [if negb (isFinite ?x) then _ else _] =>
             destruct (isFinite x) eqn:?; cbn [negb]
         | |- context [if no_initData ?x then _ else _] =>
             destruct (no_initData x) eqn:?
         | |- context [match initData ?x with _ => _ end] =>
             destruct (initData x) eqn:?
         | |- context [if (?n =? 0)%nat then _ else _] =>
             destruct (n =? 0)%nat eqn:?
         | |- context [if emitInitSegment ?x then _ else _] =>
             destruct (emitInitSegment x) eqn:?
         | |- context [if String.eqb ?a ?b then _ else _] =>
             destruct (String.eqb a b) eqn:?
         end.

(** A call that produced a track remembers where the track ends. *)
Lemma remux_remembers_end (audioTrack videoTrack : DemuxedTrack)
    (id3Track textTrack : Metadata) (timeOffset : Number)
    (accurateTimeOffset : bool) (this : t) (track : RemuxedTrack DecodeTimes) :
  let run := remux_ audioTrack videoTrack id3Track textTrack timeOffset
               accurateTimeOffset this in
  remuxed Metadata DecodeTimes run.1 = Some track ->
  lastEndDTS run.2 = Some (endDTS DecodeTimes track).
Proof.
  cbn zeta. remux_cases; cbn; try discriminate; intros [= <-]; reflexivity.
Qed.

(** A call on a remuxer that remembers a finite end starts there. *)
Lemma remux_starts_at_end (audioTrack videoTrack : DemuxedTrack)
    (id3Track textTrack : Metadata) (timeOffset : Number)
    (accurateTimeOffset : bool) (this : t) (e : Q) :
  lastEndDTS this = Some (Fin e) ->
  let run := remux_ audioTrack videoTrack id3Track textTrack timeOffset
               accurateTimeOffset this in
  match remuxed Metadata DecodeTimes run.1 with
  | Some track =>
      startDTS DecodeTimes track = Fin e /\ startPTS DecodeTimes track = Fin e
  | None => lastEndDTS run.2 = Some (Fin e)
  end.
Proof.
  intros Hend. cbn zeta. unfold remux. rewrite Hend. cbn [isFinite negb].
  remux_cases; cbn; auto.
Qed.

(** X28. Segments are laid end to end: once a call of [remux] has
    produced a track that ends at a finite time, the track of the next
    call starts (DTS and PTS) exactly there, whatever time offset that
    call is given; and a next call without payload produces no track and
    keeps that end for the call after it. *)
Theorem remux_continues_at_last_end
    (audioTrack1 videoTrack1 audioTrack2 videoTrack2 : DemuxedTrack)
    (id3Track1 textTrack1 id3Track2 textTrack2 : Metadata)
    (timeOffset1 timeOffset2 : Number)
    (accurateTimeOffset1 accurateTimeOffset2 : bool) (this : t)
    (track1 : RemuxedTrack DecodeTimes) (e : Q) :
  let run1 := remux_ audioTrack1 videoTrack1 id3Track1 textTrack1 timeOffset1
                accurateTimeOffset1 this in
  remuxed Metadata DecodeTimes run1.1 = Some track1 ->
  endDTS DecodeTimes track1 = Fin e ->
  let run2 := remux_ audioTrack2 videoTrack2 id3Track2 textTrack2 timeOffset2
                accurateTimeOffset2 run1.2 in
  match remuxed Metadata DecodeTimes run2.1 with
  | Some track2 =>
      startDTS DecodeTimes track2 = Fin e /\ startPTS DecodeTimes track2 = Fin e
  | None => lastEndDTS run2.2 = Some (Fin e)
  end.
Proof.
  intros run1 Htrack Hend run2.
  apply remux_starts_at_end.
  rewrite <- Hend. apply (remux_remembers_end _ _ _ _ _ _ _ _ Htrack).
Qed.

(** X29. The init segment goes out once, with the first payload: while
    it is pending, a call without payload returns no init segment and
    leaves it pending; the first call with payload (and usable init data)
    returns it, with the tracks generated from it, and clears the flag;
    and a call with the flag clear returns none and leaves it clear. *)
Theorem remux_emits_initSegment_once (audioTrack videoTrack : DemuxedTrack)
    (id3Track textTrack : Metadata) (timeOffset : Number)
    (accurateTimeOffset : bool) (this : t) :
  let run := remux_ audioTrack videoTrack id3Track textTrack timeOffset
               accurateTimeOffset this in
  (no_bytes (samples videoTrack) = true ->
   initSegment Metadata DecodeTimes run.1 = None /\
   remuxed Metadata DecodeTimes run.1 = None /\
   emitInitSegment run.2 = emitInitSegment this) /\
  (no_bytes (samples videoTrack) = false ->
   emitInitSegment this = true ->
   no_initData (initData this) = false ->
   exists s,
     initSegment Metadata DecodeTimes run.1 = Some s /\
     isd_tracks s = initTracks this /\
     emitInitSegment run.2 = false) /\
  (emitInitSegment this = false ->
   initSegment Metadata DecodeTimes run.1 = None /\
   emitInitSegment run.2 = false).
Proof.
  cbn zeta. split; [|split].
  - unfold remux. destruct (samples videoTrack) as [[|b bs]|]; cbn [no_bytes];
      try discriminate; intros _; destruct (isFinite (lastEndDTS this)); cbn; auto.
  - unfold remux. destruct (samples videoTrack) as [[|b bs]|]; cbn [no_bytes];
      try discriminate. intros _ Hemit Hinit.
    assert (Hfields : forall v,
              no_initData (initData (set_lastEndDTS v this)) = false /\
              emitInitSegment (set_lastEndDTS v this) = true /\
              initTracks (set_lastEndDTS v this) = initTracks this)
      by (intros v; cbn; auto).
    destruct (isFinite (lastEndDTS this)); cbn [negb].
    + rewrite Hinit. unfold no_initData in Hinit.
      destruct (initData this) as [d|]; [|discriminate].
      rewrite Hinit, Hemit.
      destruct (isFinite (initPTS this)); cbn [negb];
        destruct (String.eqb _ _); cbn; eexists; eauto.
    + destruct (Hfields (Some (or_zero (Some timeOffset)))) as (H1 & H2 & H3).
      rewrite H1. unfold no_initData in H1.
      destruct (initData (set_lastEndDTS _ this)) as [d|]; [|discriminate].
      rewrite H1, H2.
      destruct (isFinite (initPTS this)); cbn [negb];
        destruct (String.eqb _ _); cbn; eexists; eauto.
  - intros Hemit.
    assert (Hgen : forall bs v,
              emitInitSegment
                (generateInitSegment parseInitSegment bs (set_lastEndDTS v this))
              = false /\
              emitInitSegment (generateInitSegment parseInitSegment bs this) = false).
    { intros bs v. unfold generateInitSegment.
      destruct bs as [[|? ?]|]; cbn; auto. }
    remux_cases; cbn; rewrite ?Hemit; auto;
      match goal with
      | H : emitInitSegment _ = true |- _ =>
          first [ rewrite (proj1 (Hgen _ _)) in H
                | rewrite (proj2 (Hgen _ _)) in H
                | cbn in H; rewrite Hemit in H ];
          discriminate
      | _ => idtac
      end;
      first [ split; [reflexivity|]; first [apply Hgen | exact Hemit | cbn; exact Hemit]
            | idtac ].
Qed.

(** X30. A result carries at most one media track, and its slot follows
    the init data: the audio slot exactly when the init data has an audio
    entry and no video entry, the video slot otherwise, muxed content and
    content of neither kind included; the track's flags are those of the
    init data and its bytes are the payload. *)
Theorem remux_fills_one_slot (audioTrack videoTrack : DemuxedTrack)
    (id3Track textTrack : Metadata) (timeOffset : Number)
    (accurateTimeOffset : bool) (this : t) (track : RemuxedTrack DecodeTimes) :
  let run := remux_ audioTrack videoTrack id3Track textTrack timeOffset
               accurateTimeOffset this in
  remuxed Metadata DecodeTimes run.1 = Some track ->
  exists d,
    initData run.2 = Some d /\
    hasAudio DecodeTimes track = id_audio d /\
    hasVideo DecodeTimes track = id_video d /\
    samples videoTrack = Some (data1 DecodeTimes track) /\
    text Metadata DecodeTimes run.1 = textTrack /\
    id3 Metadata DecodeTimes run.1 = id3Track /\
    if id_audio d && negb (id_video d)
    then audio Metadata DecodeTimes run.1 = Some track /\
         video Metadata DecodeTimes run.1 = None
    else audio Metadata DecodeTimes run.1 = None /\
         video Metadata DecodeTimes run.1 = Some track.
Proof.
  cbn zeta.
  assert (Hslot : forall d : InitData,
            String.eqb
              ((if id_audio d then "audio" else "")
               ++ (if id_video d then "video" else ""))%string "audio"
            = id_audio d && negb (id_video d))
    by (intros d; destruct (id_audio d), (id_video d); reflexivity).
  remux_cases; cbn; try discriminate; intros Htrack;
    apply (f_equal (fun o => default track o)) in Htrack; cbn in Htrack;
    subst track; cbn;
    match goal with
    | H : String.eqb _ _ = _ |- _ => rewrite Hslot in H
    end;
    eexists; (split; [first [eassumption | reflexivity]|]); cbn;
    match goal with
    | H : _ && _ = _ |- _ => rewrite ?H
    end;
    auto 10.
Qed.

End PassThroughRemuxerFacts.

Lemma remux_continues_at_last_end_witness :
  let remux_ :=
    PassThroughRemuxer.remux unit unit PassThroughRemuxer.muxed_init
      PassThroughRemuxer.two_seconds PassThroughRemuxer.starts_at_ten
      PassThroughRemuxer.no_decode_times in
  let run1 :=
    remux_ PassThroughRemuxer.no_chunk PassThroughRemuxer.chunk tt tt
      (JS.Fin 0) true PassThroughRemuxer.after_init_segment in
  let run2 :=
    remux_ PassThroughRemuxer.no_chunk PassThroughRemuxer.chunk tt tt
      (JS.Fin 30) true run1.2 in
  exists track2,
    PassThroughRemuxer.remuxed unit unit run2.1 = Some track2 /\
    PassThroughRemuxer.startDTS unit track2 = JS.Fin (0 + 2)%Q.
Proof.
  cbn zeta.
  pose proof (remux_continues_at_last_end unit unit PassThroughRemuxer.muxed_init
                PassThroughRemuxer.two_seconds PassThroughRemuxer.starts_at_ten
                PassThroughRemuxer.no_decode_times
                PassThroughRemuxer.no_chunk PassThroughRemuxer.chunk
                PassThroughRemuxer.no_chunk PassThroughRemuxer.chunk
                tt tt tt tt (JS.Fin 0) (JS.Fin 30)
                true true PassThroughRemuxer.after_init_segment _ (2 + 0)%Q
                eq_refl eq_refl) as H.
  vm_compute in H. destruct H as [H _].
  eexists. split; [reflexivity|]. vm_compute. exact H.
Defined.

Lemma remux_emits_initSegment_once_witness :
  let remux_ :=
    PassThroughRemuxer.remux unit unit PassThroughRemuxer.muxed_init
      PassThroughRemuxer.two_seconds PassThroughRemuxer.starts_at_ten
      PassThroughRemuxer.no_decode_times in
  let run1 :=
    remux_ PassThroughRemuxer.no_chunk PassThroughRemuxer.chunk tt tt
      (JS.Fin 0) true PassThroughRemuxer.after_init_segment in
  (exists s,
      PassThroughRemuxer.initSegment unit unit run1.1 = Some s /\
      PassThroughRemuxer.isd_tracks s
      = PassThroughRemuxer.initTracks PassThroughRemuxer.after_init_segment) /\
  PassThroughRemuxer.emitInitSegment run1.2 = false.
Proof.
  cbn zeta.
  destruct (proj1 (proj2 (remux_emits_initSegment_once unit unit
                            PassThroughRemuxer.muxed_init
                            PassThroughRemuxer.two_seconds
                            PassThroughRemuxer.starts_at_ten
                            PassThroughRemuxer.no_decode_times
                            PassThroughRemuxer.no_chunk PassThroughRemuxer.chunk
                            tt tt (JS.Fin 0) true
                            PassThroughRemuxer.after_init_segment))
              eq_refl eq_refl eq_refl)
    as (s & Hs & Htracks & Hflag).
  split; [exists s; split; assumption | exact Hflag].
Defined.

Lemma remux_fills_one_slot_witness :
  let run :=
    PassThroughRemuxer.remux unit unit PassThroughRemuxer.muxed_init
      PassThroughRemuxer.two_seconds PassThroughRemuxer.starts_at_ten
      PassThroughRemuxer.no_decode_times
      PassThroughRemuxer.no_chunk PassThroughRemuxer.chunk tt tt
      (JS.Fin 0) true PassThroughRemuxer.after_init_segment in
  exists track,
    PassThroughRemuxer.video unit unit run.1 = Some track /\
    PassThroughRemuxer.audio unit unit run.1 = None.
Proof.
  cbn zeta.
  destruct (remux_fills_one_slot unit unit PassThroughRemuxer.muxed_init
              PassThroughRemuxer.two_seconds PassThroughRemuxer.starts_at_ten
              PassThroughRemuxer.no_decode_times
              PassThroughRemuxer.no_chunk PassThroughRemuxer.chunk tt tt
              (JS.Fin 0) true
              PassThroughRemuxer.after_init_segment _ eq_refl)
    as (d & Hd & _ & _ & _ & _ & _ & Hslot).
  vm_compute in Hd. injection Hd as <-. cbn in Hslot.
  destruct Hslot as [Ha Hv]. eexists. split; [exact Hv | exact Ha].
Defined.
